(** * Onion-message path finding and sending (package onionmessage)

    A shallow embedding of [onionmessage/pathfind.go] and
    [onionmessage/send.go], together with the mock graph of
    [onionmessage/pathfind_test.go], and the properties of the path finder,
    the onion builder and the dispatcher. *)

From Stdlib Require Import ZArith Lia String.
From Stdlib.Strings Require Byte.
From stdpp Require Import base option list gmap vector countable strings.

Local Open Scope Z_scope.
#[local] Set Warnings "-clear-no-such-hyp,-register-all".

(* ===================================================================== *)
(** ** Data model *)
(* ===================================================================== *)

#[global] Instance byte_eq_dec : EqDecision Byte.byte := Byte.byte_eq_dec.

#[global] Instance byte_countable : Countable Byte.byte :=
  inj_countable Byte.to_N Byte.of_N Byte.of_to_N.

(** [route.Vertex] is [[33]byte]: a compressed public key, compared
    byte-wise and usable as a map key. *)
Definition Vertex : Type := vec Byte.byte 33.
#[global] Arguments Vertex : simpl never.

#[global] Instance Vertex_eq_dec : EqDecision Vertex := _.

(** Reading 33 bytes back into a vertex; keys of Go maps are the byte
    sequences themselves. *)
Definition vertexOfBytes (l : list Byte.byte) : option Vertex :=
  H ← guard (33%nat = length l);
  Some (eq_rect _ (vec Byte.byte) (list_to_vec l) _ (eq_sym H)).

#[global] Instance Vertex_countable : Countable Vertex.
Proof.
  apply (inj_countable vec_to_list vertexOfBytes).
  intros v. unfold vertexOfBytes. case_guard as Hn; simplify_eq/=.
  - rewrite list_to_vec_to_list.
    rewrite (proof_irrel (eq_sym _) Hn). by destruct Hn.
  - by rewrite length_vec_to_list in Hn.
Defined.

(** The zero value of [route.Vertex], which a Go map lookup returns for a
    missing key. *)
Definition zeroVertex : Vertex := vreplicate 33 Byte.x00.

(** Modelled from the spec: [lnwire.FeatureVector] (package lnwire is not
    part of the sources at hand) is an immutable set of non-negative integer
    bits; [HasFeature] tests membership of one bit and
    [OnionMessagesOptional] is bit 39. *)
Definition FeatureBit : Type := N.
Definition FeatureVector : Type := gset N.
Definition OnionMessagesOptional : FeatureBit := 39%N.
Definition HasFeature (fv : FeatureVector) (bit : FeatureBit) : bool :=
  bool_decide (bit ∈ fv).

(** [graphdb.DirectedChannel]: the path finder only reads [OtherNode]. *)
Record DirectedChannel : Type := { OtherNode : Vertex }.

(** Go [error] values that occur in the package.  [ErrNoPathFound],
    [ErrDestinationNoOnionSupport] and [ErrPeerActorNotFound] are the
    package-level sentinels the two files refer to; [errBFSDone] is the
    unexported sentinel of pathfind.go; [ExternalError] is an error value
    produced by a collaborator (graph adapter, btcec, sphinx, record);
    [Errorf] is [fmt.Errorf] with its format string, the hop index
    substituted for [%d] and the error wrapped by [%w]; [runtimePanic] is
    not an error value but stands for a run-time panic (a slice index out
    of range), which also ends a call. *)
Inductive error : Type :=
  | ErrNoPathFound
  | ErrDestinationNoOnionSupport
  | ErrPeerActorNotFound
  | errBFSDone
  | ExternalError (msg : string)
  | Errorf (format : string) (hop : option nat) (cause : option error)
  | runtimePanic (msg : string).

#[global] Instance error_eq_dec : EqDecision error.
Proof.
  unfold EqDecision. fix go 1. intros x y.
  assert (forall a b : option error, Decision (a = b)) as Hopt.
  { intros [a|] [b|]; try (right; congruence); [|left; reflexivity].
    destruct (go a b); [left|right]; congruence. }
  destruct x, y; try (right; discriminate); try (left; reflexivity).
  - destruct (decide (msg = msg0)); [left|right]; congruence.
  - destruct (decide (format = format0)); [|right; congruence].
    destruct (decide (hop = hop0)); [|right; congruence].
    destruct (Hopt cause cause0); [left|right]; congruence.
  - destruct (decide (msg = msg0)); [left|right]; congruence.
Defined.

(** A Go call returning [(T, error)]. *)
Definition result (T : Type) : Type := (error + T)%type.

(** [OnionMessagePath]: hops ordered from the first-hop peer to the
    destination. *)
Record OnionMessagePath : Type := { Hops : list Vertex }.

(* ===================================================================== *)
(** ** The graph adapter, [graphdb.NodeTraverser] *)
(* ===================================================================== *)

(** The interface has two methods.  [FetchNodeFeatures] either fails with
    an error of the adapter or yields the feature vector.  The channel
    iteration of a node is described by the channels it presents to the
    callback, in order, and by the error (if any) with which the adapter
    itself ends the iteration once the callback has accepted all of them.
    The adapter is read-only: it is a pair of functions. *)
Record NodeTraverser : Type := {
  FetchNodeFeatures : Vertex -> string + FeatureVector;
  nodeChannels : Vertex -> list DirectedChannel * option string
}.

Section Adapter.
Context {St : Type}.

(** The iteration proper: the callback is applied to each channel in
    turn and the first error it returns ends the iteration. *)
Fixpoint forEachChannel (cb : DirectedChannel -> St -> option error * St)
    (chans : list DirectedChannel) (st : St) : option error * St :=
  match chans with
  | [] => (None, st)
  | c :: rest =>
      match cb c st with
      | (Some err, st') => (Some err, st')
      | (None, st') => forEachChannel cb rest st'
      end
  end.

(** [ForEachNodeDirectedChannel node cb reset]: a callback error
    (including the stop sentinel) is handed back unchanged; the [reset]
    closure of the path finder is empty and left out. *)
Definition ForEachNodeDirectedChannel (graph : NodeTraverser)
    (nodePub : Vertex) (cb : DirectedChannel -> St -> option error * St)
    (st : St) : option error * St :=
  match forEachChannel cb (nodeChannels graph nodePub).1 st with
  | (Some err, st') => (Some err, st')
  | (None, st') =>
      (ExternalError <$> (nodeChannels graph nodePub).2, st')
  end.
End Adapter.

(* ===================================================================== *)
(** ** pathfind.go *)
(* ===================================================================== *)

(** Go's [int], taken at its 64-bit width: the largest value, and the
    wrap-around of an arithmetic result into the range. *)
Definition maxInt : Z := 2 ^ 63 - 1.
Definition wrapInt (z : Z) : Z := (z + 2 ^ 63) mod 2 ^ 64 - 2 ^ 63.

(** The mutable variables the closures of [FindPath] share. *)
Record BFSState : Type := mkBFS {
  parent : gmap Vertex Vertex;
  visited : gmap Vertex bool;
  featureCache : gmap Vertex bool;
  nextQueue : list Vertex
}.

(** [visited[v]]: a missing key reads as [false]. *)
Definition isVisited (st : BFSState) (v : Vertex) : bool :=
  default false (visited st !! v).

(** The closure [supportsOnionMessages], on the feature cache. *)
Definition supportsOnionMessages (graph : NodeTraverser) (node : Vertex)
    (cache : gmap Vertex bool) : bool * gmap Vertex bool :=
  match cache !! node with
  | Some cached => (cached, cache)
  | None =>
      match FetchNodeFeatures graph node with
      | inl _ => (false, <[node := false]> cache)
      | inr features =>
          let supports := HasFeature features OnionMessagesOptional in
          (supports, <[node := supports]> cache)
      end
  end.

(** The callback handed to [ForEachNodeDirectedChannel] for the queue
    entry [current]. *)
Definition visitChannel (graph : NodeTraverser) (destination current : Vertex)
    (channel : DirectedChannel) (st : BFSState) : option error * BFSState :=
  let neighbor := OtherNode channel in
  if isVisited st neighbor then (None, st)
  else
    let '(supports, cache) :=
      supportsOnionMessages graph neighbor (featureCache st) in
    if negb supports then
      (None, mkBFS (parent st) (visited st) cache (nextQueue st))
    else
      let visited' := <[neighbor := true]> (visited st) in
      let parent' := <[neighbor := current]> (parent st) in
      if decide (neighbor = destination) then
        (Some errBFSDone, mkBFS parent' visited' cache (nextQueue st))
      else
        (None, mkBFS parent' visited' cache (nextQueue st ++ [neighbor])).

(** The loop of [reconstructPath] that follows the parent links; a
    missing key reads as the zero vertex.  The loop has no bound of its
    own, so the model counts its iterations down from [fuel] and yields
    [None] when they run out. *)
Fixpoint walkParents (fuel : nat) (parent : gmap Vertex Vertex)
    (source current : Vertex) (path : list Vertex) : option (list Vertex) :=
  if decide (current = source) then Some path
  else
    match fuel with
    | O => None
    | S fuel' =>
        walkParents fuel' parent source
          (default zeroVertex (parent !! current)) (path ++ [current])
    end.

(** [reconstructPath]: the walk from the destination, then the in-place
    reversal. *)
Definition reconstructPath (fuel : nat) (parent : gmap Vertex Vertex)
    (source destination : Vertex) : option OnionMessagePath :=
  path ← walkParents fuel parent source destination [];
  Some {| Hops := reverse path |}.

(** What the inner [for _, current := range queue] loop ends with: the
    sentinel came back (the destination was discovered), another error came
    back, or the queue was exhausted. *)
Inductive LevelOutcome : Type :=
  | LevelDone (st : BFSState)
  | LevelError (err : error)
  | LevelNext (st : BFSState).

Fixpoint expandLevel (graph : NodeTraverser) (destination : Vertex)
    (queue : list Vertex) (st : BFSState) : LevelOutcome :=
  match queue with
  | [] => LevelNext st
  | current :: rest =>
      match ForEachNodeDirectedChannel graph current
              (visitChannel graph destination current) st with
      | (Some err, st') =>
          if decide (err = errBFSDone) then LevelDone st' else LevelError err
      | (None, st') => expandLevel graph destination rest st'
      end
  end.

(** The outer [for len(queue) > 0] loop.  [depth] is a Go [int]; every
    iteration of the loop consumes one unit of [fuel].  The loop is left
    in one of three ways: by [return path, nil] once the sentinel came back,
    which is rendered as the state in which [reconstructPath] is then
    called; by [return nil, err]; or by falling through to
    [return nil, ErrNoPathFound]. *)
Fixpoint bfsLoop (fuel : nat) (graph : NodeTraverser) (destination : Vertex)
    (maxHops : Z) (queue : list Vertex) (depth : Z) (st : BFSState)
    : option (error + BFSState) :=
  match queue with
  | [] => Some (inl ErrNoPathFound)
  | _ :: _ =>
      let depth := wrapInt (depth + 1) in
      if depth >? maxHops then Some (inl ErrNoPathFound)
      else
        match fuel with
        | O => None
        | S fuel' =>
            let st0 := mkBFS (parent st) (visited st) (featureCache st) [] in
            match expandLevel graph destination queue st0 with
            | LevelDone st' => Some (inr st')
            | LevelError err => Some (inl err)
            | LevelNext st' =>
                bfsLoop fuel' graph destination maxHops (nextQueue st')
                  depth st'
            end
        end
  end.

(** The variables of [FindPath] when the loop is entered. *)
Definition initialState (source destination : Vertex) : BFSState :=
  mkBFS ∅ {[ source := true ]} {[ destination := true ]} [].

(** [FindPath].  [None] means that [fuel] did not suffice for the loops. *)
Definition FindPath (fuel : nat) (graph : NodeTraverser)
    (source destination : Vertex) (maxHops : Z)
    : option (result OnionMessagePath) :=
  match FetchNodeFeatures graph destination with
  | inl err => Some (inl (ExternalError err))
  | inr destFeatures =>
      if negb (HasFeature destFeatures OnionMessagesOptional) then
        Some (inl ErrDestinationNoOnionSupport)
      else if decide (source = destination) then
        Some (inr {| Hops := [] |})
      else
        match bfsLoop fuel graph destination maxHops [source] 0
                (initialState source destination) with
        | None => None
        | Some (inl err) => Some (inl err)
        | Some (inr st) =>
            inr <$> reconstructPath fuel (parent st) source destination
        end
  end.

(* ===================================================================== *)
(** ** The mock graph of pathfind_test.go *)
(* ===================================================================== *)

Record mockNodeTraverser : Type := {
  edges : gmap Vertex (list Vertex);
  features : gmap Vertex FeatureVector
}.

Definition newMockNodeTraverser : mockNodeTraverser :=
  {| edges := ∅; features := ∅ |}.

Definition addNode (v : Vertex) (fv : FeatureVector)
    (m : mockNodeTraverser) : mockNodeTraverser :=
  {| edges := edges m; features := <[v := fv]> (features m) |}.

(** [addEdge] appends each endpoint to the neighbour list of the other. *)
Definition addEdge (a b : Vertex) (m : mockNodeTraverser)
    : mockNodeTraverser :=
  let e1 := <[a := default [] (edges m !! a) ++ [b]]> (edges m) in
  let e2 := <[b := default [] (e1 !! b) ++ [a]]> e1 in
  {| edges := e2; features := features m |}.

(** [route.Vertex.String], which [%v] prints: the 33 bytes in lower-case
    hexadecimal. *)
Definition hexDigit (n : N) : Ascii.ascii :=
  Ascii.ascii_of_N (if (n <? 10)%N then 48 + n else 87 + n).

Definition Vertex_String (v : Vertex) : string :=
  foldr (fun b s =>
           String (hexDigit (Byte.to_N b / 16))
             (String (hexDigit (Byte.to_N b mod 16)) s))
    EmptyString (vec_to_list v).

(** The two methods of the mock: it never fails on its own during an
    iteration, and a node without features is reported by
    [fmt.Errorf("node %v not found", nodePub)]. *)
Definition mockTraverser (m : mockNodeTraverser) : NodeTraverser :=
  {| FetchNodeFeatures := fun nodePub =>
       match features m !! nodePub with
       | Some fv => inr fv
       | None => inl ("node " +:+ Vertex_String nodePub +:+ " not found")%string
       end;
     nodeChannels := fun nodePub =>
       (Build_DirectedChannel <$> default [] (edges m !! nodePub), None) |}.

(** [vertexFromByte b]: byte [b] in position 0, zeros elsewhere. *)
Definition vertexFromByte (b : Byte.byte) : Vertex :=
  b ::: vreplicate 32 Byte.x00.

Definition onionFeatures : FeatureVector := {[ OnionMessagesOptional ]}.
Definition emptyFeatures : FeatureVector := ∅.

(* ===================================================================== *)
(** ** Vocabulary for the properties of the path finder *)
(* ===================================================================== *)

(** A node supports onion messages when its features can be fetched and
    contain [OnionMessagesOptional]. *)
Definition supports (graph : NodeTraverser) (v : Vertex) : bool :=
  match FetchNodeFeatures graph v with
  | inl _ => false
  | inr fv => HasFeature fv OnionMessagesOptional
  end.

(** The nodes at the other end of the channels the adapter presents for
    [u]; [v] is a neighbour of [u] when it occurs among them. *)
Definition neighbors (graph : NodeTraverser) (u : Vertex) : list Vertex :=
  OtherNode <$> (nodeChannels graph u).1.

(** [onionWalk graph from hops]: starting at [from], every hop is a
    neighbour of the vertex before it and supports onion messages. *)
Fixpoint onionWalk (graph : NodeTraverser) (from : Vertex)
    (hops : list Vertex) : bool :=
  match hops with
  | [] => true
  | h :: rest =>
      bool_decide (h ∈ neighbors graph from) && supports graph h
      && onionWalk graph h rest
  end.

(** [hops] leads from [source] to [v] through supporting nodes. *)
Definition onionRoute (graph : NodeTraverser) (source v : Vertex)
    (hops : list Vertex) : Prop :=
  onionWalk graph source hops = true ∧ last (source :: hops) = Some v.

(** [v] can be reached from [source] in fewer than [n] hops. *)
Definition near (graph : NodeTraverser) (source : Vertex) (n : nat)
    (v : Vertex) : Prop :=
  ∃ hops, (length hops < n)%nat ∧ onionRoute graph source v hops.

(** The adapter never ends a channel iteration with an error of its own. *)
Definition iterationsSucceed (graph : NodeTraverser) : Prop :=
  ∀ u, (nodeChannels graph u).2 = None.

(** Following the parent links from [v] arrives at [source]; [hops] lists,
    in forward order, the vertices after [source] up to [v].  Every link
    followed is present in the map. *)
Inductive parentChain (parent : gmap Vertex Vertex) (source : Vertex)
    : Vertex -> list Vertex -> Prop :=
  | chain_source : parentChain parent source source []
  | chain_link v u hops :
      v ≠ source ->
      parent !! v = Some u ->
      parentChain parent source u hops ->
      parentChain parent source v (hops ++ [v]).

(** What holds of the shared variables whenever the callback is about to
    run while the queue of level [lev] is expanded. *)
Record bfsInv (graph : NodeTraverser) (source destination : Vertex)
    (queue : list Vertex) (lev : nat) (st : BFSState) : Prop := {
  inv_visited : ∀ v,
    isVisited st v = true ↔ v = source ∨ is_Some (parent st !! v);
  inv_source : parent st !! source = None;
  inv_cache : ∀ v b, featureCache st !! v = Some b -> supports graph v = b;
  inv_parent : ∀ v u, parent st !! v = Some u ->
    supports graph v = true ∧ v ∈ neighbors graph u ∧
    ∃ hops, parentChain (parent st) source v hops ∧ (length hops ≤ S lev)%nat;
  inv_queue : ∀ u, u ∈ queue ->
    ∃ hops, parentChain (parent st) source u hops ∧ length hops = lev;
  inv_next : ∀ v, v ∈ nextQueue st ->
    ∃ hops, parentChain (parent st) source v hops ∧ length hops = S lev;
  inv_near : ∀ v, near graph source (S lev) v -> isVisited st v = true;
  inv_level : ∀ v, near graph source (S lev) v ->
    near graph source lev v ∨ v ∈ queue;
  inv_found : ∀ v, isVisited st v = true ->
    near graph source (S lev) v ∨ v ∈ nextQueue st ∨ v = destination
}.

(** The condition under which the depth counter agrees with the number of
    levels expanded so far. *)
Definition depthAgrees (maxHops depth : Z) (lev : nat) : Prop :=
  maxHops < maxInt ∧ depth = Z.of_nat lev ∧ depth ≤ Z.max 0 maxHops.


(** The error kind "invalid hop key" of the onion builder: one of the two
    errors it returns when a hop, or the hop after it, does not parse as a
    public key. *)
Definition InvalidHopKey (err : error) : Prop :=
  ∃ i cause,
    err = Errorf "invalid pubkey at hop %d: %w" (Some i) (Some cause) ∨
    err = Errorf "invalid next pubkey at hop %d: %w" (Some i) (Some cause).

(** The error returned when the route data of a hop cannot be encoded. *)
Definition EncodeFailure (err : error) : Prop :=
  ∃ i cause, err = Errorf "encode route data hop %d: %w" (Some i) (Some cause).

(* ===================================================================== *)
(** ** send.go *)
(* ===================================================================== *)

(** [lnwire.FinalHopTLV]: a typed record for the last hop. *)
Record FinalHopTLV : Type := { TLVType : N; Value : list Byte.byte }.

Section Send.

(** The key types of btcec, the path and packet types of the sphinx
    library and the handles of the actor runtime are left abstract. *)
Context {PublicKey PrivateKey : Type}.
Context {BlindedPath PaymentPath OnionPacket : Type}.
Context {ActorReceptionist ActorRef : Type}.

(** [sphinx.HopInfo] and [sphinx.BlindedPathInfo] (the fields read here). *)
Record HopInfo : Type := { NodePub : PublicKey; PlainText : list Byte.byte }.
Record BlindedPathInfo : Type := { Path : BlindedPath; SessionKey : PrivateKey }.

(** Modelled from the spec: [record.BlindedRouteData] (package record is
    not part of the sources at hand) carries an optional next node id, an
    optional channel id and optional padding; the final hop gets the empty
    record and a non-final hop a record with only the next node set. *)
Record BlindedRouteData : Type := {
  Padding : option (list Byte.byte);
  ShortChannelID : option N;
  NextNodeID : option PublicKey
}.

Definition emptyBlindedRouteData : BlindedRouteData :=
  {| Padding := None; ShortChannelID := None; NextNodeID := None |}.

(** Modelled from the spec: [record.NewNonFinalBlindedRouteDataOnionMessage]
    applied to [fn.NewLeft(nextPub)]; its two further arguments are [nil] at
    the only call and are left out. *)
Definition NewNonFinalBlindedRouteDataOnionMessage
    (nextNode : PublicKey + N) : BlindedRouteData :=
  match nextNode with
  | inl nextPub =>
      {| Padding := None; ShortChannelID := None; NextNodeID := Some nextPub |}
  | inr scid =>
      {| Padding := None; ShortChannelID := Some scid; NextNodeID := None |}
  end.

(** The collaborators of send.go, as an interface: key parsing and
    derivation of btcec, the route-data encoder of package record, the
    blinded-path and packet primitives of the sphinx library with the
    packet's [Encode], the path conversion of package route, and
    [findPeerActor], the package's lookup of a peer's actor in the
    receptionist, whose file is not at hand.  Each is a function of its
    arguments; the fixed arguments of [sphinx.NewOnionPacket] at its only
    call (no associated data, the deterministic filler, the maximal payload
    size) are part of the primitive. *)
Class Primitives : Type := {
  ParsePubKey : list Byte.byte -> string + PublicKey;
  PubKey : PrivateKey -> PublicKey;
  EncodeBlindedRouteData : BlindedRouteData -> string + list Byte.byte;
  BuildBlindedPath : PrivateKey -> list HopInfo -> string + BlindedPathInfo;
  OnionMessageBlindedPathToSphinxPath :
    BlindedPath -> option BlindedPath -> list FinalHopTLV ->
    string + PaymentPath;
  NewOnionPacket : PaymentPath -> PrivateKey -> string + OnionPacket;
  EncodeOnionPacket : OnionPacket -> string + list Byte.byte;
  findPeerActor : ActorReceptionist -> Vertex -> option ActorRef
}.

Context {primitives : Primitives}.

(** [lnwire.OnionMessage] as built by [lnwire.NewOnionMessage], and the
    actor request that carries it. *)
Record OnionMessage : Type := { PathKey : PublicKey; OnionBlob : list Byte.byte }.
Record Request : Type := { msg : OnionMessage }.

Definition NewOnionMessage (pathKey : PublicKey) (onionBlob : list Byte.byte)
    : OnionMessage :=
  {| PathKey := pathKey; OnionBlob := onionBlob |}.

(** The source of randomness behind [btcec.NewPrivateKey]: the outcome of
    every draw, and the number of draws made so far. *)
Record Entropy : Type := {
  draws : nat -> string + PrivateKey;
  drawn : nat
}.

Definition NewPrivateKey (e : Entropy) : (string + PrivateKey) * Entropy :=
  (draws e (drawn e), {| draws := draws e; drawn := S (drawn e) |}).

(** What a send can change: the randomness consumed and the requests
    handed to peer actors with [Tell], oldest first.  [Tell] returns
    nothing; the context it is given plays no part here. *)
Record World : Type := {
  entropy : Entropy;
  told : list (ActorRef * Request)
}.

Definition Tell (actorRef : ActorRef) (req : Request) (w : World) : World :=
  {| entropy := entropy w; told := told w ++ [(actorRef, req)] |}.

Record SendConfig : Type := {
  Graph : NodeTraverser;
  OurPubKey : Vertex;
  Receptionist : ActorReceptionist;
  MaxHops : Z
}.

(** One iteration of the loop over the hops in [buildOnionMessageForPath]. *)
Definition hopInfoAt (hops : list Vertex) (i : nat) (hop : Vertex)
    : result HopInfo :=
  match ParsePubKey (vec_to_list hop) with
  | inl err =>
      inl (Errorf "invalid pubkey at hop %d: %w" (Some i)
             (Some (ExternalError err)))
  | inr pubKey =>
      let routeData : result BlindedRouteData :=
        if decide (Z.of_nat i = Z.of_nat (length hops) - 1) then
          inr emptyBlindedRouteData
        else
          match hops !! S i with
          | None => inl (runtimePanic "index out of range")
          | Some next =>
              match ParsePubKey (vec_to_list next) with
              | inl err =>
                  inl (Errorf "invalid next pubkey at hop %d: %w" (Some i)
                         (Some (ExternalError err)))
              | inr nextPub =>
                  inr (NewNonFinalBlindedRouteDataOnionMessage (inl nextPub))
              end
          end in
      match routeData with
      | inl err => inl err
      | inr routeData =>
          match EncodeBlindedRouteData routeData with
          | inl err =>
              inl (Errorf "encode route data hop %d: %w" (Some i)
                     (Some (ExternalError err)))
          | inr encoded => inr {| NodePub := pubKey; PlainText := encoded |}
          end
      end
  end.

(** The loop [for i, hop := range hops], from index [i] on. *)
Fixpoint buildHopInfos (hops : list Vertex) (i : nat) (rest : list Vertex)
    : result (list HopInfo) :=
  match rest with
  | [] => inr []
  | hop :: rest' =>
      match hopInfoAt hops i hop with
      | inl err => inl err
      | inr info =>
          match buildHopInfos hops (S i) rest' with
          | inl err => inl err
          | inr infos => inr (info :: infos)
          end
      end
  end.

(** [buildOnionMessageForPath]. *)
Definition buildOnionMessageForPath (path : OnionMessagePath)
    (replyPath : option BlindedPath) (finalHopTLVs : list FinalHopTLV)
    (e : Entropy) : result (list Byte.byte * PublicKey) * Entropy :=
  let hops := Hops path in
  match buildHopInfos hops 0 hops with
  | inl err => (inl err, e)
  | inr hopInfos =>
      match NewPrivateKey e with
      | (inl err, e1) =>
          (inl (Errorf "generate session key: %w" None
                  (Some (ExternalError err))), e1)
      | (inr sessionKey, e1) =>
          match BuildBlindedPath sessionKey hopInfos with
          | inl err =>
              (inl (Errorf "build blinded path: %w" None
                      (Some (ExternalError err))), e1)
          | inr blindedPath =>
              match OnionMessageBlindedPathToSphinxPath (Path blindedPath)
                      replyPath finalHopTLVs with
              | inl err =>
                  (inl (Errorf "convert to sphinx path: %w" None
                          (Some (ExternalError err))), e1)
              | inr sphinxPath =>
                  match NewPrivateKey e1 with
                  | (inl err, e2) =>
                      (inl (Errorf "generate onion key: %w" None
                              (Some (ExternalError err))), e2)
                  | (inr onionSessionKey, e2) =>
                      match NewOnionPacket sphinxPath onionSessionKey with
                      | inl err =>
                          (inl (Errorf "create onion packet: %w" None
                                  (Some (ExternalError err))), e2)
                      | inr onionPkt =>
                          match EncodeOnionPacket onionPkt with
                          | inl err =>
                              (inl (Errorf "encode onion packet: %w" None
                                      (Some (ExternalError err))), e2)
                          | inr buf =>
                              (inr (buf, PubKey (SessionKey blindedPath)), e2)
                          end
                      end
                  end
              end
          end
      end
  end.

(** [sendToFirstHop]: the 33 bytes of the first hop are copied into the
    lookup key; [Tell] returns nothing. *)
Definition sendToFirstHop (receptionist : ActorReceptionist)
    (firstHop : Vertex) (blindingKey : PublicKey)
    (onionBlob : list Byte.byte) (w : World) : option error * World :=
  let pubKeyBytes : Vertex := firstHop in
  match findPeerActor receptionist pubKeyBytes with
  | None => (Some ErrPeerActorNotFound, w)
  | Some actorRef =>
      let onionMsg := NewOnionMessage blindingKey onionBlob in
      (None, Tell actorRef {| msg := onionMsg |} w)
  end.

(** [SendToDestination]; [None] when the path search ran out of [fuel]. *)
Definition SendToDestination (fuel : nat) (cfg : SendConfig)
    (destination : Vertex) (finalHopTLVs : list FinalHopTLV)
    (replyPath : option BlindedPath) (w : World)
    : option (option error * World) :=
  match FindPath fuel (Graph cfg) (OurPubKey cfg) destination (MaxHops cfg) with
  | None => None
  | Some (inl err) => Some (Some err, w)
  | Some (inr path) =>
      if decide (length (Hops path) = 0%nat) then
        Some (Some (Errorf "path to self is not supported" None None), w)
      else
        match buildOnionMessageForPath path replyPath finalHopTLVs
                (entropy w) with
        | (inl err, e') =>
            Some (Some (Errorf "failed to build onion message: %w" None
                          (Some err)),
                  {| entropy := e'; told := told w |})
        | (inr (onionMsg, blindingKey), e') =>
            match Hops path !! 0%nat with
            | None =>
                Some (Some (runtimePanic "index out of range"),
                      {| entropy := e'; told := told w |})
            | Some firstHop =>
                Some (sendToFirstHop (Receptionist cfg) firstHop blindingKey
                        onionMsg {| entropy := e'; told := told w |})
            end
        end
  end.

(** [SendDirectToDestination]. *)
Definition SendDirectToDestination (cfg : SendConfig)
    (path : OnionMessagePath) (finalHopTLVs : list FinalHopTLV)
    (replyPath : option BlindedPath) (w : World) : option error * World :=
  if decide (length (Hops path) = 0%nat) then
    (Some (Errorf "path must have at least one hop" None None), w)
  else
    match buildOnionMessageForPath path replyPath finalHopTLVs
            (entropy w) with
    | (inl err, e') =>
        (Some (Errorf "failed to build onion message: %w" None (Some err)),
         {| entropy := e'; told := told w |})
    | (inr (onionMsg, blindingKey), e') =>
        match Hops path !! 0%nat with
        | None =>
            (Some (runtimePanic "index out of range"),
             {| entropy := e'; told := told w |})
        | Some firstHop =>
            sendToFirstHop (Receptionist cfg) firstHop blindingKey
              onionMsg {| entropy := e'; told := told w |}
        end
    end.

End Send.

Arguments HopInfo : clear implicits.
Arguments BlindedPathInfo : clear implicits.
Arguments BlindedRouteData : clear implicits.
Arguments OnionMessage : clear implicits.
Arguments Request : clear implicits.
Arguments Entropy : clear implicits.
Arguments World : clear implicits.
Arguments SendConfig : clear implicits.
Arguments Primitives : clear implicits.

(* ===================================================================== *)
(** ** Concrete graphs and stand-ins for the collaborators *)
(* ===================================================================== *)

(** The nodes of the tests: "node X" has byte X in position 0. *)
Definition node1 : Vertex := vertexFromByte Byte.x01.
Definition node2 : Vertex := vertexFromByte Byte.x02.
Definition node3 : Vertex := vertexFromByte Byte.x03.
Definition node4 : Vertex := vertexFromByte Byte.x04.
Definition node5 : Vertex := vertexFromByte Byte.x05.

(** A single node that supports onion messages
    (TestFindPathSameSourceAndDest). *)
Definition graphSelf : mockNodeTraverser :=
  addNode node1 onionFeatures newMockNodeTraverser.

(** Edge 1-2 (TestFindPathDirectNeighbor). *)
Definition graphDirect : mockNodeTraverser :=
  addEdge node1 node2
    (addNode node2 onionFeatures
       (addNode node1 onionFeatures newMockNodeTraverser)).

(** The chain 1-2-3-4 (TestFindPathMultiHop, TestFindPathMaxHopsExceeded). *)
Definition graphChain : mockNodeTraverser :=
  addEdge node3 node4
    (addEdge node2 node3
       (addEdge node1 node2
          (addNode node4 onionFeatures
             (addNode node3 onionFeatures
                (addNode node2 onionFeatures
                   (addNode node1 onionFeatures newMockNodeTraverser)))))).

(** Edges 1-2, 2-4, 1-3, 3-4 where node 2 lacks the feature
    (TestFindPathFeatureFiltering). *)
Definition graphFiltered : mockNodeTraverser :=
  addEdge node3 node4
    (addEdge node1 node3
       (addEdge node2 node4
          (addEdge node1 node2
             (addNode node4 onionFeatures
                (addNode node3 onionFeatures
                   (addNode node2 emptyFeatures
                      (addNode node1 onionFeatures
                         newMockNodeTraverser))))))).

(** Edges 1-2, 2-3, 3-4, 4-5 and 1-5 (TestFindPathShortestPath). *)
Definition graphShortcut : mockNodeTraverser :=
  addEdge node1 node5
    (addEdge node4 node5
       (addEdge node3 node4
          (addEdge node2 node3
             (addEdge node1 node2
                (addNode node5 onionFeatures
                   (addNode node4 onionFeatures
                      (addNode node3 onionFeatures
                         (addNode node2 onionFeatures
                            (addNode node1 onionFeatures
                               newMockNodeTraverser))))))))).

(** The cycle 2-3-4-2 behind node 1, with node 5 hanging off node 3
    (TestFindPathWithCycles). *)
Definition graphCycle : mockNodeTraverser :=
  addEdge node3 node5
    (addEdge node4 node2
       (addEdge node3 node4
          (addEdge node2 node3
             (addEdge node1 node2
                (addNode node5 onionFeatures
                   (addNode node4 onionFeatures
                      (addNode node3 onionFeatures
                         (addNode node2 onionFeatures
                            (addNode node1 onionFeatures
                               newMockNodeTraverser))))))))).

(** Edge 1-2 where node 2 lacks the feature
    (TestFindPathDestinationNoOnionSupport). *)
Definition graphNoSupport : mockNodeTraverser :=
  addEdge node1 node2
    (addNode node2 emptyFeatures
       (addNode node1 onionFeatures newMockNodeTraverser)).

(** Node 2 is absent (TestFindPathDestinationNotInGraph). *)
Definition graphMissing : mockNodeTraverser :=
  addNode node1 onionFeatures newMockNodeTraverser.

(** An adapter that knows every node as supporting but cannot iterate
    channels: every iteration ends with its own error. *)
Definition brokenTraverser : NodeTraverser :=
  {| FetchNodeFeatures := fun _ => inr onionFeatures;
     nodeChannels := fun _ => ([], Some "graph unavailable"%string) |}.

(** The state in which the search on the chain 1-2-3-4 hands over to path
    reconstruction. *)
Definition chainFound : BFSState :=
  match bfsLoop 20 (mockTraverser graphChain) node4 20 [node1] 0
          (initialState node1 node4) with
  | Some (inr st) => st
  | _ => initialState node1 node4
  end.

(** Stand-ins for the collaborators of send.go.  They serve to apply the
    statements about the builder and the dispatcher to concrete inputs and
    have nothing of the cryptography: a key parses when its first byte is
    02 or 03, a public key is a tagged byte, a record encodes as the TLV of
    its next node id, and the path and packet primitives concatenate what
    they are given. *)
Definition toyParsePubKey (bs : list Byte.byte)
    : string + list Byte.byte :=
  match bs with
  | [] => inl "malformed public key: invalid length"%string
  | b :: _ =>
      if bool_decide (b = Byte.x02 ∨ b = Byte.x03) then inr bs
      else inl "malformed public key: invalid format"%string
  end.

Definition toyPubKey (sk : N) : list Byte.byte :=
  [Byte.x02; default Byte.x00 (Byte.of_N (sk mod 256))].

Definition toyEncodeBlindedRouteData
    (rd : BlindedRouteData (list Byte.byte)) : string + list Byte.byte :=
  inr (match NextNodeID rd with
       | Some pk => Byte.x04 :: Byte.x21 :: pk
       | None => []
       end).

Definition toyBuildBlindedPath (sk : N)
    (hops : list (HopInfo (list Byte.byte)))
    : string + BlindedPathInfo N (list (list Byte.byte)) :=
  inr {| Path := PlainText <$> hops; SessionKey := sk |}.

Definition toySphinxPath (path : list (list Byte.byte))
    (replyPath : option (list (list Byte.byte)))
    (finalHopTLVs : list FinalHopTLV) : string + list Byte.byte :=
  inr (concat path ++ concat (default [] replyPath)
       ++ concat (Value <$> finalHopTLVs)).

Definition toyPrimitives
    : Primitives (list Byte.byte) N (list (list Byte.byte)) (list Byte.byte)
        (list Byte.byte) (gmap Vertex nat) nat :=
  {| ParsePubKey := toyParsePubKey;
     PubKey := toyPubKey;
     EncodeBlindedRouteData := toyEncodeBlindedRouteData;
     BuildBlindedPath := toyBuildBlindedPath;
     OnionMessageBlindedPathToSphinxPath := toySphinxPath;
     NewOnionPacket := fun sphinxPath sk => inr (toyPubKey sk ++ sphinxPath);
     EncodeOnionPacket := fun pkt => inr pkt;
     findPeerActor := fun receptionist v => receptionist !! v |}.

(** Three hops whose first byte is 02, and a path through them. *)
Definition keyA : Vertex := Byte.x02 ::: Byte.x0a ::: vreplicate 31 Byte.x00.
Definition keyB : Vertex := Byte.x02 ::: Byte.x0b ::: vreplicate 31 Byte.x00.
Definition keyC : Vertex := Byte.x02 ::: Byte.x0c ::: vreplicate 31 Byte.x00.
Definition pathABC : OnionMessagePath := {| Hops := [keyA; keyB; keyC] |}.

(** A path whose second hop is node 1, which does not parse as a key. *)
Definition pathBad : OnionMessagePath := {| Hops := [keyA; node1; keyC] |}.

(** A source of randomness whose [n]-th draw is the scalar [n + 7], and
    one that differs from it from the third draw on. *)
Definition toyEntropy : Entropy N :=
  {| draws := fun n => inr (N.of_nat n + 7)%N; drawn := 0 |}.
Definition toyEntropy' : Entropy N :=
  {| draws := fun n => if decide (n < 2)%nat then inr (N.of_nat n + 7)%N
                       else inl "entropy exhausted"%string;
     drawn := 0 |}.

Definition toyWorld : World (list Byte.byte) N nat :=
  {| entropy := toyEntropy; told := [] |}.

(** Our node is node 1; only [keyA] has a peer actor, number 5. *)
Definition toyConfig : SendConfig (gmap Vertex nat) :=
  {| Graph := mockTraverser graphSelf;
     OurPubKey := node1;
     Receptionist := {[ keyA := 5%nat ]};
     MaxHops := 20 |}.

(* ===================================================================== *)
(** ** Further vocabulary: parent walks on arbitrary maps, undirected graphs *)
(* ===================================================================== *)

(** [parent[v]] as Go reads it: the zero vertex for a missing key. *)
Definition parentOf (parent : gmap Vertex Vertex) (v : Vertex) : Vertex :=
  default zeroVertex (parent !! v).

(** The walk that [reconstructPath] makes on any parent map: from [v] it
    follows [parentOf] until it stands on [source]; [hops] lists the
    vertices left behind, the one nearest to [source] first. *)
Inductive walkBack (parent : gmap Vertex Vertex) (source : Vertex)
    : Vertex -> list Vertex -> Prop :=
  | walkBack_source : walkBack parent source source []
  | walkBack_link v hops :
      v ≠ source ->
      walkBack parent source (parentOf parent v) hops ->
      walkBack parent source v (hops ++ [v]).

(** Every channel is presented from both of its ends. *)
Definition undirected (graph : NodeTraverser) : Prop :=
  ∀ u v, v ∈ neighbors graph u <-> u ∈ neighbors graph v.

(** The vertices a level adds to the next queue: pairwise distinct, not
    visited before, visited afterwards, and each a neighbour of an entry of
    the queue being expanded. *)
Definition freshlyQueued (graph : NodeTraverser) (destination : Vertex)
    (queue : list Vertex) (st st' : BFSState) (new : list Vertex) : Prop :=
  nextQueue st' = nextQueue st ++ new ∧
  NoDup new ∧
  (∀ v, isVisited st v = true -> isVisited st' v = true) ∧
  ∀ v, v ∈ new ->
    isVisited st v = false ∧ isVisited st' v = true ∧ v ≠ destination ∧
    ∃ u, u ∈ queue ∧ v ∈ neighbors graph u.

(** * The command line: [sendonion] and [subscribeonion]

    The two commands of package [commands].  The command-line context is
    the values of its flags; the Go library functions that parse text and
    the RPC client are collaborators; what a command does is its returned
    error together with the RPC calls it has made and the responses it has
    printed, in order.  Opening and closing the client connection is left
    out. *)
Module Commands.
Import Stdlib.Strings.Ascii.

(** Errors of the commands: an error of a library or of the RPC server,
    known by its message, or one made by [fmt.Errorf] from a format, the
    string given for its [%q] verb and the error wrapped by its [%w]
    verb. *)
Inductive error :=
  | ExternalError (msg : string)
  | Errorf (format : string) (quoted : option string) (cause : option error).

(** [lnrpc.SendOnionMessageRequest].  A nil byte slice is the empty list, a
    nil map is [None]. *)
Record SendOnionMessageRequest := {
  Peer : list Byte.byte;
  PathKey : list Byte.byte;
  Onion : list Byte.byte;
  Destination : list Byte.byte;
  FinalHopTlvs : option (gmap N (list Byte.byte))
}.

(** [cli.Context], as far as the commands read it: [ctx.String(name)] and
    [ctx.StringSlice(name)].  A string flag that is not set reads as the
    empty string. *)
Record Context := {
  StringFlag : string -> string;
  StringSliceFlag : string -> list string
}.

(** [strings.Cut] for a one-byte separator: the text before and after the
    first occurrence of the separator, if there is one. *)
Fixpoint Cut (s : string) (sep : ascii) : option (string * string) :=
  match s with
  | EmptyString => None
  | String c rest =>
      if decide (c = sep) then Some (EmptyString, rest)
      else match Cut rest sep with
           | Some (before, after) => Some (String c before, after)
           | None => None
           end
  end.

(** [strings.SplitN(s, sep, 2)] for a one-byte separator: the text split
    at the first occurrence of the separator, or the text alone when the
    separator does not occur in it. *)
Definition SplitN (s : string) (sep : ascii) : list string :=
  match Cut s sep with
  | Some (before, after) => [before; after]
  | None => [s]
  end.

Section Commands.
Context {Response Message : Type}.

(** The library functions the commands rely on: [hex.DecodeString] and
    [strconv.ParseUint(s, 10, 64)], each returning a value or the message
    of its error. *)
Class Library := {
  DecodeString : string -> string + list Byte.byte;
  ParseUint : string -> string + N
}.

(** [lnrpc.LightningClient], as far as the commands call it.  A stream of
    onion messages is the outcome of each successive [Recv]. *)
Record Client := {
  SendOnionMessage : SendOnionMessageRequest -> string + Response;
  SubscribeOnionMessages : string + (nat -> string + Message)
}.

(** What [sendonion] does, in order. *)
Inductive event :=
  | Called (req : SendOnionMessageRequest)
  | Printed (resp : Response).

Context {library : Library}.

(** One iteration of the loop over the [--tlv] flags of [sendOnion]. *)
Definition tlvEntry (entry : string) (tlvs : gmap N (list Byte.byte))
    : error + gmap N (list Byte.byte) :=
  match SplitN entry "="%char with
  | [part0; part1] =>
      match ParseUint part0 with
      | inl err =>
          inl (Errorf "invalid tlv type %q: %w" (Some part0)
                 (Some (ExternalError err)))
      | inr tlvType =>
          match DecodeString part1 with
          | inl err =>
              inl (Errorf "invalid tlv hex value %q: %w" (Some part1)
                     (Some (ExternalError err)))
          | inr val => inr (<[tlvType := val]> tlvs)
          end
      end
  | _ =>
      inl (Errorf "invalid tlv format %q, expected type=hex_value"
             (Some entry) None)
  end.

(** The loop over the [--tlv] flags of [sendOnion]. *)
Fixpoint tlvLoop (entries : list string) (tlvs : gmap N (list Byte.byte))
    : error + gmap N (list Byte.byte) :=
  match entries with
  | [] => inr tlvs
  | entry :: rest =>
      match tlvEntry entry tlvs with
      | inl err => inl err
      | inr tlvs' => tlvLoop rest tlvs'
      end
  end.

(** The [switch] of [sendOnion]: the request built from the flags, or the
    error the command returns without calling the server. *)
Definition sendOnionRequest (ctx : Context)
    : error + SendOnionMessageRequest :=
  let destination := StringFlag ctx "destination" in
  let peerStr := StringFlag ctx "peer" in
  if decide (destination ≠ "" ∧ peerStr ≠ "") then
    inl (Errorf "cannot set both --destination and --peer" None None)
  else if decide (destination ≠ "") then
    match DecodeString destination with
    | inl err =>
        inl (Errorf "invalid destination hex: %w" None
               (Some (ExternalError err)))
    | inr dest =>
        let tlvs := StringSliceFlag ctx "tlv" in
        if decide (0 < length tlvs)%nat then
          match tlvLoop tlvs ∅ with
          | inl err => inl err
          | inr finalHopTlvs =>
              inr {| Peer := []; PathKey := []; Onion := [];
                     Destination := dest;
                     FinalHopTlvs := Some finalHopTlvs |}
          end
        else
          inr {| Peer := []; PathKey := []; Onion := [];
                 Destination := dest; FinalHopTlvs := None |}
    end
  else if decide (peerStr ≠ "") then
    match DecodeString peerStr with
    | inl err =>
        inl (Errorf "invalid peer hex: %w" None (Some (ExternalError err)))
    | inr peer =>
        match DecodeString (StringFlag ctx "pathkey") with
        | inl err =>
            inl (Errorf "invalid pathkey hex: %w" None
                   (Some (ExternalError err)))
        | inr pathKey =>
            match DecodeString (StringFlag ctx "onion") with
            | inl err =>
                inl (Errorf "invalid onion hex: %w" None
                       (Some (ExternalError err)))
            | inr onion =>
                inr {| Peer := peer; PathKey := pathKey; Onion := onion;
                       Destination := []; FinalHopTlvs := None |}
            end
        end
    end
  else
    inl (Errorf "must set either --destination or --peer" None None).

(** [sendOnion]: the returned error and what the command has done. *)
Definition sendOnion (ctx : Context) (client : Client)
    : option error * list event :=
  match sendOnionRequest ctx with
  | inl err => (Some err, [])
  | inr req =>
      match SendOnionMessage client req with
      | inl err => (Some (ExternalError err), [Called req])
      | inr resp => (None, [Called req; Printed resp])
      end
  end.

(** The receive loop of [subscribeOnion], from the [n]-th [Recv] on, with
    the messages printed so far.  The loop has no exit of its own: [None]
    is a loop still running when the fuel is spent. *)
Fixpoint recvLoop (fuel : nat) (recv : nat -> string + Message) (n : nat)
    (printed : list Message) : option (error * list Message) :=
  match fuel with
  | O => None
  | S fuel' =>
      match recv n with
      | inl err => Some (ExternalError err, printed)
      | inr msg => recvLoop fuel' recv (S n) (printed ++ [msg])
      end
  end.

(** [subscribeOnion]: the returned error and the messages printed. *)
Definition subscribeOnion (fuel : nat) (client : Client)
    : option (error * list Message) :=
  match SubscribeOnionMessages client with
  | inl err => Some (ExternalError err, [])
  | inr recv => recvLoop fuel recv 0 []
  end.

End Commands.

Arguments Client : clear implicits.
Arguments event : clear implicits.

(** A library for the examples: digits of one figure as numbers, texts of
    letters from [a] to [f] as one zero byte each pair, and an error for
    anything else. *)
Definition toyParseUint (s : string) : string + N :=
  match s with
  | String c EmptyString =>
      if decide (48 ≤ N_of_ascii c ∧ N_of_ascii c ≤ 57)%N
      then inr (N_of_ascii c - 48)%N
      else inl "invalid syntax"
  | _ => inl "invalid syntax"
  end.

Fixpoint toyDecodeString (s : string) : string + list Byte.byte :=
  match s with
  | EmptyString => inr []
  | String c (String d rest) =>
      if decide ((97 ≤ N_of_ascii c ∧ N_of_ascii c ≤ 102)%N
                 ∧ (97 ≤ N_of_ascii d ∧ N_of_ascii d ≤ 102)%N)
      then match toyDecodeString rest with
           | inl err => inl err
           | inr bytes => inr (Byte.x00 :: bytes)
           end
      else inl "invalid byte"
  | String _ EmptyString => inl "odd length hex string"
  end.

#[global] Instance toyLibrary : Library := {|
  DecodeString := toyDecodeString;
  ParseUint := toyParseUint
|}.

(** A server that answers each request with the number of bytes of its
    destination, and a stream of three messages that then fails. *)
Definition toyClient : Client nat nat := {|
  SendOnionMessage req := inr (length (Destination req));
  SubscribeOnionMessages :=
    inr (λ n, if decide (n < 3)%nat then inr (10 * n)%nat else inl "EOF")
|}.

(** Flags of a pathfinding send with two TLV records of the same type. *)
Definition ctxDestination : Context := {|
  StringFlag name := if decide (name = "destination") then "abcd" else "";
  StringSliceFlag name :=
    if decide (name = "tlv") then ["7=ab"; "7=abcd"] else []
|}.

(** The same send with a second [--tlv] flag that has no equals sign. *)
Definition ctxBadTlv : Context := {|
  StringFlag := StringFlag ctxDestination;
  StringSliceFlag name := if decide (name = "tlv") then ["7=ab"; "junk"] else []
|}.

(** Flags of a legacy send. *)
Definition ctxLegacy : Context := {|
  StringFlag name :=
    if decide (name = "peer") then "ab"
    else if decide (name = "pathkey") then "cd"
    else if decide (name = "onion") then "efef"
    else "";
  StringSliceFlag name := if decide (name = "tlv") then ["junk"] else []
|}.

(** The legacy send without its [--tlv] flag. *)
Definition ctxLegacyPlain : Context := {|
  StringFlag := StringFlag ctxLegacy;
  StringSliceFlag _ := []
|}.

End Commands.

(** An adapter that no longer knows the features of one node and is
    otherwise unchanged. *)
Definition forgetNode (graph : NodeTraverser) (node : Vertex)
    : NodeTraverser :=
  {| FetchNodeFeatures := fun v =>
       if decide (v = node) then inl "node not found"%string
       else FetchNodeFeatures graph v;
     nodeChannels := nodeChannels graph |}.

(** A source of randomness that gives one scalar and then fails. *)
Definition toyEntropyOnce : Entropy N :=
  {| draws := fun n => if decide (n < 1)%nat then inr 7%N
                       else inl "entropy exhausted"%string;
     drawn := 0 |}.

(** Our node is node 1 on the chain 1-2-3-4; nodes 2 and 3, whose first
    bytes make them parse as keys, have the peer actors 9 and 8. *)
Definition toyConfigChain : SendConfig (gmap Vertex nat) :=
  {| Graph := mockTraverser graphChain;
     OurPubKey := node1;
     Receptionist := {[ node2 := 9%nat; node3 := 8%nat ]};
     MaxHops := 20 |}.

(** The search stands at the head of its outer loop, with [queue], [depth]
    and the variables [st], after [n] completed levels: at first with the
    source alone in the queue, and then, whenever the cap allows another
    level and the level exhausts its queue without an error, with the next
    queue. *)
Inductive arrives (graph : NodeTraverser) (source destination : Vertex)
    (maxHops : Z) : nat -> list Vertex -> Z -> BFSState -> Prop :=
  | arrives_start :
      arrives graph source destination maxHops 0 [source] 0
        (initialState source destination)
  | arrives_next n queue depth st st' :
      arrives graph source destination maxHops n queue depth st ->
      queue ≠ [] ->
      (wrapInt (depth + 1) >? maxHops) = false ->
      expandLevel graph destination queue
        (mkBFS (parent st) (visited st) (featureCache st) []) = LevelNext st' ->
      arrives graph source destination maxHops (S n) (nextQueue st')
        (wrapInt (depth + 1)) st'.

(** An adapter whose iteration over the channels of one node presents no
    channel and ends with an error of its own; everything else is as in
    the adapter given. *)
Definition failingAt (graph : NodeTraverser) (node : Vertex) (msg : string)
    : NodeTraverser :=
  {| FetchNodeFeatures := FetchNodeFeatures graph;
     nodeChannels := fun v =>
       if decide (v = node) then ([], Some msg) else nodeChannels graph v |}.

(** The graph with edges 1-2, 2-3, 3-4, 4-5 and 1-5 where the iteration at
    node 5 fails.  Node 5 is the second entry of the second queue of a
    search from node 1. *)
Definition flakyTraverser : NodeTraverser :=
  failingAt (mockTraverser graphShortcut) node5 "graph unavailable".

(** The variables of a search from node 1 to node 4 on that adapter after
    the first level, and after the first entry of the second level. *)
Definition flakyLevelOne : BFSState :=
  match expandLevel flakyTraverser node4 [node1] (initialState node1 node4)
  with
  | LevelNext st => st
  | _ => initialState node1 node4
  end.

Definition flakyLevelTwo : BFSState :=
  match expandLevel flakyTraverser node4 [node2]
          (mkBFS (parent flakyLevelOne) (visited flakyLevelOne)
             (featureCache flakyLevelOne) [])
  with
  | LevelNext st => st
  | _ => initialState node1 node4
  end.

(* ===================================================================== *)
(** ** The path finder: parent chains, walks and the search invariant *)
(* ===================================================================== *)

Section Chains.
Context (parent : gmap Vertex Vertex) (source : Vertex).

Lemma parentChain_det v l1 l2 :
  parentChain parent source v l1 -> parentChain parent source v l2 -> l1 = l2.
Proof.
  intros H1. revert l2. induction H1 as [|v u hops Hne Hp Hc IH]; intros l2 H2.
  - inversion H2 as [|? ? ? Hne' ? ? ]; [done|]. by destruct Hne'.
  - inversion H2 as [Heq|? u' hops' Hne' Hp' Hc']; subst.
    + by destruct Hne.
    + rewrite Hp in Hp'. injection Hp' as <-. by rewrite (IH _ Hc').
Qed.

Lemma parentChain_last v hops :
  parentChain parent source v hops -> last (source :: hops) = Some v.
Proof.
  destruct 1 as [|v u hops Hne Hp Hc]; [done|].
  change (source :: hops ++ [v]) with ((source :: hops) ++ [v]).
  apply last_snoc.
Qed.

(** Every vertex on a chain has a chain of its own that is no longer. *)
Lemma parentChain_prefix v hops :
  parentChain parent source v hops ->
  ∀ x, x ∈ hops ->
    x ≠ source ∧ is_Some (parent !! x) ∧
    ∃ l, parentChain parent source x l ∧ (length l ≤ length hops)%nat ∧
         (x ≠ v -> (length l < length hops)%nat).
Proof.
  induction 1 as [|v u hops Hne Hp Hc IH]; intros x Hx.
  - by apply elem_of_nil in Hx.
  - apply elem_of_app in Hx as [Hx|Hx].
    + destruct (IH x Hx) as (? & ? & l & Hl & Hlen & _).
      split; [done|]. split; [done|]. exists l. split; [done|].
      rewrite length_app; simpl. split; intros; lia.
    + apply list_elem_of_singleton in Hx as ->.
      split; [done|]. split; [by eexists|]. exists (hops ++ [v]).
      split; [by econstructor|]. split; [done|]. done.
Qed.

Lemma parentChain_NoDup v hops :
  parentChain parent source v hops -> NoDup hops ∧ source ∉ hops.
Proof.
  induction 1 as [|v u hops Hne Hp Hc [IHn IHs]].
  - split; [constructor|]. apply not_elem_of_nil.
  - split.
    + apply NoDup_app. split; [done|]. split; [|apply NoDup_singleton].
      intros x Hx Hxv. apply list_elem_of_singleton in Hxv as ->.
      destruct (parentChain_prefix _ _ Hc v Hx) as (_ & _ & l & Hl & Hlen & _).
      assert (l = hops ++ [v]) as ->.
      { eapply parentChain_det; [done|]. by econstructor. }
      rewrite length_app in Hlen; simpl in Hlen. lia.
    + intros [Hx|Hx]%elem_of_app; [done|].
      apply list_elem_of_singleton in Hx. done.
Qed.

(** Adding a link for a vertex that had none keeps every chain. *)
Lemma parentChain_insert w u v hops :
  parent !! w = None ->
  parentChain parent source v hops ->
  parentChain (<[w := u]> parent) source v hops.
Proof.
  intros Hw. induction 1 as [|v u' hops Hne Hp Hc IH]; [constructor|].
  econstructor; [done| |done].
  rewrite lookup_insert_ne; [done|]. intros ->. congruence.
Qed.

(** The loop of [reconstructPath] runs along the chain. *)
Lemma walkParents_chain v hops :
  parentChain parent source v hops ->
  ∀ fuel acc,
    (∀ r, walkParents fuel parent source v acc = Some r ->
          r = acc ++ reverse hops) ∧
    ((length hops ≤ fuel)%nat ->
     walkParents fuel parent source v acc = Some (acc ++ reverse hops)).
Proof.
  induction 1 as [|v u hops Hne Hp Hc IH]; intros fuel acc.
  - assert (walkParents fuel parent source source acc = Some acc) as ->.
    { destruct fuel; simpl; by rewrite decide_True. }
    rewrite app_nil_r. split; [congruence|done].
  - replace (acc ++ reverse (hops ++ [v])) with ((acc ++ [v]) ++ reverse hops)
      by (rewrite reverse_app, <- (assoc_L (++)); done).
    destruct fuel as [|fuel]; simpl; rewrite decide_False by done.
    + split; [done|]. rewrite length_app; simpl. lia.
    + rewrite Hp; simpl. destruct (IH fuel (acc ++ [v])) as [IH1 IH2].
      split; [done|]. rewrite length_app; simpl. intros. apply IH2. lia.
Qed.

Lemma reconstructPath_chain v hops fuel :
  parentChain parent source v hops ->
  (∀ p, reconstructPath fuel parent source v = Some p -> Hops p = hops) ∧
  ((length hops ≤ fuel)%nat ->
   reconstructPath fuel parent source v = Some {| Hops := hops |}).
Proof.
  intros Hc. destruct (walkParents_chain _ _ Hc fuel []) as [H1 H2].
  unfold reconstructPath. split.
  - intros p Hp. destruct (walkParents _ _ _ _ _) as [r|] eqn:Hr; [|done].
    simpl in Hp. injection Hp as <-. rewrite (H1 r eq_refl); simpl.
    by rewrite reverse_involutive.
  - intros Hlen. rewrite (H2 Hlen); simpl. by rewrite reverse_involutive.
Qed.
End Chains.

Section Walks.
Context (graph : NodeTraverser) (source : Vertex).

Lemma onionWalk_snoc from hops u v :
  last (from :: hops) = Some u ->
  onionWalk graph from (hops ++ [v]) =
  onionWalk graph from hops
  && (bool_decide (v ∈ neighbors graph u) && supports graph v).
Proof.
  revert from. induction hops as [|h hops IH]; intros from Hlast; simpl in *.
  - simplify_eq. by rewrite andb_true_r.
  - rewrite (IH h); [|by destruct hops]. by rewrite !andb_assoc.
Qed.

Lemma onionRoute_nil v : onionRoute graph source v [] <-> v = source.
Proof. unfold onionRoute; simpl. naive_solver. Qed.

Lemma onionRoute_snoc u v hops :
  onionRoute graph source u hops ->
  v ∈ neighbors graph u -> supports graph v = true ->
  onionRoute graph source v (hops ++ [v]).
Proof.
  intros [Hw Hl] He Hs. split.
  - rewrite (onionWalk_snoc _ _ u) by done.
    rewrite Hw, Hs, bool_decide_true by done. done.
  - change (source :: hops ++ [v]) with ((source :: hops) ++ [v]).
    apply last_snoc.
Qed.

Lemma onionRoute_snoc_inv v hops w :
  onionRoute graph source v (hops ++ [w]) ->
  w = v ∧ ∃ u, onionRoute graph source u hops ∧
               v ∈ neighbors graph u ∧ supports graph v = true.
Proof.
  intros [Hw Hl].
  change (source :: hops ++ [w]) with ((source :: hops) ++ [w]) in Hl.
  rewrite last_snoc in Hl. injection Hl as ->. split; [done|].
  destruct (last (source :: hops)) as [u|] eqn:Hu.
  - exists u. rewrite (onionWalk_snoc _ _ u) in Hw by done.
    apply andb_true_iff in Hw as [Hw1 Hw2].
    apply andb_true_iff in Hw2 as [He Hs].
    apply bool_decide_eq_true in He. done.
  - exfalso. clear -Hu. revert Hu. generalize source.
    induction hops as [|h hops IH]; intros s; [done|]. apply (IH h).
Qed.

Lemma near_mono n m v :
  (n ≤ m)%nat -> near graph source n v -> near graph source m v.
Proof. intros Hnm (hops & Hlen & Hr). exists hops. split; [lia|done]. Qed.

Lemma near_source n : near graph source (S n) source.
Proof. exists []. split; [simpl; lia|]. by apply onionRoute_nil. Qed.

Lemma near_step n u v :
  near graph source n u ->
  v ∈ neighbors graph u -> supports graph v = true ->
  near graph source (S n) v.
Proof.
  intros (hops & Hlen & Hr) He Hs. exists (hops ++ [v]). split.
  - rewrite length_app; simpl. lia.
  - by eapply onionRoute_snoc.
Qed.

Lemma near_inv n v :
  near graph source (S n) v ->
  v = source ∨
  ∃ u, near graph source n u ∧ v ∈ neighbors graph u ∧ supports graph v = true.
Proof.
  intros (hops & Hlen & Hr).
  destruct hops as [|h hops _] using rev_ind.
  - left. by apply onionRoute_nil.
  - right. apply onionRoute_snoc_inv in Hr as (_ & u & Hu & He & Hs).
    exists u. split; [|done]. exists hops. split; [|done].
    rewrite length_app in Hlen; simpl in Hlen. lia.
Qed.

(** Once a level adds nothing, no later level does. *)
Lemma near_closed n :
  (∀ v, near graph source (S n) v -> near graph source n v) ->
  ∀ m v, near graph source m v -> near graph source n v.
Proof.
  intros Hcl m. induction m as [|m IH]; intros v Hv.
  - destruct Hv as (hops & Hlen & _). lia.
  - apply near_inv in Hv as [->|(u & Hu & He & Hs)].
    + apply Hcl, near_source.
    + apply Hcl. eapply near_step; [|done..]. by apply IH.
Qed.

Lemma parentChain_route parent v hops :
  (∀ x u, parent !! x = Some u ->
          supports graph x = true ∧ x ∈ neighbors graph u) ->
  parentChain parent source v hops -> onionRoute graph source v hops.
Proof.
  intros Hp. induction 1 as [|v u hops Hne Hv Hc IH].
  - by apply onionRoute_nil.
  - destruct (Hp _ _ Hv) as [Hs He]. by eapply onionRoute_snoc.
Qed.
End Walks.

Section Search.
Context (graph : NodeTraverser) (source destination : Vertex).

Lemma supportsOnionMessages_spec node cache :
  (∀ v b, cache !! v = Some b -> supports graph v = b) ->
  (supportsOnionMessages graph node cache).1 = supports graph node ∧
  ∀ v b, (supportsOnionMessages graph node cache).2 !! v = Some b ->
         supports graph v = b.
Proof.
  intros Hc. unfold supportsOnionMessages.
  destruct (cache !! node) as [cached|] eqn:Hn; simpl.
  - split; [|done]. symmetry. by apply Hc.
  - unfold supports.
    destruct (FetchNodeFeatures graph node) as [err|fv] eqn:Hf; simpl.
    + split; [done|]. intros v b.
      destruct (decide (node = v)) as [->|Hne].
      * rewrite lookup_insert_eq. intros [= <-]. unfold supports.
        by rewrite Hf.
      * rewrite lookup_insert_ne by done. apply Hc.
    + split; [done|]. intros v b.
      destruct (decide (node = v)) as [->|Hne].
      * rewrite lookup_insert_eq. intros [= <-]. unfold supports.
        by rewrite Hf.
      * rewrite lookup_insert_ne by done. apply Hc.
Qed.

Lemma isVisited_insert st v w p c q :
  isVisited (mkBFS p (<[w := true]> (visited st)) c q) v = true <->
  v = w ∨ isVisited st v = true.
Proof.
  unfold isVisited; simpl. destruct (decide (w = v)) as [->|Hne].
  - rewrite lookup_insert_eq; simpl. naive_solver.
  - rewrite lookup_insert_ne by done. naive_solver.
Qed.

(** The callback keeps the invariant of the level being expanded. *)
Lemma visitChannel_inv queue lev current channel st :
  bfsInv graph source destination queue lev st ->
  current ∈ queue ->
  OtherNode channel ∈ neighbors graph current ->
  bfsInv graph source destination queue lev
    (visitChannel graph destination current channel st).2.
Proof.
  intros Hinv Hcur Hedge. unfold visitChannel.
  set (n := OtherNode channel) in *.
  destruct (isVisited st n) eqn:Hvis; [done|].
  destruct (supportsOnionMessages_spec n (featureCache st) (inv_cache _ _ _ _ _ _ Hinv))
    as [Hsup Hcache].
  destruct (supportsOnionMessages graph n (featureCache st)) as [sup cache].
  simpl in Hsup, Hcache. subst sup.
  destruct (supports graph n) eqn:Hn; simpl.
  2:{ destruct Hinv. by constructor. }
  assert (n ≠ source ∧ parent st !! n = None) as [Hns Hnp].
  { destruct (decide (n = source)) as [->|Hne].
    - assert (isVisited st source = true) by (apply (inv_visited _ _ _ _ _ _ Hinv); by left).
      congruence.
    - split; [done|]. destruct (parent st !! n) eqn:Hp; [|done].
      assert (isVisited st n = true)
        by (apply (inv_visited _ _ _ _ _ _ Hinv); right; by eexists).
      congruence. }
  destruct (inv_queue _ _ _ _ _ _ Hinv _ Hcur) as (hc & Hhc & Hlen).
  assert (parentChain (<[n := current]> (parent st)) source n (hc ++ [n])) as Hchain.
  { econstructor; [done|apply lookup_insert_eq|by apply parentChain_insert]. }
  assert (∀ q, bfsInv graph source destination queue lev
            (mkBFS (<[n := current]> (parent st)) (<[n := true]> (visited st))
               cache q) <->
          ((∀ v, v ∈ q -> ∃ hops,
               parentChain (<[n := current]> (parent st)) source v hops ∧
               length hops = S lev) ∧
           (∀ v, isVisited st v = true ∨ v = n ->
               near graph source (S lev) v ∨ v ∈ q ∨ v = destination))) as Hq.
  { intros q. split.
    - intros Hi. split; [apply (inv_next _ _ _ _ _ _ Hi)|].
      intros v Hv. apply (inv_found _ _ _ _ _ _ Hi).
      apply isVisited_insert. naive_solver.
    - intros [Hq1 Hq2]. constructor; simpl.
      + intros v. rewrite isVisited_insert.
        rewrite (inv_visited _ _ _ _ _ _ Hinv).
        destruct (decide (n = v)) as [->|Hne].
        * rewrite lookup_insert_eq. naive_solver.
        * rewrite lookup_insert_ne by done. naive_solver.
      + rewrite lookup_insert_ne by done. apply Hinv.
      + done.
      + intros v u. destruct (decide (n = v)) as [->|Hne].
        * rewrite lookup_insert_eq. intros [= <-]. split; [done|].
          split; [done|]. exists (hc ++ [v]). split; [done|].
          rewrite length_app; simpl. lia.
        * rewrite lookup_insert_ne by done. intros Hv.
          destruct (inv_parent _ _ _ _ _ _ Hinv _ _ Hv) as (? & ? & l & Hl & ?).
          split; [done|]. split; [done|]. exists l. split; [|done].
          by apply parentChain_insert.
      + intros u Hu. destruct (inv_queue _ _ _ _ _ _ Hinv _ Hu) as (l & Hl & ?).
        exists l. split; [|done]. by apply parentChain_insert.
      + done.
      + intros v Hv. apply isVisited_insert. right.
        by apply (inv_near _ _ _ _ _ _ Hinv).
      + apply Hinv.
      + intros v Hv. apply Hq2. apply isVisited_insert in Hv. naive_solver. }
  destruct (decide (n = destination)) as [Hd|Hd]; simpl; apply Hq.
  - split.
    + intros v Hv. destruct (inv_next _ _ _ _ _ _ Hinv _ Hv) as (l & Hl & ?).
      exists l. split; [|done]. by apply parentChain_insert.
    + intros v [Hv| ->]; [|by right; right].
      destruct (inv_found _ _ _ _ _ _ Hinv _ Hv); naive_solver.
  - split.
    + intros v [Hv|Hv]%elem_of_app.
      * destruct (inv_next _ _ _ _ _ _ Hinv _ Hv) as (l & Hl & ?).
        exists l. split; [|done]. by apply parentChain_insert.
      * apply list_elem_of_singleton in Hv as ->. exists (hc ++ [n]).
        split; [done|]. rewrite length_app; simpl. lia.
    + intros v [Hv| ->].
      * destruct (inv_found _ _ _ _ _ _ Hinv _ Hv) as [?|[?|?]]; [by left| |by right; right].
        right; left. apply elem_of_app. by left.
      * right; left. apply elem_of_app. right. by apply list_elem_of_singleton.
Qed.

(** What one run of the callback does to the visited set, and what its
    return value tells. *)
Lemma visitChannel_result queue lev current channel st :
  bfsInv graph source destination queue lev st ->
  let r := visitChannel graph destination current channel st in
  (∀ v, isVisited st v = true -> isVisited r.2 v = true) ∧
  (supports graph (OtherNode channel) = true ->
   isVisited r.2 (OtherNode channel) = true) ∧
  match r.1 with
  | None => isVisited st destination = false ->
            isVisited r.2 destination = false
  | Some err => err = errBFSDone ∧ OtherNode channel = destination ∧
                parent r.2 !! destination = Some current
  end.
Proof.
  intros Hinv. unfold visitChannel.
  set (n := OtherNode channel) in *.
  destruct (isVisited st n) eqn:Hvis; simpl; [done|].
  destruct (supportsOnionMessages_spec n (featureCache st)
              (inv_cache _ _ _ _ _ _ Hinv)) as [Hsup _].
  destruct (supportsOnionMessages graph n (featureCache st)) as [sup cache].
  simpl in Hsup. subst sup.
  destruct (supports graph n) eqn:Hn; simpl; [|done].
  destruct (decide (n = destination)) as [Hd|Hd]; simpl.
  - split; [|split].
    + intros v Hv. apply isVisited_insert. by right.
    + intros _. apply isVisited_insert. by left.
    + subst. by rewrite lookup_insert_eq.
  - split; [|split].
    + intros v Hv. apply isVisited_insert. by right.
    + intros _. apply isVisited_insert. by left.
    + intros Hdv. apply not_true_is_false. intros Hc.
      apply isVisited_insert in Hc as [?|?]; congruence.
Qed.

(** The iteration over the channels of one queue entry. *)
Lemma forEachChannel_inv queue lev current chans st :
  bfsInv graph source destination queue lev st ->
  current ∈ queue ->
  (∀ c, c ∈ chans -> OtherNode c ∈ neighbors graph current) ->
  let r := forEachChannel (visitChannel graph destination current) chans st in
  bfsInv graph source destination queue lev r.2 ∧
  (∀ v, isVisited st v = true -> isVisited r.2 v = true) ∧
  match r.1 with
  | None =>
      (isVisited st destination = false ->
       isVisited r.2 destination = false) ∧
      ∀ c, c ∈ chans -> supports graph (OtherNode c) = true ->
           isVisited r.2 (OtherNode c) = true
  | Some err => err = errBFSDone ∧ parent r.2 !! destination = Some current
  end.
Proof.
  revert st. induction chans as [|c chans IH]; intros st Hinv Hcur Hch; simpl.
  - split; [done|]. split; [done|]. split; [done|].
    intros c Hc. by apply elem_of_nil in Hc.
  - pose proof (visitChannel_inv queue lev current c st Hinv Hcur
                  (Hch c (list_elem_of_here _ _))) as Hinv'.
    pose proof (visitChannel_result queue lev current c st Hinv) as Hres.
    simpl in Hres.
    destruct (visitChannel graph destination current c st) as [[err|] st'];
      simpl in *.
    + destruct Hres as (Hmono & _ & -> & _ & Hp). done.
    + destruct Hres as (Hmono & Hc & Hd).
      destruct (IH st' Hinv' Hcur) as (Hi & Hmono' & Hr).
      { intros c' Hc'. apply Hch. by apply list_elem_of_further. }
      split; [done|]. split; [naive_solver|].
      destruct (forEachChannel _ chans st').1 as [err|]; [done|].
      destruct Hr as [Hd' Hall]. split; [naive_solver|].
      intros c' [->|Hc']%elem_of_cons Hs; [|by apply Hall].
      apply Hmono'. by apply Hc.
Qed.

Lemma ForEachNodeDirectedChannel_inv queue lev current st :
  bfsInv graph source destination queue lev st ->
  current ∈ queue ->
  let r := ForEachNodeDirectedChannel graph current
             (visitChannel graph destination current) st in
  bfsInv graph source destination queue lev r.2 ∧
  (∀ v, isVisited st v = true -> isVisited r.2 v = true) ∧
  match r.1 with
  | None =>
      (isVisited st destination = false ->
       isVisited r.2 destination = false) ∧
      ∀ w, w ∈ neighbors graph current -> supports graph w = true ->
           isVisited r.2 w = true
  | Some err =>
      (err = errBFSDone ∧ parent r.2 !! destination = Some current) ∨
      (∃ m, err = ExternalError m ∧ (nodeChannels graph current).2 = Some m)
  end.
Proof.
  intros Hinv Hcur. unfold ForEachNodeDirectedChannel.
  pose proof (forEachChannel_inv queue lev current
                (nodeChannels graph current).1 st Hinv Hcur) as H.
  simpl in H. destruct H as (Hi & Hmono & Hr).
  { intros c Hc. unfold neighbors. by apply list_elem_of_fmap_2. }
  destruct (forEachChannel _ _ st) as [[err|] st']; simpl in *.
  - split; [done|]. split; [done|]. by left.
  - split; [done|]. split; [done|].
    destruct (nodeChannels graph current).2 as [m|] eqn:Hm; simpl.
    + right. by exists m.
    + destruct Hr as [Hd Hall]. split; [done|]. intros w Hw Hs.
      unfold neighbors in Hw. apply list_elem_of_fmap in Hw as (c & -> & Hc).
      by apply Hall.
Qed.

(** The loop over the queue of one level. *)
Lemma expandLevel_inv queue lev todo st :
  bfsInv graph source destination queue lev st ->
  (∀ u, u ∈ todo -> u ∈ queue) ->
  match expandLevel graph destination todo st with
  | LevelNext st' =>
      bfsInv graph source destination queue lev st' ∧
      (∀ v, isVisited st v = true -> isVisited st' v = true) ∧
      (isVisited st destination = false ->
       isVisited st' destination = false) ∧
      ∀ u w, u ∈ todo -> w ∈ neighbors graph u -> supports graph w = true ->
             isVisited st' w = true
  | LevelDone st' =>
      bfsInv graph source destination queue lev st' ∧
      ∃ current, current ∈ todo ∧ parent st' !! destination = Some current
  | LevelError err =>
      ∃ m u, err = ExternalError m ∧ u ∈ todo ∧
             (nodeChannels graph u).2 = Some m
  end.
Proof.
  revert st. induction todo as [|current todo IH]; intros st Hinv Hsub; simpl.
  - split; [done|]. split; [done|]. split; [done|].
    intros u w Hu. by apply elem_of_nil in Hu.
  - assert (current ∈ queue) as Hcur by apply Hsub, list_elem_of_here.
    pose proof (ForEachNodeDirectedChannel_inv queue lev current st Hinv Hcur)
      as H. simpl in H. destruct H as (Hi & Hmono & Hr).
    destruct (ForEachNodeDirectedChannel graph current _ st)
      as [[err|] st']; simpl in *.
    + destruct Hr as [[-> Hp]|(m & -> & Hm)].
      * rewrite decide_True by done. split; [done|]. exists current.
        split; [apply list_elem_of_here|done].
      * rewrite decide_False by done. exists m, current.
        split; [done|]. split; [apply list_elem_of_here|done].
    + destruct Hr as [Hd Hall].
      specialize (IH st' Hi).
      destruct (expandLevel graph destination todo st') as [st''|err|st''].
      * destruct IH as (Hi' & cur & Hc & Hp).
        { intros u Hu. by apply Hsub, list_elem_of_further. }
        split; [done|]. exists cur. split; [|done].
        by apply list_elem_of_further.
      * destruct IH as (m & u & -> & Hu & Hm).
        { intros u Hu. by apply Hsub, list_elem_of_further. }
        exists m, u. split; [done|]. split; [|done].
        by apply list_elem_of_further.
      * destruct IH as (Hi' & Hmono' & Hd' & Hall').
        { intros u Hu. by apply Hsub, list_elem_of_further. }
        split; [done|]. split; [naive_solver|]. split; [naive_solver|].
        intros u w [->|Hu]%elem_of_cons Hw Hs.
        -- apply Hmono'. by apply Hall.
        -- by eapply Hall'.
Qed.

Lemma bfsInv_route queue lev st v hops :
  bfsInv graph source destination queue lev st ->
  parentChain (parent st) source v hops ->
  onionRoute graph source v hops.
Proof.
  intros Hinv. apply parentChain_route. intros x u Hx.
  destruct (inv_parent _ _ _ _ _ _ Hinv _ _ Hx) as (? & ? & _). done.
Qed.

(** From a fully expanded level to the next one. *)
Lemma bfsInv_next queue lev st :
  bfsInv graph source destination queue lev st ->
  isVisited st destination = false ->
  (∀ u w, u ∈ queue -> w ∈ neighbors graph u -> supports graph w = true ->
          isVisited st w = true) ->
  bfsInv graph source destination (nextQueue st) (S lev)
    (mkBFS (parent st) (visited st) (featureCache st) []).
Proof.
  intros Hinv Hd Hall.
  assert (∀ v, near graph source (S (S lev)) v -> isVisited st v = true)
    as Hnear.
  { intros v [->|(u & Hu & He & Hs)]%near_inv.
    - apply (inv_visited _ _ _ _ _ _ Hinv). by left.
    - destruct (inv_level _ _ _ _ _ _ Hinv _ Hu) as [Hu'|Hu'].
      + apply (inv_near _ _ _ _ _ _ Hinv). by eapply near_step.
      + by eapply Hall. }
  constructor; simpl.
  - apply Hinv.
  - apply Hinv.
  - apply Hinv.
  - intros v u Hv.
    destruct (inv_parent _ _ _ _ _ _ Hinv _ _ Hv) as (? & ? & l & ? & ?).
    split; [done|]. split; [done|]. exists l. split; [done|lia].
  - apply Hinv.
  - intros v Hv. by apply elem_of_nil in Hv.
  - done.
  - intros v Hv.
    destruct (inv_found _ _ _ _ _ _ Hinv v (Hnear v Hv)) as [?|[?| ->]];
      [by left|by right|].
    rewrite (Hnear _ Hv) in Hd. done.
  - intros v Hv. change (isVisited st v = true) in Hv.
    destruct (inv_found _ _ _ _ _ _ Hinv v Hv) as [?|[Hq| ->]].
    + left. eapply near_mono; [|done]. lia.
    + left. destruct (inv_next _ _ _ _ _ _ Hinv _ Hq) as (l & Hl & Hlen).
      exists l. split; [lia|]. by eapply bfsInv_route.
    + by right; right.
Qed.

(** The state in which the loop is entered. *)
Lemma bfsInv_initial :
  supports graph destination = true -> source ≠ destination ->
  bfsInv graph source destination [source] 0
    (initialState source destination) ∧
  isVisited (initialState source destination) destination = false.
Proof.
  intros Hs Hne.
  assert (∀ v, isVisited (initialState source destination) v = true <->
               v = source) as Hvis.
  { intros v. unfold isVisited; simpl. destruct (decide (source = v)) as [->|].
    - by rewrite lookup_singleton_eq.
    - rewrite lookup_singleton_ne by done. naive_solver. }
  split.
  - constructor; simpl.
    + intros v. rewrite Hvis, lookup_empty. split; [by left|].
      intros [?|[? ?]]; done.
    + apply lookup_empty.
    + intros v b [-> <-]%lookup_singleton_Some. done.
    + intros v u. by rewrite lookup_empty.
    + intros u ->%list_elem_of_singleton. exists []. split; [constructor|done].
    + intros v Hv. by apply elem_of_nil in Hv.
    + intros v [->|(u & Hu & _)]%near_inv; [by apply Hvis|].
      destruct Hu as (? & ? & _). lia.
    + intros v [->|(u & Hu & _)]%near_inv.
      * right. by apply list_elem_of_singleton.
      * destruct Hu as (? & ? & _). lia.
    + intros v ->%Hvis. left. apply near_source.
  - apply not_true_is_false. intros ->%Hvis. done.
Qed.

Lemma wrapInt_succ depth :
  0 ≤ depth < maxInt -> wrapInt (depth + 1) = depth + 1.
Proof.
  unfold wrapInt, maxInt. intros H.
  rewrite Z.mod_small; lia.
Qed.

(** What the loop establishes, by its three exits. *)
Lemma bfsLoop_inv maxHops fuel : ∀ queue depth lev st,
  bfsInv graph source destination queue lev
    (mkBFS (parent st) (visited st) (featureCache st) []) ->
  isVisited st destination = false ->
  match bfsLoop fuel graph destination maxHops queue depth st with
  | None => True
  | Some (inr st') =>
      ∃ queue' lev',
        bfsInv graph source destination queue' lev' st' ∧
        (∃ current, current ∈ queue' ∧
                    parent st' !! destination = Some current) ∧
        ¬ near graph source (S lev') destination ∧
        (lev' < lev + fuel)%nat ∧
        (depthAgrees maxHops depth lev -> Z.of_nat (S lev') ≤ maxHops)
  | Some (inl err) =>
      (err = ErrNoPathFound ∧
       (depthAgrees maxHops depth lev ->
        ∀ hops, onionRoute graph source destination hops ->
                maxHops < Z.of_nat (length hops))) ∨
      (∃ m u, err = ExternalError m ∧ (nodeChannels graph u).2 = Some m)
  end.
Proof.
  induction fuel as [|fuel IH]; intros queue depth lev st Hinv Hd.
  all: set (st0 := mkBFS (parent st) (visited st) (featureCache st) []) in *.
  all: assert (¬ near graph source (S lev) destination) as Hfar
         by (intros Hn; apply (inv_near _ _ _ _ _ _ Hinv) in Hn;
             change (isVisited st destination = true) in Hn; congruence).
  all: assert (queue = [] ->
         ∀ hops, ¬ onionRoute graph source destination hops) as Hempty
         by (intros -> hops Hr; apply Hfar;
             apply (near_mono _ _ lev); [lia|];
             apply (near_closed _ _ lev) with (m := S (length hops));
             [|exists hops; split; [lia|done]];
             intros v Hv;
             destruct (inv_level _ _ _ _ _ _ Hinv _ Hv) as [?|Hv'];
             [done|by apply elem_of_nil in Hv']).
  all: assert (depthAgrees maxHops depth lev ->
               wrapInt (depth + 1) = Z.of_nat (S lev)) as Hwrap
         by (intros (Hm & -> & Hle); rewrite wrapInt_succ; unfold maxInt in *; lia).
  all: assert (depthAgrees maxHops depth lev ->
               (wrapInt (depth + 1) >? maxHops) = true ->
               ∀ hops, onionRoute graph source destination hops ->
                       maxHops < Z.of_nat (length hops)) as Hcap
         by (intros Hag Hgt hops Hr; rewrite (Hwrap Hag) in Hgt;
             apply Z.gtb_lt in Hgt;
             destruct (decide (maxHops < Z.of_nat (length hops))); [done|];
             exfalso; apply Hfar; exists hops; split; [lia|done]).
  - destruct queue as [|q queue]; simpl.
    + left. split; [done|]. intros _ hops Hr. by destruct (Hempty eq_refl hops).
    + destruct (wrapInt (depth + 1) >? maxHops) eqn:Hgt; [|done].
      left. split; [done|]. intros Hag. by apply Hcap.
  - destruct queue as [|q queue]; cbn [bfsLoop].
    + left. split; [done|]. intros _ hops Hr. by destruct (Hempty eq_refl hops).
    + destruct (wrapInt (depth + 1) >? maxHops) eqn:Hgt.
      { left. split; [done|]. intros Hag. by apply Hcap. }
      fold st0.
      pose proof (expandLevel_inv (q :: queue) lev (q :: queue) st0 Hinv
                    (fun u Hu => Hu)) as Hlev.
      destruct (expandLevel graph destination (q :: queue) st0)
        as [st'|err|st']; cbn beta iota in Hlev.
      * destruct Hlev as (Hi & cur & Hcur & Hp).
        exists (q :: queue), lev. split; [done|]. split; [by exists cur|].
        split; [done|]. split; [lia|]. intros Hag. rewrite <- (Hwrap Hag).
        rewrite Z.gtb_ltb in Hgt. apply Z.ltb_ge in Hgt. lia.
      * right. destruct Hlev as (m & u & -> & _ & Hm). by exists m, u.
      * destruct Hlev as (Hi & _ & Hd' & Hall).
        specialize (Hd' Hd).
        pose proof (bfsInv_next _ _ _ Hi Hd' Hall) as Hnext.
        specialize (IH (nextQueue st') (wrapInt (depth + 1)) (S lev) st'
                      Hnext Hd').
        assert (depthAgrees maxHops depth lev ->
                depthAgrees maxHops (wrapInt (depth + 1)) (S lev)) as Hag'.
        { intros Hag. pose proof (Hwrap Hag) as Hw. destruct Hag as (? & ? & ?).
          split; [done|]. split; [done|]. rewrite Z.gtb_ltb in Hgt. apply Z.ltb_ge in Hgt. lia. }
        destruct (bfsLoop fuel graph destination maxHops (nextQueue st')
                    (wrapInt (depth + 1)) st') as [[err|st'']|]; [| |done].
        -- destruct IH as [[-> Hno]|?]; [left|by right].
           split; [done|]. intros Hag. by apply Hno, Hag'.
        -- destruct IH as (queue' & lev' & ? & ? & ? & ? & Hle).
           exists queue', lev'. split; [done|]. split; [done|].
           split; [done|]. split; [lia|]. intros Hag. by apply Hle, Hag'.
Qed.

(** The loop needs at most one unit of fuel per permitted hop. *)
Lemma bfsLoop_total maxHops fuel : ∀ queue depth st,
  maxHops < maxInt ->
  0 ≤ depth ≤ Z.max 0 maxHops ->
  Z.max 0 maxHops - depth ≤ Z.of_nat fuel ->
  is_Some (bfsLoop fuel graph destination maxHops queue depth st).
Proof.
  induction fuel as [|fuel IH]; intros queue depth st Hm Hd Hf.
  all: destruct queue as [|q queue]; cbn [bfsLoop]; [by eexists|].
  all: rewrite wrapInt_succ by (unfold maxInt in *; lia).
  all: destruct (depth + 1 >? maxHops) eqn:Hgt; [by eexists|].
  all: rewrite Z.gtb_ltb in Hgt; apply Z.ltb_ge in Hgt.
  - lia.
  - destruct (expandLevel graph destination (q :: queue) _)
      as [st'|err|st']; [by eexists..|].
    apply IH; lia.
Qed.
End Search.

Section FindPathFacts.
Context (graph : NodeTraverser) (source destination : Vertex).

Lemma onionWalk_supports from hops :
  onionWalk graph from hops = true ->
  Forall (λ v, supports graph v = true) hops.
Proof.
  revert from. induction hops as [|h hops IH]; intros from Hw; [constructor|].
  simpl in Hw. apply andb_true_iff in Hw as [Hw1 Hw].
  apply andb_true_iff in Hw1 as [_ Hs]. constructor; [done|by eapply IH].
Qed.

Lemma onionWalk_adjacent from hops i u v :
  onionWalk graph from hops = true ->
  (from :: hops) !! i = Some u -> (from :: hops) !! S i = Some v ->
  v ∈ neighbors graph u.
Proof.
  revert from i. induction hops as [|h hops IH]; intros from i Hw Hu Hv.
  - destruct i; done.
  - simpl in Hw. apply andb_true_iff in Hw as [Hw1 Hw].
    apply andb_true_iff in Hw1 as [He _]. apply bool_decide_eq_true in He.
    destruct i as [|i]; simpl in *.
    + by simplify_eq.
    + by eapply IH.
Qed.

(** The search proper, for a destination that supports onion messages and
    differs from the source. *)
Lemma bfsLoop_spec fuel maxHops :
  supports graph destination = true -> source ≠ destination ->
  match bfsLoop fuel graph destination maxHops [source] 0
          (initialState source destination) with
  | None => True
  | Some (inr st) =>
      (∀ v u, parent st !! v = Some u ->
              ∃ l, parentChain (parent st) source u l ∧
                   parentChain (parent st) source v (l ++ [v])) ∧
      ∃ hops,
        parentChain (parent st) source destination hops ∧
        onionRoute graph source destination hops ∧
        (∀ hops', onionRoute graph source destination hops' ->
                  (length hops ≤ length hops')%nat) ∧
        (length hops ≤ fuel)%nat ∧
        (maxHops < maxInt -> Z.of_nat (length hops) ≤ maxHops)
  | Some (inl err) =>
      (err = ErrNoPathFound ∧
       (maxHops < maxInt ->
        ∀ hops, onionRoute graph source destination hops ->
                maxHops < Z.of_nat (length hops))) ∨
      (∃ m u, err = ExternalError m ∧ (nodeChannels graph u).2 = Some m)
  end.
Proof.
  intros Hs Hne.
  destruct (bfsInv_initial graph source destination Hs Hne) as [Hinv Hd].
  pose proof (bfsLoop_inv graph source destination maxHops fuel [source] 0 0%nat
                (initialState source destination) Hinv Hd) as H.
  assert (maxHops < maxInt -> depthAgrees maxHops 0 0) as Hag.
  { intros Hm. split; [done|]. split; [done|]. lia. }
  destruct (bfsLoop _ _ _ _ _ _ _) as [[err|st]|]; [| |done].
  - destruct H as [[-> Hno]|?]; [left|by right]. split; [done|].
    intros Hm. by apply Hno, Hag.
  - destruct H as (queue & lev & Hi & (cur & Hcur & Hp) & Hfar & Hfuel & Hle).
    split.
    { intros v u Hv.
      destruct (inv_parent _ _ _ _ _ _ Hi _ _ Hv) as (_ & _ & l & Hl & _).
      inversion Hl as [Heq|v' u' l' Hvs Hv' Hl']; subst.
      - rewrite (inv_source _ _ _ _ _ _ Hi) in Hv. done.
      - rewrite Hv in Hv'. injection Hv' as <-. exists l'.
        split; [done|]. by econstructor. }
    destruct (inv_parent _ _ _ _ _ _ Hi _ _ Hp) as (_ & _ & hops & Hc & Hlen).
    exists hops. split; [done|]. split; [by eapply bfsInv_route|].
    split.
    + intros hops' Hr. destruct (decide (length hops ≤ length hops')%nat);
        [done|]. exfalso. apply Hfar. exists hops'. split; [lia|done].
    + split; [lia|]. intros Hm. specialize (Hle (Hag Hm)). lia.
Qed.

Lemma FindPath_search fuel maxHops :
  supports graph destination = true -> source ≠ destination ->
  FindPath fuel graph source destination maxHops =
  match bfsLoop fuel graph destination maxHops [source] 0
          (initialState source destination) with
  | None => None
  | Some (inl err) => Some (inl err)
  | Some (inr st) =>
      inr <$> reconstructPath fuel (parent st) source destination
  end.
Proof.
  unfold supports, FindPath. intros Hs Hne.
  destruct (FetchNodeFeatures graph destination) as [|fv]; [done|].
  rewrite Hs; simpl. by rewrite decide_False.
Qed.

(** A returned path, for distinct source and destination. *)
Lemma FindPath_path fuel maxHops p :
  source ≠ destination ->
  FindPath fuel graph source destination maxHops = Some (inr p) ->
  ∃ st,
    bfsLoop fuel graph destination maxHops [source] 0
      (initialState source destination) = Some (inr st) ∧
    parentChain (parent st) source destination (Hops p) ∧
    onionRoute graph source destination (Hops p) ∧
    (∀ hops', onionRoute graph source destination hops' ->
              (length (Hops p) ≤ length hops')%nat) ∧
    (maxHops < maxInt -> Z.of_nat (length (Hops p)) ≤ maxHops).
Proof.
  intros Hne Hf.
  assert (supports graph destination = true) as Hs.
  { unfold FindPath in Hf. unfold supports.
    destruct (FetchNodeFeatures graph destination) as [|fv]; [done|].
    by destruct (HasFeature fv OnionMessagesOptional). }
  rewrite (FindPath_search _ _ Hs Hne) in Hf.
  pose proof (bfsLoop_spec fuel maxHops Hs Hne) as H.
  destruct (bfsLoop _ _ _ _ _ _ _) as [[err|st]|]; [done| |done].
  destruct H as (_ & hops & Hc & Hr & Hmin & _ & Hle).
  destruct (reconstructPath fuel (parent st) source destination)
    as [p'|] eqn:Hp; [|done].
  simpl in Hf. injection Hf as ->.
  destruct (reconstructPath_chain _ _ _ _ fuel Hc) as [Heq _].
  rewrite (Heq _ Hp). by exists st.
Qed.
End FindPathFacts.

Section Sentinel.
Context (graph : NodeTraverser) (destination : Vertex).

(** The callback returns an error only when it has just recorded the
    destination, and that error is the sentinel. *)
Lemma visitChannel_error current channel st err :
  (visitChannel graph destination current channel st).1 = Some err ->
  err = errBFSDone ∧ OtherNode channel = destination ∧
  isVisited st destination = false ∧
  parent (visitChannel graph destination current channel st).2
    !! destination = Some current.
Proof.
  unfold visitChannel.
  destruct (isVisited st (OtherNode channel)) eqn:Hvis; [done|].
  destruct (supportsOnionMessages graph _ _) as [[|] cache]; simpl; [|done].
  destruct (decide (OtherNode channel = destination)) as [<-|]; simpl;
    [|done].
  intros [= <-]. by rewrite lookup_insert_eq.
Qed.

Lemma forEachChannel_error current chans st err :
  (forEachChannel (visitChannel graph destination current) chans st).1
    = Some err ->
  err = errBFSDone ∧ destination ∈ OtherNode <$> chans ∧
  parent (forEachChannel (visitChannel graph destination current)
            chans st).2 !! destination = Some current.
Proof.
  revert st. induction chans as [|c chans IH]; intros st; simpl; [done|].
  pose proof (visitChannel_error current c st) as Hc.
  destruct (visitChannel graph destination current c st) as [[e|] st'];
    simpl in *.
  - intros [= <-]. destruct (Hc e eq_refl) as (-> & <- & _ & Hp).
    split; [done|]. split; [apply list_elem_of_here|done].
  - intros He. destruct (IH st' He) as (-> & Hin & Hp).
    split; [done|]. split; [by apply list_elem_of_further|done].
Qed.

(** An iteration of the adapter ends with an error either because the
    callback produced the sentinel or because the adapter failed. *)
Lemma ForEachNodeDirectedChannel_error current st err st' :
  ForEachNodeDirectedChannel graph current
    (visitChannel graph destination current) st = (Some err, st') ->
  (err = errBFSDone ∧ destination ∈ neighbors graph current ∧
   parent st' !! destination = Some current) ∨
  (∃ m, err = ExternalError m ∧ (nodeChannels graph current).2 = Some m).
Proof.
  unfold ForEachNodeDirectedChannel.
  pose proof (forEachChannel_error current (nodeChannels graph current).1 st)
    as Hc.
  destruct (forEachChannel _ _ st) as [[e|] st'']; simpl in *.
  - intros [= <- <-]. left. by apply Hc.
  - destruct (nodeChannels graph current).2 as [m|]; simpl; [|done].
    intros [= <- <-]. right. by exists m.
Qed.
End Sentinel.

Section Fuel.
Context (graph : NodeTraverser) (source destination : Vertex).

(** More fuel never changes a result. *)
Lemma walkParents_mono parent fuel : ∀ fuel' current path r,
  walkParents fuel parent source current path = Some r ->
  (fuel ≤ fuel')%nat ->
  walkParents fuel' parent source current path = Some r.
Proof.
  induction fuel as [|fuel IH]; intros fuel' current path r; simpl.
  - destruct (decide (current = source)) as [->|Hne]; [|done].
    intros [= <-] _. destruct fuel'; simpl; by rewrite decide_True.
  - destruct (decide (current = source)) as [->|Hne].
    + intros [= <-] _. destruct fuel'; simpl; by rewrite decide_True.
    + intros Hw Hle. destruct fuel' as [|fuel']; [lia|]. simpl.
      rewrite decide_False by done. apply IH; [done|lia].
Qed.

Lemma bfsLoop_mono maxHops fuel : ∀ fuel' queue depth st r,
  bfsLoop fuel graph destination maxHops queue depth st = Some r ->
  (fuel ≤ fuel')%nat ->
  bfsLoop fuel' graph destination maxHops queue depth st = Some r.
Proof.
  induction fuel as [|fuel IH]; intros fuel' queue depth st r Hb Hle.
  - destruct queue as [|q queue]; cbn [bfsLoop] in *.
    + by destruct fuel'.
    + destruct (wrapInt (depth + 1) >? maxHops) eqn:Hgt; [|done].
      destruct fuel'; cbn [bfsLoop]; by rewrite Hgt.
  - destruct fuel' as [|fuel']; [lia|].
    destruct queue as [|q queue]; cbn [bfsLoop] in *; [done|].
    destruct (wrapInt (depth + 1) >? maxHops); [done|].
    destruct (expandLevel graph destination (q :: queue) _); [done..|].
    apply IH; [done|lia].
Qed.

Lemma FindPath_fuel_mono maxHops fuel fuel' r :
  FindPath fuel graph source destination maxHops = Some r ->
  (fuel ≤ fuel')%nat ->
  FindPath fuel' graph source destination maxHops = Some r.
Proof.
  unfold FindPath. intros Hf Hle.
  destruct (FetchNodeFeatures graph destination) as [|fv]; [done|].
  destruct (negb (HasFeature fv OnionMessagesOptional)); [done|].
  destruct (decide (source = destination)); [done|].
  destruct (bfsLoop fuel graph destination maxHops [source] 0 _)
    as [[err|st]|] eqn:Hb; [| |done].
  - by rewrite (bfsLoop_mono _ _ _ _ _ _ _ Hb Hle).
  - rewrite (bfsLoop_mono _ _ _ _ _ _ _ Hb Hle).
    unfold reconstructPath in *.
    destruct (walkParents fuel (parent st) source destination [])
      as [path|] eqn:Hw; [|done].
    by rewrite (walkParents_mono _ _ _ _ _ _ Hw Hle).
Qed.
End Fuel.

Section Run.
Context (graph : NodeTraverser) (source destination : Vertex) (maxHops : Z).

(** A level over a queue in two parts is the level over the first part
    and, if that exhausts its entries, the level over the second. *)
Lemma expandLevel_app (pre rest : list Vertex) (st : BFSState) :
  expandLevel graph destination (pre ++ rest) st
  = match expandLevel graph destination pre st with
    | LevelNext st1 => expandLevel graph destination rest st1
    | outcome => outcome
    end.
Proof.
  revert st. induction pre as [|q pre IH]; intros st; simpl; [done|].
  destruct (ForEachNodeDirectedChannel graph q _ st) as [[err|] st'];
    [by destruct (decide (err = errBFSDone))|].
  apply IH.
Qed.

(** Where the search stands after [n] levels is where the loop continues
    from, with [n] units of fuel spent. *)
Lemma arrives_bfsLoop (fuel n : nat) (queue : list Vertex) (depth : Z)
    (st : BFSState) :
  arrives graph source destination maxHops n queue depth st ->
  (n ≤ fuel)%nat ->
  bfsLoop fuel graph destination maxHops [source] 0
    (initialState source destination)
  = bfsLoop (fuel - n) graph destination maxHops queue depth st.
Proof.
  induction 1 as [|n queue depth st st' Ha IH Hq Hcap Hl]; intros Hle.
  - by rewrite Nat.sub_0_r.
  - rewrite IH by lia.
    replace (fuel - n)%nat with (S (fuel - S n)) by lia.
    destruct queue as [|q queue]; [done|].
    cbn [bfsLoop]. rewrite Hcap. by rewrite Hl.
Qed.
End Run.

(* ===================================================================== *)
(** ** The path finder: the properties of [FindPath] *)
(* ===================================================================== *)

(** C1 (as amended).  For a cap that is not negative, and a returned
    path whose length is an [int] as the length of every Go slice is:
    whenever [FindPath] returns a path, the path has at most [maxHops]
    vertices, every vertex of the path supports onion messages, adjacent
    vertices of the source followed by the path are joined by a channel of
    the graph, the source does not occur in the path and the vertices of
    the path are pairwise distinct.  If source and destination differ, the
    last vertex of the path is the destination.  If they coincide, the path
    is empty and has no last vertex. *)
Theorem FindPath_path_sound (fuel : nat) (graph : NodeTraverser)
    (source destination : Vertex) (maxHops : Z) (p : OnionMessagePath) :
  0 ≤ maxHops ->
  Z.of_nat (length (Hops p)) ≤ maxInt ->
  FindPath fuel graph source destination maxHops = Some (inr p) ->
  Z.of_nat (length (Hops p)) ≤ maxHops ∧
  Forall (λ v, supports graph v = true) (Hops p) ∧
  (∀ i u v, (source :: Hops p) !! i = Some u ->
            (source :: Hops p) !! S i = Some v ->
            v ∈ neighbors graph u) ∧
  (source ∉ Hops p) ∧
  NoDup (Hops p) ∧
  (source ≠ destination -> last (Hops p) = Some destination) ∧
  (source = destination -> Hops p = [] ∧ last (Hops p) = None).
Proof.
  intros Hk Hlen Hf. destruct (decide (source = destination)) as [Heq|Hne].
  - assert (Hops p = []) as Hnil.
    { unfold FindPath in Hf.
      destruct (FetchNodeFeatures graph destination) as [|fv]; [done|].
      destruct (HasFeature fv OnionMessagesOptional); [|done].
      simpl in Hf. rewrite decide_True in Hf by done. by injection Hf as <-. }
    rewrite Hnil. simpl. split; [lia|]. split; [constructor|]. split.
    { intros [|i] u v Hu Hv; done. }
    split; [apply not_elem_of_nil|]. split; [constructor|]. done.
  - destruct (FindPath_path _ _ _ _ _ _ Hne Hf)
      as (st & _ & Hc & [Hw Hl] & _ & Hle).
    destruct (parentChain_NoDup _ _ _ _ Hc) as [Hnd Hs].
    split.
    { destruct (decide (maxHops < maxInt)) as [Hlt|Hge]; [by apply Hle|].
      lia. }
    split; [by eapply onionWalk_supports|].
    split; [intros i u v; by apply onionWalk_adjacent|].
    split; [done|]. split; [done|]. split; [|done]. intros _.
    destruct (Hops p) as [|h hops]; simpl in *; [congruence|done].
Qed.

(** C2.  For a graph whose channel iterations do not fail, distinct source
    and destination, a destination that supports onion messages, a cap
    below the largest [int] and fuel for [maxHops] levels: if some route
    from the source to the destination through supporting nodes has at
    most [maxHops] hops, [FindPath] returns a path that is such a route and
    is no longer than any route; if there is no such route of at most
    [maxHops] hops, it returns [ErrNoPathFound]; this is so in particular
    for a cap of zero or less. *)
Theorem FindPath_shortest (fuel : nat) (graph : NodeTraverser)
    (source destination : Vertex) (maxHops : Z) :
  iterationsSucceed graph ->
  source ≠ destination ->
  supports graph destination = true ->
  maxHops < maxInt ->
  Z.max 0 maxHops ≤ Z.of_nat fuel ->
  ((∃ hops, onionRoute graph source destination hops ∧
            Z.of_nat (length hops) ≤ maxHops) ->
   ∃ p, FindPath fuel graph source destination maxHops = Some (inr p) ∧
        onionRoute graph source destination (Hops p) ∧
        Z.of_nat (length (Hops p)) ≤ maxHops ∧
        ∀ hops, onionRoute graph source destination hops ->
                (length (Hops p) ≤ length hops)%nat) ∧
  ((∀ hops, onionRoute graph source destination hops ->
            maxHops < Z.of_nat (length hops)) ->
   FindPath fuel graph source destination maxHops
     = Some (inl ErrNoPathFound)) ∧
  (maxHops ≤ 0 ->
   FindPath fuel graph source destination maxHops
     = Some (inl ErrNoPathFound)).
Proof.
  intros Hok Hne Hs Hm Hfuel.
  pose proof (bfsLoop_spec graph source destination fuel maxHops Hs Hne)
    as Hspec.
  destruct (bfsLoop_total graph destination maxHops fuel [source] 0
              (initialState source destination) Hm) as [r Hr]; [lia..|].
  rewrite (FindPath_search _ _ _ _ _ Hs Hne). rewrite Hr in Hspec |- *.
  assert (∀ hops, onionRoute graph source destination hops ->
                  (0 < length hops)%nat) as Hpos.
  { intros [|h hops] [_ Hl]; simpl in *; [congruence|lia]. }
  destruct r as [err|st].
  - destruct Hspec as [[-> Hno]|(m & u & _ & Hu)];
      [|by rewrite (Hok u) in Hu].
    specialize (Hno Hm). split; [|done].
    intros (hops & Hr' & Hlen). specialize (Hno _ Hr'). lia.
  - destruct Hspec as (_ & hops & Hc & Hroute & Hmin & _ & Hle).
    specialize (Hle Hm).
    destruct (reconstructPath_chain _ _ _ _ fuel Hc) as [_ Hrec].
    rewrite Hrec by lia. simpl. split; [|split].
    + intros _. by eexists.
    + intros Hno. specialize (Hno _ Hroute). lia.
    + intros H0. specialize (Hpos _ Hroute). lia.
Qed.

(** C3.  [FindPath] looks at the destination first.  If fetching the
    destination's features fails, it returns the error of that fetch as it
    is (the "destination unknown" outcome); if the features lack
    [OnionMessagesOptional], it returns [ErrDestinationNoOnionSupport].
    Both hold for every graph, hence whatever channels the destination has,
    and already without fuel: no iteration of the search loop is run. *)
Theorem FindPath_destination_first (graph : NodeTraverser)
    (source destination : Vertex) (maxHops : Z) :
  (∀ m, FetchNodeFeatures graph destination = inl m ->
        ∀ fuel, FindPath fuel graph source destination maxHops
                = Some (inl (ExternalError m))) ∧
  (∀ fv, FetchNodeFeatures graph destination = inr fv ->
         HasFeature fv OnionMessagesOptional = false ->
         ∀ fuel, FindPath fuel graph source destination maxHops
                 = Some (inl ErrDestinationNoOnionSupport)).
Proof.
  split.
  - intros m Hm fuel. unfold FindPath. by rewrite Hm.
  - intros fv Hfv Hno fuel. unfold FindPath. by rewrite Hfv, Hno.
Qed.

(** C4.  For a vertex whose features can be fetched and contain
    [OnionMessagesOptional], [FindPath] from the vertex to itself returns
    the empty path, for every cap and without running the search loop. *)
Theorem FindPath_self (fuel : nat) (graph : NodeTraverser) (source : Vertex)
    (maxHops : Z) (fv : FeatureVector) :
  FetchNodeFeatures graph source = inr fv ->
  HasFeature fv OnionMessagesOptional = true ->
  FindPath fuel graph source source maxHops = Some (inr {| Hops := [] |}).
Proof.
  intros Hfv Hs. unfold FindPath. rewrite Hfv, Hs. simpl.
  by rewrite decide_True.
Qed.

(** C9.  The sentinel stays inside [FindPath].  [FindPath] never returns
    it; an error it returns is [ErrNoPathFound],
    [ErrDestinationNoOnionSupport] or an error of the adapter, unchanged.
    Whenever a channel iteration comes back with an error, at whatever
    place of the queue its entry stands, either the error is the sentinel,
    in which case the destination is a neighbour of the entry, has just
    been given that entry as parent, and the level ends with the state
    handed to path reconstruction; or it is the adapter's own error, and
    the level ends with that error.  The loop returns what a level ends
    with, and goes on with the next queue otherwise.  Whenever the loop
    ends with a state for path reconstruction, [FindPath] returns a path.
    End to end: wherever the search stands after some number of levels,
    if the entries of the queue before some entry are expanded without an
    error and the iteration of that entry then comes back with an error,
    [FindPath] returns a path ending at the destination when the error is
    the sentinel, and returns the adapter's error, unchanged, when it is
    not.  In particular, when the iteration over the channels of the
    source fails before the destination was among them, [FindPath] returns
    the adapter's error. *)
Theorem FindPath_sentinel_internal (fuel : nat) (graph : NodeTraverser)
    (source destination : Vertex) (maxHops : Z) :
  FindPath fuel graph source destination maxHops ≠ Some (inl errBFSDone) ∧
  (∀ err, FindPath fuel graph source destination maxHops = Some (inl err) ->
     err = ErrNoPathFound ∨ err = ErrDestinationNoOnionSupport ∨
     ∃ m, err = ExternalError m ∧
          (FetchNodeFeatures graph destination = inl m ∨
           ∃ u, (nodeChannels graph u).2 = Some m)) ∧
  (∀ pre current rest st st1 err st',
     expandLevel graph destination pre st = LevelNext st1 ->
     ForEachNodeDirectedChannel graph current
       (visitChannel graph destination current) st1 = (Some err, st') ->
     (err = errBFSDone ∧ destination ∈ neighbors graph current ∧
      parent st' !! destination = Some current ∧
      expandLevel graph destination (pre ++ current :: rest) st
        = LevelDone st') ∨
     (∃ m, err = ExternalError m ∧
           (nodeChannels graph current).2 = Some m ∧
           expandLevel graph destination (pre ++ current :: rest) st
             = LevelError err)) ∧
  (∀ n q queue depth st,
     (wrapInt (depth + 1) >? maxHops) = false ->
     bfsLoop (S n) graph destination maxHops (q :: queue) depth st
     = match expandLevel graph destination (q :: queue)
               (mkBFS (parent st) (visited st) (featureCache st) []) with
       | LevelDone st' => Some (inr st')
       | LevelError err => Some (inl err)
       | LevelNext st' =>
           bfsLoop n graph destination maxHops (nextQueue st')
             (wrapInt (depth + 1)) st'
       end) ∧
  (∀ st,
     source ≠ destination ->
     supports graph destination = true ->
     bfsLoop fuel graph destination maxHops [source] 0
       (initialState source destination) = Some (inr st) ->
     ∃ p, FindPath fuel graph source destination maxHops = Some (inr p) ∧
          last (Hops p) = Some destination) ∧
  (∀ n queue depth st pre current rest st1 err st',
     source ≠ destination ->
     supports graph destination = true ->
     arrives graph source destination maxHops n queue depth st ->
     queue = pre ++ current :: rest ->
     (wrapInt (depth + 1) >? maxHops) = false ->
     expandLevel graph destination pre
       (mkBFS (parent st) (visited st) (featureCache st) []) = LevelNext st1 ->
     ForEachNodeDirectedChannel graph current
       (visitChannel graph destination current) st1 = (Some err, st') ->
     (n < fuel)%nat ->
     (err = errBFSDone ∧
      ∃ p, FindPath fuel graph source destination maxHops = Some (inr p) ∧
           last (Hops p) = Some destination) ∨
     (∃ m, err = ExternalError m ∧
           (nodeChannels graph current).2 = Some m ∧
           FindPath fuel graph source destination maxHops
             = Some (inl (ExternalError m)))) ∧
  (∀ chans m,
     source ≠ destination ->
     supports graph destination = true ->
     nodeChannels graph source = (chans, Some m) ->
     destination ∉ OtherNode <$> chans ->
     1 ≤ maxHops -> (0 < fuel)%nat ->
     FindPath fuel graph source destination maxHops
       = Some (inl (ExternalError m))).
Proof.
  assert (∀ err,
    FindPath fuel graph source destination maxHops = Some (inl err) ->
    err = ErrNoPathFound ∨ err = ErrDestinationNoOnionSupport ∨
    ∃ m, err = ExternalError m ∧
         (FetchNodeFeatures graph destination = inl m ∨
          ∃ u, (nodeChannels graph u).2 = Some m)) as Herr.
  { intros err Hf. unfold FindPath in Hf.
    destruct (FetchNodeFeatures graph destination) as [m|fv] eqn:Hfv.
    { injection Hf as <-. right; right. exists m. split; [done|by left]. }
    destruct (HasFeature fv OnionMessagesOptional) eqn:Hs; simpl in Hf;
      [|injection Hf as <-; by right; left].
    destruct (decide (source = destination)) as [|Hne]; [done|].
    assert (supports graph destination = true) as Hsup
      by (unfold supports; by rewrite Hfv).
    pose proof (bfsLoop_spec graph source destination fuel maxHops Hsup Hne)
      as Hspec.
    destruct (bfsLoop _ _ _ _ _ _ _) as [[e|st]|]; [| |done].
    - injection Hf as <-.
      destruct Hspec as [[-> _]|(m & u & -> & Hu)]; [by left|].
      right; right. exists m. split; [done|]. right. by exists u.
    - by destruct (reconstructPath _ _ _ _). }
  assert (∀ pre current rest st st1 err st',
     expandLevel graph destination pre st = LevelNext st1 ->
     ForEachNodeDirectedChannel graph current
       (visitChannel graph destination current) st1 = (Some err, st') ->
     (err = errBFSDone ∧ destination ∈ neighbors graph current ∧
      parent st' !! destination = Some current ∧
      expandLevel graph destination (pre ++ current :: rest) st
        = LevelDone st') ∨
     (∃ m, err = ExternalError m ∧
           (nodeChannels graph current).2 = Some m ∧
           expandLevel graph destination (pre ++ current :: rest) st
             = LevelError err)) as Hlevel.
  { intros pre current rest st st1 err st' Hpre Hfe.
    rewrite expandLevel_app, Hpre. simpl. rewrite Hfe.
    destruct (ForEachNodeDirectedChannel_error _ _ _ _ _ _ Hfe)
      as [(-> & Hn & Hp)|(m & -> & Hm)].
    + left. by rewrite decide_True.
    + right. exists m. by rewrite decide_False. }
  assert (∀ st,
     source ≠ destination ->
     supports graph destination = true ->
     bfsLoop fuel graph destination maxHops [source] 0
       (initialState source destination) = Some (inr st) ->
     ∃ p, FindPath fuel graph source destination maxHops = Some (inr p) ∧
          last (Hops p) = Some destination) as Hpath.
  { intros st Hne Hs Hb. rewrite (FindPath_search _ _ _ _ _ Hs Hne), Hb.
    pose proof (bfsLoop_spec graph source destination fuel maxHops Hs Hne)
      as Hspec.
    rewrite Hb in Hspec.
    destruct Hspec as (_ & hops & Hc & [_ Hl] & _ & Hfuel & _).
    destruct (reconstructPath_chain _ _ _ _ fuel Hc) as [_ Hrec].
    rewrite (Hrec Hfuel). simpl. eexists. split; [done|]. simpl.
    destruct hops as [|h hops]; simpl in *; [congruence|done]. }
  split; [|split; [done|split; [done|split; [|split; [done|split]]]]].
  - intros Hf. destruct (Herr _ Hf) as [?|[?|(m & ? & _)]]; done.
  - intros n q queue depth st Hgt. cbn [bfsLoop]. by rewrite Hgt.
  - intros n queue depth st pre current rest st1 err st' Hne Hs Ha -> Hcap
      Hpre Hfe Hn.
    assert (bfsLoop fuel graph destination maxHops [source] 0
              (initialState source destination)
            = Some (if decide (err = errBFSDone) then inr st' else inl err))
      as Hb.
    { rewrite (arrives_bfsLoop _ _ _ _ fuel _ _ _ _ Ha) by lia.
      replace (fuel - n)%nat with (S (fuel - S n)) by lia.
      destruct (pre ++ current :: rest) as [|q queue] eqn:Hq.
      { by destruct pre. }
      cbn [bfsLoop]. rewrite Hcap, <- Hq.
      destruct (Hlevel pre current rest _ _ _ _ Hpre Hfe)
        as [(-> & _ & _ & ->)|(m & -> & _ & ->)]; [by rewrite decide_True|].
      by rewrite decide_False. }
    destruct (Hlevel pre current rest _ _ _ _ Hpre Hfe)
      as [(-> & _)|(m & -> & Hm & _)].
    + left. split; [done|]. rewrite decide_True in Hb by done.
      by apply (Hpath st').
    + right. exists m. split; [done|]. split; [done|].
      rewrite decide_False in Hb by done.
      by rewrite (FindPath_search _ _ _ _ _ Hs Hne), Hb.
  - intros chans m Hne Hs Hch Hnot Hk Hfuel.
    rewrite (FindPath_search _ _ _ _ _ Hs Hne).
    destruct fuel as [|n]; [lia|]. cbn [bfsLoop].
    change (wrapInt (0 + 1)) with 1.
    assert ((1 >? maxHops) = false) as -> by lia.
    cbn [expandLevel parent visited featureCache initialState].
    destruct (ForEachNodeDirectedChannel graph source _ _)
      as [[err|] st'] eqn:Hfe.
    + destruct (ForEachNodeDirectedChannel_error _ _ _ _ _ _ Hfe)
        as [(_ & Hin & _)|(m' & -> & Hm')].
      * unfold neighbors in Hin. rewrite Hch in Hin. done.
      * rewrite Hch in Hm'. injection Hm' as <-.
        by rewrite decide_False.
    + unfold ForEachNodeDirectedChannel in Hfe. rewrite Hch in Hfe.
      simpl in Hfe. by destruct (forEachChannel _ chans _) as [[?|] ?].
Qed.

(** C10.  The callback writes a parent link only for a neighbour that was
    not yet visited.  Whenever the search loop hands a state to path
    reconstruction, every vertex recorded in the parent map has a parent
    from which the parent links lead to the source, and so do the links
    from the vertex itself; in particular they lead from the destination to
    the source, through pairwise distinct vertices none of which is the
    source and each of which is present in the map.  The reconstruction
    loop therefore ends within as many iterations as the path has hops (the
    fuel of the search always covers it), and it returns that chain. *)
Theorem reconstructPath_terminates (fuel : nat) (graph : NodeTraverser)
    (source destination : Vertex) (maxHops : Z) (st : BFSState) :
  supports graph destination = true ->
  source ≠ destination ->
  bfsLoop fuel graph destination maxHops [source] 0
    (initialState source destination) = Some (inr st) ->
  (∀ current channel st0,
     parent (visitChannel graph destination current channel st0).2
       ≠ parent st0 ->
     isVisited st0 (OtherNode channel) = false ∧
     parent (visitChannel graph destination current channel st0).2
       = <[OtherNode channel := current]> (parent st0)) ∧
  (∀ v u, parent st !! v = Some u ->
          ∃ l, parentChain (parent st) source u l ∧
               parentChain (parent st) source v (l ++ [v])) ∧
  ∃ hops,
    parentChain (parent st) source destination hops ∧
    NoDup hops ∧ (source ∉ hops) ∧
    (∀ v, v ∈ hops -> is_Some (parent st !! v)) ∧
    (length hops ≤ fuel)%nat ∧
    (∀ n, (length hops ≤ n)%nat ->
          reconstructPath n (parent st) source destination
            = Some {| Hops := hops |}) ∧
    (∀ n p, reconstructPath n (parent st) source destination = Some p ->
            Hops p = hops).
Proof.
  intros Hs Hne Hb. split.
  { intros current channel st0. unfold visitChannel.
    destruct (isVisited st0 (OtherNode channel)); [done|].
    destruct (supportsOnionMessages graph _ _) as [[|] cache]; simpl;
      [|done].
    by destruct (decide (OtherNode channel = destination)). }
  pose proof (bfsLoop_spec graph source destination fuel maxHops Hs Hne)
    as Hspec.
  rewrite Hb in Hspec.
  destruct Hspec as (Hall & hops & Hc & _ & _ & Hfuel & _).
  split; [done|]. exists hops.
  destruct (parentChain_NoDup _ _ _ _ Hc) as [Hnd Hsrc].
  split; [done|]. split; [done|]. split; [done|]. split.
  { intros v Hv. by destruct (parentChain_prefix _ _ _ _ Hc v Hv) as (_ & ? & _). }
  split; [done|]. split.
  - intros n Hn. by apply (reconstructPath_chain _ _ _ _ n Hc).
  - intros n p. by apply (reconstructPath_chain _ _ _ _ n Hc).
Qed.
(* ===================================================================== *)
(** ** The onion builder and the dispatcher *)
(* ===================================================================== *)

Section SendFacts.
Context {PublicKey PrivateKey : Type}.
Context {BlindedPath PaymentPath OnionPacket : Type}.
Context {ActorReceptionist ActorRef : Type}.
Context {primitives : Primitives PublicKey PrivateKey BlindedPath PaymentPath
                        OnionPacket ActorReceptionist ActorRef}.

(** What a successful iteration of the hop loop produces. *)
Lemma hopInfoAt_inr hops i hop info :
  hopInfoAt hops i hop = inr info ->
  ParsePubKey (vec_to_list hop) = inr (NodePub info) ∧
  ∃ routeData,
    EncodeBlindedRouteData routeData = inr (PlainText info) ∧
    if decide (S i = length hops) then routeData = emptyBlindedRouteData
    else ∃ next nextPub,
      hops !! S i = Some next ∧
      ParsePubKey (vec_to_list next) = inr nextPub ∧
      routeData = {| Padding := None; ShortChannelID := None;
                     NextNodeID := Some nextPub |}.
Proof.
  unfold hopInfoAt. intros H.
  destruct (ParsePubKey (vec_to_list hop)) as [err|pubKey]; [done|].
  destruct (decide (Z.of_nat i = Z.of_nat (length hops) - 1)) as [Hi|Hi].
  - destruct (EncodeBlindedRouteData emptyBlindedRouteData)
      as [err|encoded] eqn:He; [done|].
    injection H as <-. split; [done|]. exists emptyBlindedRouteData.
    split; [done|]. rewrite decide_True by lia. done.
  - destruct (hops !! S i) as [next|]; [|done].
    destruct (ParsePubKey (vec_to_list next)) as [err|nextPub] eqn:Hn; [done|].
    simpl in H.
    destruct (EncodeBlindedRouteData _) as [err|encoded] eqn:He; [done|].
    injection H as <-. split; [done|]. eexists. split; [exact He|].
    rewrite decide_False by lia. by exists next, nextPub.
Qed.

Lemma buildHopInfos_inr hops : ∀ rest i infos,
  buildHopInfos hops i rest = inr infos ->
  length infos = length rest ∧
  ∀ j hop info, rest !! j = Some hop -> infos !! j = Some info ->
                hopInfoAt hops (i + j) hop = inr info.
Proof.
  induction rest as [|hop0 rest IH]; intros i infos H; simpl in H.
  - injection H as <-. split; [done|]. intros j ? ? Hj. by destruct j.
  - destruct (hopInfoAt hops i hop0) as [err|info0] eqn:H0; [done|].
    destruct (buildHopInfos hops (S i) rest) as [err|infos'] eqn:Hr; [done|].
    injection H as <-. destruct (IH _ _ Hr) as [Hlen Hall].
    split; [simpl; by rewrite Hlen|].
    intros [|j] hop info Hh Hi; simpl in *.
    + simplify_eq. by rewrite Nat.add_0_r.
    + replace (i + S j)%nat with (S i + j)%nat by lia. by apply Hall.
Qed.

(** The loop succeeds when every hop parses and every record encodes. *)
Lemma buildHopInfos_total hops : ∀ rest i,
  drop i hops = rest ->
  (∀ hop, hop ∈ hops -> ∃ pk, ParsePubKey (vec_to_list hop) = inr pk) ->
  (∀ rd, ∃ b, EncodeBlindedRouteData rd = inr b) ->
  ∃ infos, buildHopInfos hops i rest = inr infos.
Proof.
  induction rest as [|hop0 rest IH]; intros i Hd Hp He; simpl.
  - by eexists.
  - assert (hops !! i = Some hop0) as Hi.
    { rewrite <- (Nat.add_0_r i), <- lookup_drop, Hd. done. }
    assert (drop (S i) hops = rest) as Hd'.
    { replace (S i) with (i + 1)%nat by lia.
      by rewrite <- drop_drop, Hd. }
    assert (∃ info, hopInfoAt hops i hop0 = inr info) as [info ->].
    { unfold hopInfoAt.
      destruct (Hp hop0) as [pk ->]; [by eapply list_elem_of_lookup_2|].
      destruct (decide (Z.of_nat i = Z.of_nat (length hops) - 1)).
      - destruct (He emptyBlindedRouteData) as [b ->]. by eexists.
      - destruct (hops !! S i) as [next|] eqn:Hn.
        + destruct (Hp next) as [npk ->]; [by eapply list_elem_of_lookup_2|].
          simpl. destruct (He (NewNonFinalBlindedRouteDataOnionMessage
                                 (inl npk))) as [b Hb].
          simpl in Hb. rewrite Hb. by eexists.
        + apply lookup_ge_None in Hn. apply lookup_lt_Some in Hi.
          exfalso. unfold Vertex in *. lia. }
    destruct (IH (S i) Hd' Hp He) as [infos ->]. by eexists.
Qed.

(** The loop fails when some hop does not parse. *)
Lemma buildHopInfos_invalid hops : ∀ rest i,
  drop i hops = rest ->
  (∃ hop perr, hop ∈ rest ∧ ParsePubKey (vec_to_list hop) = inl perr) ->
  ∃ err, buildHopInfos hops i rest = inl err ∧
         (InvalidHopKey err ∨ EncodeFailure err).
Proof.
  induction rest as [|hop0 rest IH]; intros i Hd (hop & perr & Hin & Hbad).
  { by apply elem_of_nil in Hin. }
  assert (drop (S i) hops = rest) as Hd'.
  { replace (S i) with (i + 1)%nat by lia.
    by rewrite <- drop_drop, Hd. }
  cbn [buildHopInfos].
  destruct (ParsePubKey (vec_to_list hop0)) as [err|pubKey] eqn:H0.
  { unfold hopInfoAt. rewrite H0. eexists. split; [done|].
    left. by eexists _, _; left. }
  assert (hop ∈ rest) as Hin'.
  { apply elem_of_cons in Hin as [->|?]; [congruence|done]. }
  destruct (IH (S i) Hd') as (err' & -> & Hk); [by exists hop, perr|].
  destruct rest as [|next rest]; [by apply elem_of_nil in Hin'|].
  assert (hops !! S i = Some next) as Hnext.
  { rewrite <- (Nat.add_0_r (S i)), <- lookup_drop, Hd'. done. }
  assert (length hops = (i + S (S (length rest)))%nat) as Hlen.
  { apply (f_equal length) in Hd. rewrite length_drop in Hd. simpl in Hd.
    lia. }
  unfold hopInfoAt. rewrite H0, decide_False by lia.
  unfold Vertex in *. rewrite Hnext.
  destruct (ParsePubKey (vec_to_list next)) as [err|nextPub] eqn:Hn.
  { eexists. split; [done|]. left. by eexists _, _; right. }
  destruct (EncodeBlindedRouteData _) as [err|encoded].
  { eexists. split; [done|]. right. by eexists _, _. }
  by exists err'.
Qed.

(** C5. For a path of at least one hop: when the builder's hop loop
    succeeds, it yields one entry per hop, in order; the entry of hop [i]
    carries the parsed public key of that hop and the encoding of its
    route-data record, which is the empty record for the final hop and
    otherwise the record whose only field is the next node id, set to the
    parsed public key of hop [i+1]; the loop does succeed when every hop
    parses and the encoder does not fail.  A hop that does not parse as a
    public key makes the whole call fail, before any randomness is drawn,
    with an invalid-hop-key error (unless the encoder has already failed on
    an earlier hop, which a total encoder never does). *)
Theorem buildOnionMessageForPath_hops (path : OnionMessagePath)
    (replyPath : option BlindedPath) (finalHopTLVs : list FinalHopTLV)
    (e : Entropy PrivateKey) :
  (0 < length (Hops path))%nat ->
  let hops := Hops path in
  (∀ infos, buildHopInfos hops 0 hops = inr infos ->
     length infos = length hops ∧
     ∀ i hop info, hops !! i = Some hop -> infos !! i = Some info ->
       ParsePubKey (vec_to_list hop) = inr (NodePub info) ∧
       ∃ routeData,
         EncodeBlindedRouteData routeData = inr (PlainText info) ∧
         if decide (S i = length hops) then routeData = emptyBlindedRouteData
         else ∃ next nextPub,
           hops !! S i = Some next ∧
           ParsePubKey (vec_to_list next) = inr nextPub ∧
           routeData = {| Padding := None; ShortChannelID := None;
                          NextNodeID := Some nextPub |}) ∧
  ((∀ hop, hop ∈ hops -> ∃ pk, ParsePubKey (vec_to_list hop) = inr pk) ->
   (∀ rd, ∃ b, EncodeBlindedRouteData rd = inr b) ->
   ∃ infos, buildHopInfos hops 0 hops = inr infos) ∧
  (∀ hop perr, hop ∈ hops -> ParsePubKey (vec_to_list hop) = inl perr ->
     ∃ err,
       buildOnionMessageForPath path replyPath finalHopTLVs e = (inl err, e) ∧
       (InvalidHopKey err ∨ EncodeFailure err) ∧
       ((∀ rd, ∃ b, EncodeBlindedRouteData rd = inr b) -> InvalidHopKey err)).
Proof.
  intros Hpos hops. split; [|split].
  - intros infos Hb. destruct (buildHopInfos_inr _ _ _ _ Hb) as [Hlen Hall].
    split; [done|]. intros i hop info Hh Hi.
    by apply hopInfoAt_inr, (Hall i).
  - intros Hp He. by apply buildHopInfos_total.
  - intros hop perr Hin Hbad.
    destruct (buildHopInfos_invalid hops hops 0 eq_refl) as (err & Hb & Hk);
      [by exists hop, perr|].
    exists err. unfold buildOnionMessageForPath. fold hops. rewrite Hb.
    split; [done|]. split; [done|]. intros He.
    destruct Hk as [?|(i & cause & ->)]; [done|]. exfalso.
    clear -Hb He. revert Hb. generalize 0%nat at 1. generalize hops at 2.
    intros rest. induction rest as [|hop0 rest IH]; intros n; simpl; [done|].
    destruct (hopInfoAt hops n hop0) as [err|info] eqn:H0.
    + intros [= ->]. unfold hopInfoAt in H0.
      destruct (ParsePubKey (vec_to_list hop0)); [done|].
      destruct (decide _).
      * destruct (He emptyBlindedRouteData) as [b Hb]. by rewrite Hb in H0.
      * destruct (hops !! S n); [|done].
        destruct (ParsePubKey (vec_to_list t)); [done|]. simpl in H0.
        destruct (He (NewNonFinalBlindedRouteDataOnionMessage (inl p0)))
          as [b Hb]. simpl in Hb. by rewrite Hb in H0.
    + destruct (buildHopInfos hops (S n) rest) eqn:Hr; [|done].
      intros [= ->]. by eapply IH.
Qed.

(** C6. A successful call of the builder has drawn exactly two session
    scalars from the source of randomness, one after the other; the first
    (the blinding scalar) is the one given to [BuildBlindedPath] and the
    second (the onion scalar) the one given to [NewOnionPacket]; the
    returned blinding key is the public key of the first, provided that
    [BuildBlindedPath] reports the session key it was given.  And two runs
    on the same path, reply path and final TLVs whose two draws have the
    same outcomes return the same result, byte for byte. *)
Theorem buildOnionMessageForPath_scalars (path : OnionMessagePath)
    (replyPath : option BlindedPath) (finalHopTLVs : list FinalHopTLV) :
  (∀ sk infos bp, BuildBlindedPath sk infos = inr bp -> SessionKey bp = sk) ->
  (∀ e blob blindingPub e',
     buildOnionMessageForPath path replyPath finalHopTLVs e
       = (inr (blob, blindingPub), e') ->
     ∃ blindingScalar onionScalar infos bp sphinxPath pkt,
       draws e (drawn e) = inr blindingScalar ∧
       draws e (S (drawn e)) = inr onionScalar ∧
       draws e' = draws e ∧ drawn e' = S (S (drawn e)) ∧
       buildHopInfos (Hops path) 0 (Hops path) = inr infos ∧
       BuildBlindedPath blindingScalar infos = inr bp ∧
       OnionMessageBlindedPathToSphinxPath (Path bp) replyPath finalHopTLVs
         = inr sphinxPath ∧
       NewOnionPacket sphinxPath onionScalar = inr pkt ∧
       EncodeOnionPacket pkt = inr blob ∧
       blindingPub = PubKey blindingScalar) ∧
  (∀ e1 e2,
     draws e1 (drawn e1) = draws e2 (drawn e2) ->
     draws e1 (S (drawn e1)) = draws e2 (S (drawn e2)) ->
     (buildOnionMessageForPath path replyPath finalHopTLVs e1).1 =
     (buildOnionMessageForPath path replyPath finalHopTLVs e2).1).
Proof.
  intros Hsession. split.
  - intros e blob blindingPub e'. unfold buildOnionMessageForPath, NewPrivateKey.
    simpl.
    destruct (buildHopInfos _ _ _) as [?|infos]; [done|].
    destruct (draws e (drawn e)) as [?|sk1] eqn:H1; [done|].
    destruct (BuildBlindedPath sk1 infos) as [?|bp] eqn:Hbp; [done|].
    destruct (OnionMessageBlindedPathToSphinxPath _ _ _) as [?|sp] eqn:Hsp;
      [done|].
    destruct (draws e (S (drawn e))) as [?|sk2] eqn:H2; [done|].
    destruct (NewOnionPacket sp sk2) as [?|pkt] eqn:Hpkt; [done|].
    destruct (EncodeOnionPacket pkt) as [?|buf] eqn:Hbuf; [done|].
    intros [= <- <- <-]. exists sk1, sk2, infos, bp, sp, pkt. simpl.
    rewrite (Hsession _ _ _ Hbp). done.
  - intros e1 e2 H1 H2. unfold buildOnionMessageForPath, NewPrivateKey. simpl.
    destruct (buildHopInfos _ _ _) as [?|infos]; [done|].
    rewrite H1. destruct (draws e2 (drawn e2)) as [?|sk1]; [done|].
    destruct (BuildBlindedPath sk1 infos) as [?|bp]; [done|].
    destruct (OnionMessageBlindedPathToSphinxPath _ _ _) as [?|sp]; [done|].
    rewrite H2. destruct (draws e2 (S (drawn e2))) as [?|sk2]; [done|].
    destruct (NewOnionPacket sp sk2) as [?|pkt]; [done|].
    by destruct (EncodeOnionPacket pkt).
Qed.

(** C7. Both entry points turn an empty path down before anything else
    happens: [SendToDestination] returns the error "path to self is not
    supported" when the path search returns a path without hops, and
    [SendDirectToDestination] returns the error "path must have at least
    one hop" when its path has none.  In both cases the world is left as it
    was: no session scalar has been drawn, so no onion has been built, and
    no actor has been told anything; this holds whatever the primitives
    would have answered. *)
Theorem empty_path_rejected (fuel : nat) (cfg : SendConfig ActorReceptionist)
    (destination : Vertex) (finalHopTLVs : list FinalHopTLV)
    (replyPath : option BlindedPath)
    (w : World PublicKey PrivateKey ActorRef) :
  (∀ path,
     FindPath fuel (Graph cfg) (OurPubKey cfg) destination (MaxHops cfg)
       = Some (inr path) ->
     Hops path = [] ->
     SendToDestination fuel cfg destination finalHopTLVs replyPath w =
     Some (Some (Errorf "path to self is not supported" None None), w)) ∧
  (∀ path,
     Hops path = [] ->
     SendDirectToDestination cfg path finalHopTLVs replyPath w =
     (Some (Errorf "path must have at least one hop" None None), w)).
Proof.
  split.
  - intros path Hf Hnil. unfold SendToDestination. rewrite Hf.
    rewrite decide_True by (by rewrite Hnil). done.
  - intros path Hnil. unfold SendDirectToDestination.
    rewrite decide_True by (by rewrite Hnil). done.
Qed.

(** C8. The dispatcher returns [ErrPeerActorNotFound] exactly when the
    lookup of the first hop's 33 bytes finds no actor, and then changes
    nothing.  When the lookup finds an actor, the dispatcher returns no
    error and the world differs from the one before by exactly one request
    told to that actor, carrying the onion message made of the blinding key
    and the onion blob; nothing is read back from the actor. *)
Theorem sendToFirstHop_spec (receptionist : ActorReceptionist)
    (firstHop : Vertex) (blindingKey : PublicKey)
    (onionBlob : list Byte.byte)
    (w : World PublicKey PrivateKey ActorRef) :
  ((sendToFirstHop receptionist firstHop blindingKey onionBlob w).1
     = Some ErrPeerActorNotFound <->
   findPeerActor receptionist firstHop = None) ∧
  (findPeerActor receptionist firstHop = None ->
   sendToFirstHop receptionist firstHop blindingKey onionBlob w
     = (Some ErrPeerActorNotFound, w)) ∧
  (∀ actorRef,
     findPeerActor receptionist firstHop = Some actorRef ->
     sendToFirstHop receptionist firstHop blindingKey onionBlob w =
     (None,
      {| entropy := entropy w;
         told := told w ++
           [(actorRef,
             {| msg := {| PathKey := blindingKey;
                          OnionBlob := onionBlob |} |})] |})).
Proof.
  unfold sendToFirstHop.
  destruct (findPeerActor receptionist firstHop) as [actorRef|]; simpl.
  - split; [split; done|]. split; [done|]. by intros ? [= <-].
  - split; [split; done|]. split; done.
Qed.

End SendFacts.

(* ===================================================================== *)
(** ** The scenarios of the tests, evaluated *)
(* ===================================================================== *)

Example scenario_direct_neighbor :
  FindPath 20 (mockTraverser graphDirect) node1 node2 20
  = Some (inr {| Hops := [node2] |}).
Proof. vm_compute. reflexivity. Qed.

Example scenario_multi_hop :
  FindPath 20 (mockTraverser graphChain) node1 node4 20
  = Some (inr {| Hops := [node2; node3; node4] |}).
Proof. vm_compute. reflexivity. Qed.

Example scenario_feature_filtering :
  FindPath 20 (mockTraverser graphFiltered) node1 node4 20
  = Some (inr {| Hops := [node3; node4] |}).
Proof. vm_compute. reflexivity. Qed.

Example scenario_hop_cap :
  FindPath 20 (mockTraverser graphChain) node1 node4 2
  = Some (inl ErrNoPathFound).
Proof. vm_compute. reflexivity. Qed.

Example scenario_shortest :
  FindPath 20 (mockTraverser graphShortcut) node1 node5 20
  = Some (inr {| Hops := [node5] |}).
Proof. vm_compute. reflexivity. Qed.

Example scenario_cycles :
  FindPath 20 (mockTraverser graphCycle) node1 node5 20
  = Some (inr {| Hops := [node2; node3; node5] |}).
Proof. vm_compute. reflexivity. Qed.

Example scenario_no_path :
  FindPath 20 (mockTraverser graphSelf) node1 node1 20
  = Some (inr {| Hops := [] |}) ∧
  FindPath 20 (mockTraverser graphNoSupport) node1 node2 20
  = Some (inl ErrDestinationNoOnionSupport) ∧
  FindPath 20 (mockTraverser graphMissing) node1 node2 20
  = Some (inl (ExternalError
       "node 020000000000000000000000000000000000000000000000000000000000000000 not found")).
Proof. vm_compute. done. Qed.

Example scenario_adapter_error :
  FindPath 20 brokenTraverser node1 node2 20
  = Some (inl (ExternalError "graph unavailable")).
Proof. vm_compute. reflexivity. Qed.

(* ===================================================================== *)
(** ** The statements at concrete inputs *)
(* ===================================================================== *)

(** C1, as the specification words it, fails where source and destination
    coincide: the path returned is empty, so it has no last vertex equal
    to the destination. *)
Lemma FindPath_self_path_without_last :
  FindPath 0 (mockTraverser graphSelf) node1 node1 20
    = Some (inr {| Hops := [] |}) ∧
  last (Hops {| Hops := [] |}) ≠ Some node1.
Proof. vm_compute. done. Qed.

Lemma FindPath_path_sound_witness :
  FindPath 20 (mockTraverser graphChain) node1 node4 20
    = Some (inr {| Hops := [node2; node3; node4] |}) ∧
  Z.of_nat (length [node2; node3; node4]) ≤ 20 ∧
  Forall (λ v, supports (mockTraverser graphChain) v = true)
    [node2; node3; node4] ∧
  (node1 ∉ [node2; node3; node4]) ∧
  NoDup [node2; node3; node4] ∧
  last [node2; node3; node4] = Some node4.
Proof.
  assert (FindPath 20 (mockTraverser graphChain) node1 node4 20
          = Some (inr {| Hops := [node2; node3; node4] |})) as Hf
    by (vm_compute; reflexivity).
  assert (0 ≤ 20) as Hk by lia.
  assert (Z.of_nat (length (Hops {| Hops := [node2; node3; node4] |}))
          ≤ maxInt) as Hlen by (vm_compute; discriminate).
  destruct (FindPath_path_sound _ _ _ _ _ _ Hk Hlen Hf)
    as (Hle & Hs & _ & Hsrc & Hnd & Hl & _).
  split; [exact Hf|]. split; [exact Hle|]. split; [exact Hs|].
  split; [exact Hsrc|]. split; [exact Hnd|]. apply Hl. by intros [=].
Defined.

Lemma FindPath_shortest_witness :
  (∃ p, FindPath 20 (mockTraverser graphFiltered) node1 node4 20
          = Some (inr p) ∧
        onionRoute (mockTraverser graphFiltered) node1 node4 (Hops p) ∧
        Z.of_nat (length (Hops p)) ≤ 20 ∧
        ∀ hops, onionRoute (mockTraverser graphFiltered) node1 node4 hops ->
                (length (Hops p) ≤ length hops)%nat).
Proof.
  assert (iterationsSucceed (mockTraverser graphFiltered)) as Hok
    by (intros u; reflexivity).
  assert (node1 ≠ node4) as Hne by (by intros [=]).
  assert (supports (mockTraverser graphFiltered) node4 = true) as Hs
    by (vm_compute; reflexivity).
  assert (20 < maxInt) as Hm by reflexivity.
  assert (Z.max 0 20 ≤ Z.of_nat 20) as Hfuel by (vm_compute; discriminate).
  destruct (FindPath_shortest 20 (mockTraverser graphFiltered) node1 node4 20
              Hok Hne Hs Hm Hfuel) as (Hfound & _ & _).
  apply Hfound. exists [node3; node4].
  split; [split; vm_compute; reflexivity|]. vm_compute. discriminate.
Defined.

Lemma FindPath_destination_first_witness :
  FindPath 0 (mockTraverser graphMissing) node1 node2 20
    = Some (inl (ExternalError
         "node 020000000000000000000000000000000000000000000000000000000000000000 not found")) ∧
  FindPath 0 (mockTraverser graphNoSupport) node1 node2 20
    = Some (inl ErrDestinationNoOnionSupport).
Proof.
  destruct (FindPath_destination_first (mockTraverser graphMissing)
              node1 node2 20) as [Hunknown _].
  destruct (FindPath_destination_first (mockTraverser graphNoSupport)
              node1 node2 20) as [_ Hnosupport].
  split.
  - apply Hunknown. vm_compute. reflexivity.
  - apply (Hnosupport emptyFeatures); vm_compute; reflexivity.
Defined.

Lemma FindPath_self_witness :
  FindPath 0 (mockTraverser graphSelf) node1 node1 0
    = Some (inr {| Hops := [] |}).
Proof.
  apply (FindPath_self 0 (mockTraverser graphSelf) node1 0 onionFeatures);
    vm_compute; reflexivity.
Defined.

Lemma FindPath_sentinel_internal_witness :
  FindPath 20 (mockTraverser graphChain) node1 node4 20
    ≠ Some (inl errBFSDone) ∧
  (∃ p, FindPath 20 (mockTraverser graphChain) node1 node4 20
          = Some (inr p) ∧ last (Hops p) = Some node4) ∧
  arrives flakyTraverser node1 node4 20 1 [node2; node5] 1 flakyLevelOne ∧
  expandLevel flakyTraverser node4 ([node2] ++ node5 :: [])
    (mkBFS (parent flakyLevelOne) (visited flakyLevelOne)
       (featureCache flakyLevelOne) [])
    = LevelError (ExternalError "graph unavailable") ∧
  FindPath 20 flakyTraverser node1 node4 20
    = Some (inl (ExternalError "graph unavailable")) ∧
  FindPath 20 brokenTraverser node1 node2 20
    = Some (inl (ExternalError "graph unavailable")).
Proof.
  destruct (FindPath_sentinel_internal 20 (mockTraverser graphChain)
              node1 node4 20) as (Hleak & _ & _ & _ & Hpath & _).
  destruct (FindPath_sentinel_internal 20 flakyTraverser node1 node4 20)
    as (_ & _ & Hiter & _ & _ & Hend & _).
  destruct (FindPath_sentinel_internal 20 brokenTraverser node1 node2 20)
    as (_ & _ & _ & _ & _ & _ & Hfail).
  assert (arrives flakyTraverser node1 node4 20 1 [node2; node5] 1
            flakyLevelOne) as Harrives.
  { apply (arrives_next flakyTraverser node1 node4 20 0 [node1] 0
             (initialState node1 node4) flakyLevelOne).
    - apply arrives_start.
    - discriminate.
    - vm_compute. reflexivity.
    - vm_compute. reflexivity. }
  assert (expandLevel flakyTraverser node4 [node2]
            (mkBFS (parent flakyLevelOne) (visited flakyLevelOne)
               (featureCache flakyLevelOne) []) = LevelNext flakyLevelTwo)
    as Hpre by (vm_compute; reflexivity).
  assert (ForEachNodeDirectedChannel flakyTraverser node5
            (visitChannel flakyTraverser node4 node5) flakyLevelTwo
          = (Some (ExternalError "graph unavailable"), flakyLevelTwo))
    as Hfe by (vm_compute; reflexivity).
  split; [exact Hleak|]. split; [|split; [exact Harrives|split; [|split]]].
  - apply (Hpath chainFound).
    + by intros [=].
    + vm_compute. reflexivity.
    + vm_compute. reflexivity.
  - destruct (Hiter [node2] node5 [] _ _ _ _ Hpre Hfe)
      as [(Hsent & _)|(m & _ & _ & Hlevel)].
    + discriminate Hsent.
    + exact Hlevel.
  - destruct (Hend 1%nat [node2; node5] 1 flakyLevelOne [node2] node5 []
                flakyLevelTwo (ExternalError "graph unavailable")
                flakyLevelTwo)
      as [(Hsent & _)|(m & Hm & _ & Hf)].
    + by intros [=].
    + vm_compute. reflexivity.
    + exact Harrives.
    + reflexivity.
    + vm_compute. reflexivity.
    + exact Hpre.
    + exact Hfe.
    + lia.
    + discriminate Hsent.
    + injection Hm as <-. exact Hf.
  - apply (Hfail []).
    + by intros [=].
    + reflexivity.
    + reflexivity.
    + apply not_elem_of_nil.
    + lia.
    + lia.
Defined.

Lemma reconstructPath_terminates_witness :
  parentChain (parent chainFound) node1 node4 [node2; node3; node4] ∧
  reconstructPath 3 (parent chainFound) node1 node4
    = Some {| Hops := [node2; node3; node4] |}.
Proof.
  assert (supports (mockTraverser graphChain) node4 = true) as Hs
    by (vm_compute; reflexivity).
  assert (node1 ≠ node4) as Hne by (by intros [=]).
  assert (bfsLoop 20 (mockTraverser graphChain) node4 20 [node1] 0
            (initialState node1 node4) = Some (inr chainFound)) as Hb
    by (vm_compute; reflexivity).
  destruct (reconstructPath_terminates 20 (mockTraverser graphChain)
              node1 node4 20 chainFound Hs Hne Hb)
    as (_ & _ & hops & Hc & _ & _ & _ & _ & Hrec & Huniq).
  assert (hops = [node2; node3; node4]) as ->.
  { symmetry. apply (Huniq 20%nat {| Hops := [node2; node3; node4] |}).
    vm_compute. reflexivity. }
  split; [exact Hc|]. apply Hrec. simpl. lia.
Defined.

Lemma buildOnionMessageForPath_hops_witness :
  (∃ infos,
     buildHopInfos (primitives := toyPrimitives) (Hops pathABC) 0
       (Hops pathABC) = inr infos) ∧
  (∃ err,
     buildOnionMessageForPath (primitives := toyPrimitives) pathBad None []
       toyEntropy = (inl err, toyEntropy) ∧
     InvalidHopKey err).
Proof.
  assert (0 < length (Hops pathABC))%nat as Hpos by (simpl; lia).
  assert (0 < length (Hops pathBad))%nat as Hpos' by (simpl; lia).
  destruct (buildOnionMessageForPath_hops (primitives := toyPrimitives)
              pathABC None [] toyEntropy Hpos) as (_ & Hok & _).
  destruct (buildOnionMessageForPath_hops (primitives := toyPrimitives)
              pathBad None [] toyEntropy Hpos') as (_ & _ & Hbad).
  split.
  - apply Hok.
    + intros hop Hin. simpl in Hin.
      repeat (apply elem_of_cons in Hin as [->|Hin]; [by eexists|]).
      by apply elem_of_nil in Hin.
    + intros rd. by eexists.
  - destruct (Hbad node1 "malformed public key: invalid format"%string)
      as (err & Hb & _ & Hk).
    + simpl. apply list_elem_of_further, list_elem_of_here.
    + reflexivity.
    + exists err. split; [exact Hb|]. apply Hk. intros rd. by eexists.
Defined.

Lemma buildOnionMessageForPath_scalars_witness :
  (∃ blob,
     (buildOnionMessageForPath (primitives := toyPrimitives) pathABC None []
        toyEntropy).1 = inr (blob, toyPubKey 7)) ∧
  (buildOnionMessageForPath (primitives := toyPrimitives) pathABC None []
     toyEntropy).1 =
  (buildOnionMessageForPath (primitives := toyPrimitives) pathABC None []
     toyEntropy').1.
Proof.
  assert (∀ sk infos bp,
            BuildBlindedPath (Primitives := toyPrimitives) sk infos = inr bp ->
            SessionKey bp = sk) as Hsession.
  { intros sk infos bp [= <-]. reflexivity. }
  destruct (buildOnionMessageForPath_scalars (primitives := toyPrimitives)
              pathABC None [] Hsession) as [Hdraws Hdet].
  split.
  - destruct (buildOnionMessageForPath (primitives := toyPrimitives) pathABC
                None [] toyEntropy) as [[err|[blob pub]] e'] eqn:Hb.
    + vm_compute in Hb. discriminate Hb.
    + destruct (Hdraws _ _ _ _ Hb)
        as (sk1 & sk2 & infos & bp & sp & pkt & H1 & _ & _ & _ & _ & _ & _
            & _ & _ & Hpub).
      injection H1 as <-. exists blob. simpl. by rewrite Hpub.
  - apply Hdet; reflexivity.
Defined.

Lemma empty_path_rejected_witness :
  SendToDestination (primitives := toyPrimitives) 0 toyConfig node1 [] None
    toyWorld
  = Some (Some (Errorf "path to self is not supported" None None), toyWorld) ∧
  SendDirectToDestination (primitives := toyPrimitives) toyConfig
    {| Hops := [] |} [] None toyWorld
  = (Some (Errorf "path must have at least one hop" None None), toyWorld).
Proof.
  destruct (empty_path_rejected (primitives := toyPrimitives) 0 toyConfig
              node1 [] None toyWorld) as [Hto Hdirect].
  split.
  - apply (Hto {| Hops := [] |}); [vm_compute|]; reflexivity.
  - apply Hdirect. reflexivity.
Defined.

Lemma sendToFirstHop_spec_witness :
  sendToFirstHop (primitives := toyPrimitives) (Receptionist toyConfig) keyB
    (toyPubKey 7) [Byte.xde; Byte.xad] toyWorld
  = (Some ErrPeerActorNotFound, toyWorld) ∧
  sendToFirstHop (primitives := toyPrimitives) (Receptionist toyConfig) keyA
    (toyPubKey 7) [Byte.xde; Byte.xad] toyWorld
  = (None,
     {| entropy := toyEntropy;
        told := [(5%nat,
                  {| msg := {| PathKey := toyPubKey 7;
                               OnionBlob := [Byte.xde; Byte.xad] |} |})] |}).
Proof.
  split.
  - destruct (sendToFirstHop_spec (primitives := toyPrimitives)
                (Receptionist toyConfig) keyB (toyPubKey 7)
                [Byte.xde; Byte.xad] toyWorld) as (_ & Hnone & _).
    apply Hnone. vm_compute. reflexivity.
  - destruct (sendToFirstHop_spec (primitives := toyPrimitives)
                (Receptionist toyConfig) keyA (toyPubKey 7)
                [Byte.xde; Byte.xad] toyWorld) as (_ & _ & Hsome).
    apply (Hsome 5%nat). vm_compute. reflexivity.
Defined.


(* ===================================================================== *)
(** ** Further properties of the path finder *)
(* ===================================================================== *)

Section MoreSearch.
Context (graph : NodeTraverser) (destination : Vertex).

(** The callback only ever adds to the visited set. *)
Lemma visitChannel_visited current channel st v :
  isVisited st v = true ->
  isVisited (visitChannel graph destination current channel st).2 v = true.
Proof.
  intros Hv. unfold visitChannel.
  destruct (isVisited st (OtherNode channel)); [done|].
  destruct (supportsOnionMessages graph _ _) as [[|] cache]; simpl; [|done].
  destruct (decide (OtherNode channel = destination)); simpl;
    apply isVisited_insert; by right.
Qed.

(** What one run of the callback does to the next queue. *)
Lemma visitChannel_queue current channel st :
  let r := visitChannel graph destination current channel st in
  nextQueue r.2 = nextQueue st ∨
  (nextQueue r.2 = nextQueue st ++ [OtherNode channel] ∧
   r.1 = None ∧
   isVisited st (OtherNode channel) = false ∧
   isVisited r.2 (OtherNode channel) = true ∧
   OtherNode channel ≠ destination).
Proof.
  unfold visitChannel.
  destruct (isVisited st (OtherNode channel)) eqn:Hvis; simpl; [by left|].
  destruct (supportsOnionMessages graph _ _) as [[|] cache]; simpl;
    [|by left].
  destruct (decide (OtherNode channel = destination)); simpl; [by left|].
  right. split; [done|]. split; [done|]. split; [done|]. split; [|done].
  apply isVisited_insert. by left.
Qed.

Lemma freshlyQueued_refl queue st : freshlyQueued graph destination queue st st [].
Proof.
  split; [by rewrite app_nil_r|]. split; [constructor|]. split; [done|].
  intros v Hv. by apply elem_of_nil in Hv.
Qed.

Lemma freshlyQueued_trans queue st1 st2 st3 new1 new2 :
  freshlyQueued graph destination queue st1 st2 new1 -> freshlyQueued graph destination queue st2 st3 new2 ->
  freshlyQueued graph destination queue st1 st3 (new1 ++ new2).
Proof.
  intros (Hq1 & Hnd1 & Hm1 & Hn1) (Hq2 & Hnd2 & Hm2 & Hn2).
  split; [by rewrite Hq2, Hq1, (assoc_L (++))|]. split; [|split].
  - apply NoDup_app. split; [done|]. split; [|done].
    intros v Hv1 Hv2. destruct (Hn1 v Hv1) as (_ & Hvis & _).
    destruct (Hn2 v Hv2) as (Hnot & _). congruence.
  - naive_solver.
  - intros v [Hv|Hv]%elem_of_app.
    + destruct (Hn1 v Hv) as (? & ? & ? & ?). naive_solver.
    + destruct (Hn2 v Hv) as (Hnot & ? & ? & ?).
      split; [|done]. destruct (isVisited st1 v) eqn:Hv1; [|done].
      rewrite (Hm1 v Hv1) in Hnot. done.
Qed.

Lemma forEachChannel_fresh queue current chans st :
  current ∈ queue ->
  (∀ c, c ∈ chans -> OtherNode c ∈ neighbors graph current) ->
  ∃ new, freshlyQueued graph destination queue st
           (forEachChannel (visitChannel graph destination current)
              chans st).2 new.
Proof.
  intros Hcur. revert st. induction chans as [|c chans IH]; intros st Hch.
  { exists []. apply freshlyQueued_refl. }
  simpl.
  assert (∃ new, freshlyQueued graph destination queue st
            (visitChannel graph destination current c st).2 new)
    as [new1 H1].
  { destruct (visitChannel_queue current c st) as [Hq|(Hq & _ & Hb & Ha & Hd)].
    - exists []. split; [by rewrite app_nil_r|]. split; [constructor|].
      split; [intros v; apply visitChannel_visited|].
      intros v Hv. by apply elem_of_nil in Hv.
    - exists [OtherNode c]. split; [done|]. split; [apply NoDup_singleton|].
      split; [intros v; apply visitChannel_visited|].
      intros v ->%list_elem_of_singleton. split; [done|]. split; [done|].
      split; [done|]. exists current. split; [done|].
      apply Hch, list_elem_of_here. }
  destruct (visitChannel graph destination current c st) as [[err|] st'];
    simpl in *.
  - by exists new1.
  - destruct (IH st') as [new2 H2].
    { intros c' Hc'. by apply Hch, list_elem_of_further. }
    exists (new1 ++ new2). by eapply freshlyQueued_trans.
Qed.

Lemma expandLevel_fresh queue todo st :
  (∀ u, u ∈ todo -> u ∈ queue) ->
  ∀ st', expandLevel graph destination todo st = LevelNext st' ->
  ∃ new, freshlyQueued graph destination queue st st' new.
Proof.
  revert st. induction todo as [|current todo IH]; intros st Hsub st'; simpl.
  { intros [= <-]. exists []. apply freshlyQueued_refl. }
  destruct (forEachChannel_fresh queue current (nodeChannels graph current).1
              st) as [new1 H1].
  { apply Hsub, list_elem_of_here. }
  { intros c Hc. unfold neighbors. by apply list_elem_of_fmap_2. }
  unfold ForEachNodeDirectedChannel.
  destruct (forEachChannel _ (nodeChannels graph current).1 st)
    as [[err|] st1]; simpl in *.
  - by destruct (decide (err = errBFSDone)).
  - destruct (nodeChannels graph current).2 as [m|]; simpl; [done|].
    intros Hl. destruct (IH st1) with (st' := st') as [new2 H2]; [|done|].
    { intros u Hu. by apply Hsub, list_elem_of_further. }
    exists (new1 ++ new2). by eapply freshlyQueued_trans.
Qed.
End MoreSearch.

(** X5.  No vertex enters a queue twice.  When a level has been expanded
    without finding the destination, the next queue consists of pairwise
    distinct vertices, none of which was visited when the level began
    (so none was in an earlier queue), all of which are visited now, none
    of which is the destination, and each of which is a neighbour of an
    entry of the queue just expanded; vertices visited before stay
    visited. *)
Theorem expandLevel_next_queue_fresh (graph : NodeTraverser)
    (destination : Vertex) (queue : list Vertex) (st st' : BFSState) :
  nextQueue st = [] ->
  expandLevel graph destination queue st = LevelNext st' ->
  NoDup (nextQueue st') ∧
  (∀ v, isVisited st v = true -> isVisited st' v = true) ∧
  ∀ v, v ∈ nextQueue st' ->
    isVisited st v = false ∧ isVisited st' v = true ∧ v ≠ destination ∧
    ∃ u, u ∈ queue ∧ v ∈ neighbors graph u.
Proof.
  intros Hnil Hl.
  destruct (expandLevel_fresh graph destination queue queue st
              (fun u Hu => Hu) st' Hl) as (new & Hq & Hnd & Hm & Hn).
  rewrite Hnil in Hq. simpl in Hq. rewrite Hq. done.
Qed.

(** X1.  The search always ends.  For every adapter (cyclic graphs,
    repeated channels and failing iterations included), every source and
    destination and every cap below the largest [int], [FindPath] returns
    after at most [max 0 maxHops] rounds of its outer loop. *)
Theorem FindPath_terminates (fuel : nat) (graph : NodeTraverser)
    (source destination : Vertex) (maxHops : Z) :
  maxHops < maxInt ->
  Z.max 0 maxHops ≤ Z.of_nat fuel ->
  ∃ r, FindPath fuel graph source destination maxHops = Some r.
Proof.
  intros Hm Hfuel. unfold FindPath.
  destruct (FetchNodeFeatures graph destination) as [m|fv] eqn:Hfv;
    [by eexists|].
  destruct (HasFeature fv OnionMessagesOptional) eqn:Hs; simpl;
    [|by eexists].
  destruct (decide (source = destination)) as [|Hne]; [by eexists|].
  assert (supports graph destination = true) as Hsup
    by (unfold supports; by rewrite Hfv).
  pose proof (bfsLoop_spec graph source destination fuel maxHops Hsup Hne)
    as Hspec.
  destruct (bfsLoop_total graph destination maxHops fuel [source] 0
              (initialState source destination) Hm) as [r Hr]; [lia..|].
  rewrite Hr in Hspec |- *. destruct r as [err|st]; [by eexists|].
  destruct Hspec as (_ & hops & Hc & _ & _ & Hlen & _).
  destruct (reconstructPath_chain _ _ _ _ fuel Hc) as [_ Hrec].
  rewrite (Hrec Hlen). by eexists.
Qed.

Section DirectNeighbor.
Context (graph : NodeTraverser) (source destination : Vertex).

(** While the destination is unvisited and cached as supporting, the
    iteration stops with the sentinel at its first channel to the
    destination. *)
Lemma forEachChannel_reaches current chans st :
  isVisited st destination = false ->
  featureCache st !! destination = Some true ->
  destination ∈ OtherNode <$> chans ->
  ∃ st', forEachChannel (visitChannel graph destination current) chans st
         = (Some errBFSDone, st') ∧
         parent st' !! destination = Some current.
Proof.
  revert st. induction chans as [|c chans IH]; intros st Hd Hc Hin.
  { by apply elem_of_nil in Hin. }
  simpl. destruct (decide (OtherNode c = destination)) as [Heq|Hne].
  - unfold visitChannel. rewrite Heq, Hd. unfold supportsOnionMessages.
    rewrite Hc. simpl. rewrite decide_True by done. eexists.
    split; [done|]. simpl. apply lookup_insert_eq.
  - assert (∃ st1, visitChannel graph destination current c st = (None, st1)
                   ∧ isVisited st1 destination = false
                   ∧ featureCache st1 !! destination = Some true)
      as (st1 & -> & Hd1 & Hc1).
    { unfold visitChannel.
      destruct (isVisited st (OtherNode c)) eqn:Hvis; [by eexists|].
      assert ((supportsOnionMessages graph (OtherNode c)
                 (featureCache st)).2 !! destination = Some true) as Hc'.
      { unfold supportsOnionMessages.
        destruct (featureCache st !! OtherNode c); [done|].
        destruct (FetchNodeFeatures graph (OtherNode c)); simpl;
          by rewrite lookup_insert_ne. }
      destruct (supportsOnionMessages graph _ _) as [[|] cache]; simpl in *.
      - rewrite decide_False by done. eexists. split; [done|]. split; [|done].
        apply not_true_is_false. intros [?|?]%isVisited_insert; congruence.
      - by eexists. }
    apply IH; [done..|].
    simpl in Hin. apply elem_of_cons in Hin as [?|?]; [congruence|done].
Qed.

(** X2.  A destination among the channels of the source is found at once.
    If the destination supports onion messages, differs from the source
    and is at the other end of a channel that the adapter presents for the
    source, then for every cap of at least one [FindPath] returns the path
    made of the destination alone, whatever else the graph holds and even
    if the adapter would have ended that iteration with an error. *)
Theorem FindPath_direct_neighbor (fuel : nat) (maxHops : Z) :
  source ≠ destination ->
  supports graph destination = true ->
  destination ∈ neighbors graph source ->
  1 ≤ maxHops ->
  (0 < fuel)%nat ->
  FindPath fuel graph source destination maxHops
    = Some (inr {| Hops := [destination] |}).
Proof.
  intros Hne Hs Hin Hk Hfuel.
  rewrite (FindPath_search _ _ _ _ _ Hs Hne).
  destruct fuel as [|n]; [lia|]. cbn [bfsLoop].
  change (wrapInt (0 + 1)) with 1.
  assert ((1 >? maxHops) = false) as -> by lia.
  cbn [expandLevel parent visited featureCache initialState].
  destruct (forEachChannel_reaches source (nodeChannels graph source).1
              (initialState source destination)) as (st' & Hfe & Hp).
  { unfold isVisited, initialState; simpl.
    by rewrite lookup_singleton_ne. }
  { simpl. apply lookup_singleton_eq. }
  { done. }
  unfold ForEachNodeDirectedChannel.
  change (mkBFS ∅ {[source := true]} {[destination := true]} [])
    with (initialState source destination).
  rewrite Hfe. rewrite decide_True by done.
  unfold reconstructPath. simpl. rewrite decide_False by done.
  rewrite Hp. simpl. destruct n; simpl; by rewrite decide_True.
Qed.
End DirectNeighbor.

(** X6.  The feature cache is written once per node.  After a call the
    node is cached with the answer given; entries of other nodes are left
    alone; an entry already present is returned and not replaced; a node
    whose features cannot be fetched is cached as not supporting; and
    asking about the same node again gives the same answer without
    changing the cache. *)
Theorem supportsOnionMessages_cache (graph : NodeTraverser) (node : Vertex)
    (cache : gmap Vertex bool) :
  let r := supportsOnionMessages graph node cache in
  r.2 !! node = Some r.1 ∧
  (∀ v, v ≠ node -> r.2 !! v = cache !! v) ∧
  (∀ b, cache !! node = Some b -> r = (b, cache)) ∧
  (cache !! node = None -> r.1 = supports graph node) ∧
  (∀ m, cache !! node = None -> FetchNodeFeatures graph node = inl m ->
        r = (false, <[node := false]> cache)) ∧
  supportsOnionMessages graph node r.2 = r.
Proof.
  unfold supportsOnionMessages, supports.
  destruct (cache !! node) as [b|] eqn:Hc; simpl.
  - rewrite Hc. split; [done|]. split; [done|]. split; [by intros ? [= ->]|].
    done.
  - destruct (FetchNodeFeatures graph node) as [m|fv]; simpl;
      rewrite lookup_insert_eq;
      (split; [done|]); (split; [by intros v Hv; rewrite lookup_insert_ne|]);
      done.
Qed.

Section Reconstruct.
Context (parent : gmap Vertex Vertex) (source : Vertex).

Lemma walkBack_last v hops :
  walkBack parent source v hops -> last (source :: hops) = Some v.
Proof.
  destruct 1 as [|v hops Hne Hw]; [done|].
  change (source :: hops ++ [v]) with ((source :: hops) ++ [v]).
  apply last_snoc.
Qed.

Lemma walkBack_links v hops :
  walkBack parent source v hops ->
  (source ∉ hops) ∧
  ∀ i u w, (source :: hops) !! i = Some u ->
           (source :: hops) !! S i = Some w ->
           w ≠ source ∧ parentOf parent w = u.
Proof.
  induction 1 as [|v hops Hne Hw [IHs IHl]].
  - split; [apply not_elem_of_nil|]. intros [|i] u w Hu Hv; done.
  - split.
    { intros [?|?%list_elem_of_singleton]%elem_of_app; done. }
    intros i u w Hu Hv.
    change (source :: hops ++ [v]) with ((source :: hops) ++ [v]) in Hu, Hv.
    destruct (decide (S i < length (source :: hops))%nat) as [Hlt|Hge].
    + rewrite lookup_app_l in Hu by lia. rewrite lookup_app_l in Hv by done.
      by eapply IHl.
    + assert (S i = length (source :: hops)) as Hi.
      { apply lookup_lt_Some in Hv. rewrite length_app in Hv. simpl in *.
        lia. }
      rewrite lookup_app_r in Hv by lia.
      replace (S i - length (source :: hops))%nat with 0%nat in Hv by lia.
      simpl in Hv. injection Hv as <-. split; [done|].
      rewrite lookup_app_l in Hu by lia.
      pose proof (walkBack_last _ _ Hw) as Hl.
      rewrite last_lookup in Hl. simpl length in Hl, Hi.
      replace (Nat.pred (S (length hops))) with i in Hl by lia.
      congruence.
Qed.

(** The loop of [reconstructPath] returns exactly when the walk back
    reaches the source within the iterations it is given. *)
Lemma walkParents_walkBack fuel : ∀ current path r,
  walkParents fuel parent source current path = Some r <->
  ∃ hops, walkBack parent source current hops ∧ (length hops ≤ fuel)%nat ∧
          r = path ++ reverse hops.
Proof.
  assert (∀ current hops hops',
            walkBack parent source current hops ->
            walkBack parent source current hops' -> hops = hops') as Hdet.
  { intros current hops hops' H. revert hops'.
    induction H as [|v hops Hne Hw IH]; intros hops' H'.
    - inversion H'; [done|]. congruence.
    - inversion H' as [|? hops2 ? Hw2]; subst; [done|].
      by rewrite (IH _ Hw2). }
  induction fuel as [|fuel IH]; intros current path r; simpl.
  - destruct (decide (current = source)) as [->|Hne].
    + split.
      * intros [= <-]. exists []. split; [constructor|].
        split; [done|]. by rewrite app_nil_r.
      * intros (hops & Hw & _ & ->).
        rewrite <- (Hdet _ _ _ (walkBack_source _ _) Hw). simpl.
        by rewrite app_nil_r.
    + split; [done|]. intros (hops & Hw & Hlen & _).
      inversion Hw as [|? hops' ? ?]; subst; [done|].
      rewrite length_app in Hlen. simpl in Hlen. lia.
  - destruct (decide (current = source)) as [->|Hne].
    + split.
      * intros [= <-]. exists []. split; [constructor|].
        split; [simpl; lia|]. by rewrite app_nil_r.
      * intros (hops & Hw & _ & ->).
        rewrite <- (Hdet _ _ _ (walkBack_source _ _) Hw). simpl.
        by rewrite app_nil_r.
    + fold (parentOf parent current). rewrite IH. split.
      * intros (hops & Hw & Hlen & ->). exists (hops ++ [current]).
        split; [by constructor|]. split.
        { rewrite length_app. simpl. lia. }
        rewrite reverse_app. simpl. by rewrite <- (assoc_L (++)).
      * intros (hops & Hw & Hlen & ->).
        inversion Hw as [|? hops' ? Hw']; subst; [done|].
        exists hops'. split; [done|]. split.
        { rewrite length_app in Hlen. simpl in Hlen. lia. }
        rewrite reverse_app. simpl. by rewrite <- (assoc_L (++)).
Qed.
End Reconstruct.

(** X7.  What [reconstructPath] returns on any parent map.  A returned path
    starts after the source and ends at the destination: the source is not
    on it, the last vertex of the source followed by the path is the
    destination, and every vertex on the path has, as the map reads, the
    vertex before it as parent (the first one has the source).  The path is
    no longer than the number of iterations the loop was given. *)
Theorem reconstructPath_links (fuel : nat) (parent : gmap Vertex Vertex)
    (source destination : Vertex) (p : OnionMessagePath) :
  reconstructPath fuel parent source destination = Some p ->
  (source ∉ Hops p) ∧
  last (source :: Hops p) = Some destination ∧
  (∀ i u w, (source :: Hops p) !! i = Some u ->
            (source :: Hops p) !! S i = Some w ->
            w ≠ source ∧ parentOf parent w = u) ∧
  (length (Hops p) ≤ fuel)%nat.
Proof.
  unfold reconstructPath. intros Hp.
  destruct (walkParents fuel parent source destination []) as [r|] eqn:Hr;
    [|done].
  simpl in Hp. injection Hp as <-. simpl.
  apply walkParents_walkBack in Hr as (hops & Hw & Hlen & ->). simpl.
  rewrite reverse_involutive.
  destruct (walkBack_links _ _ _ _ Hw) as [Hs Hl].
  split; [done|]. split; [by eapply walkBack_last|]. done.
Qed.

(** X8.  On a map that misses the destination, path reconstruction does
    not come back.  If the destination differs from the source and has no
    parent entry, the loop reads the zero vertex; if that is not the
    source and has no entry either, the loop stays on the zero vertex,
    appending it again and again: no number of iterations yields a
    result. *)
Theorem reconstructPath_missing_key (parent : gmap Vertex Vertex)
    (source destination : Vertex) :
  destination ≠ source ->
  parent !! destination = None ->
  zeroVertex ≠ source ->
  parent !! zeroVertex = None ->
  ∀ fuel, reconstructPath fuel parent source destination = None.
Proof.
  intros Hd Hpd Hz Hpz fuel.
  assert (∀ n path, walkParents n parent source zeroVertex path = None)
    as Hloop.
  { induction n as [|n IH]; intros path; simpl; rewrite decide_False by done;
      [done|]. rewrite Hpz. simpl. apply IH. }
  unfold reconstructPath. destruct fuel as [|n]; simpl;
    rewrite decide_False by done; [done|].
  rewrite Hpd. simpl. by rewrite Hloop.
Qed.

Section Caps.
Context (graph : NodeTraverser) (destination : Vertex).

Lemma bfsLoop_cap_mono maxHops maxHops' fuel : ∀ queue depth st r,
  maxHops ≤ maxHops' ->
  bfsLoop fuel graph destination maxHops queue depth st = Some r ->
  r ≠ inl ErrNoPathFound ->
  bfsLoop fuel graph destination maxHops' queue depth st = Some r.
Proof.
  intros queue depth st r Hle. revert queue depth st r.
  induction fuel as [|fuel IH]; intros queue depth st r.
  - destruct queue as [|q queue]; cbn [bfsLoop]; [by intros [= <-]|].
    destruct (wrapInt (depth + 1) >? maxHops); [by intros [= <-]|done].
  - destruct queue as [|q queue]; cbn [bfsLoop]; [by intros [= <-]|].
    destruct (wrapInt (depth + 1) >? maxHops) eqn:Hgt; [by intros [= <-]|].
    assert ((wrapInt (depth + 1) >? maxHops') = false) as -> by lia.
    destruct (expandLevel graph destination (q :: queue) _); [done..|].
    apply IH.
Qed.
End Caps.

(** X3.  Raising the cap keeps what was found.  If [FindPath] returns a
    path, or an error of the adapter, under some cap, it returns the same
    under every larger cap; only the answer [ErrNoPathFound] can change. *)
Theorem FindPath_cap_mono (fuel : nat) (graph : NodeTraverser)
    (source destination : Vertex) (maxHops maxHops' : Z)
    (r : result OnionMessagePath) :
  FindPath fuel graph source destination maxHops = Some r ->
  r ≠ inl ErrNoPathFound ->
  maxHops ≤ maxHops' ->
  FindPath fuel graph source destination maxHops' = Some r.
Proof.
  unfold FindPath. intros Hf Hr Hle.
  destruct (FetchNodeFeatures graph destination) as [|fv]; [done|].
  destruct (negb (HasFeature fv OnionMessagesOptional)); [done|].
  destruct (decide (source = destination)); [done|].
  destruct (bfsLoop fuel graph destination maxHops [source] 0 _)
    as [[err|st]|] eqn:Hb; [| |done].
  - rewrite (bfsLoop_cap_mono _ _ _ _ _ _ _ _ (inl err) Hle Hb); [done|].
    injection Hf as <-. congruence.
  - by rewrite (bfsLoop_cap_mono _ _ _ _ _ _ _ _ (inr st) Hle Hb).
Qed.

Section SourceFeatures.
Context (graph graph' : NodeTraverser) (source destination : Vertex).
Hypothesis same_features :
  ∀ v, v ≠ source -> FetchNodeFeatures graph v = FetchNodeFeatures graph' v.
Hypothesis same_channels : ∀ v, nodeChannels graph v = nodeChannels graph' v.

Lemma visitChannel_source current channel st :
  isVisited st source = true ->
  visitChannel graph destination current channel st
  = visitChannel graph' destination current channel st.
Proof.
  intros Hs. unfold visitChannel.
  destruct (isVisited st (OtherNode channel)) eqn:Hvis; [done|].
  assert (OtherNode channel ≠ source) as Hne by congruence.
  unfold supportsOnionMessages. by rewrite (same_features _ Hne).
Qed.

Lemma forEachChannel_source current chans : ∀ st,
  isVisited st source = true ->
  forEachChannel (visitChannel graph destination current) chans st
  = forEachChannel (visitChannel graph' destination current) chans st ∧
  isVisited (forEachChannel (visitChannel graph destination current)
               chans st).2 source = true.
Proof.
  induction chans as [|c chans IH]; intros st Hs; simpl; [done|].
  rewrite <- (visitChannel_source current c st Hs).
  pose proof (visitChannel_visited graph destination current c st source Hs)
    as Hs'.
  destruct (visitChannel graph destination current c st) as [[err|] st'];
    simpl in *; [done|]. by apply IH.
Qed.

Lemma expandLevel_source queue : ∀ st,
  isVisited st source = true ->
  expandLevel graph destination queue st
  = expandLevel graph' destination queue st ∧
  ∀ st', expandLevel graph destination queue st = LevelNext st' ->
         isVisited st' source = true.
Proof.
  induction queue as [|current queue IH]; intros st Hs; simpl.
  { split; [done|]. by intros ? [= <-]. }
  unfold ForEachNodeDirectedChannel. rewrite <- same_channels.
  destruct (forEachChannel_source current (nodeChannels graph current).1
              st Hs) as [<- Hs'].
  destruct (forEachChannel _ _ st) as [[err|] st1]; simpl in *.
  - split; [done|]. by destruct (decide (err = errBFSDone)).
  - destruct (nodeChannels graph current).2; simpl; [done|]. by apply IH.
Qed.

Lemma bfsLoop_source maxHops fuel : ∀ queue depth st,
  isVisited st source = true ->
  bfsLoop fuel graph destination maxHops queue depth st
  = bfsLoop fuel graph' destination maxHops queue depth st.
Proof.
  induction fuel as [|fuel IH]; intros queue depth st Hs;
    destruct queue as [|q queue]; cbn [bfsLoop]; [done..|].
  destruct (wrapInt (depth + 1) >? maxHops); [done|].
  destruct (expandLevel_source (q :: queue)
              (mkBFS (parent st) (visited st) (featureCache st) []) Hs)
    as [<- Hnext].
  destruct (expandLevel graph destination (q :: queue) _) as [| |st'];
    [done..|]. apply IH. by apply Hnext.
Qed.
End SourceFeatures.

(** X4.  The features of the source are never consulted.  For distinct
    source and destination, two adapters that present the same channels
    and agree on the features of every node but the source give the same
    result: the source may lack the feature, or be missing from the graph
    altogether. *)
Theorem FindPath_ignores_source_features (fuel : nat)
    (graph graph' : NodeTraverser) (source destination : Vertex)
    (maxHops : Z) :
  source ≠ destination ->
  (∀ v, v ≠ source ->
        FetchNodeFeatures graph v = FetchNodeFeatures graph' v) ->
  (∀ v, nodeChannels graph v = nodeChannels graph' v) ->
  FindPath fuel graph source destination maxHops
  = FindPath fuel graph' source destination maxHops.
Proof.
  intros Hne Hf Hc. unfold FindPath.
  rewrite <- (Hf destination) by done.
  destruct (FetchNodeFeatures graph destination) as [|fv]; [done|].
  destruct (negb (HasFeature fv OnionMessagesOptional)); [done|].
  destruct (decide (source = destination)); [done|].
  rewrite (bfsLoop_source graph graph' source destination Hf Hc); [done|].
  unfold isVisited, initialState; simpl. by rewrite lookup_singleton_eq.
Qed.

(** The errors [FindPath] can return. *)
Lemma FindPath_error_kinds (fuel : nat) (graph : NodeTraverser)
    (source destination : Vertex) (maxHops : Z) (err : error) :
  FindPath fuel graph source destination maxHops = Some (inl err) ->
  err = ErrNoPathFound ∨ err = ErrDestinationNoOnionSupport ∨
  ∃ m, err = ExternalError m.
Proof.
  intros Hf. unfold FindPath in Hf.
  destruct (FetchNodeFeatures graph destination) as [m|fv] eqn:Hfv.
  { injection Hf as <-. right; right. by exists m. }
  destruct (HasFeature fv OnionMessagesOptional) eqn:Hs; simpl in Hf;
    [|injection Hf as <-; by right; left].
  destruct (decide (source = destination)) as [|Hne]; [done|].
  assert (supports graph destination = true) as Hsup
    by (unfold supports; by rewrite Hfv).
  pose proof (bfsLoop_spec graph source destination fuel maxHops Hsup Hne)
    as Hspec.
  destruct (bfsLoop _ _ _ _ _ _ _) as [[e|st]|]; [| |done].
  - injection Hf as <-.
    destruct Hspec as [[-> _]|(m & u & -> & Hu)]; [by left|].
    right; right. by exists m.
  - by destruct (reconstructPath _ _ _ _).
Qed.


(* ===================================================================== *)
(** ** The mock graph *)
(* ===================================================================== *)

Lemma neighbors_mock (m : mockNodeTraverser) (u : Vertex) :
  neighbors (mockTraverser m) u = default [] (edges m !! u).
Proof.
  unfold neighbors; simpl.
  induction (default [] (edges m !! u)) as [|x l IH]; [done|].
  simpl. f_equal. exact IH.
Qed.

Lemma neighbors_addEdge (a b : Vertex) (m : mockNodeTraverser) (u : Vertex) :
  neighbors (mockTraverser (addEdge a b m)) u =
  neighbors (mockTraverser m) u
  ++ (if decide (u = a) then [b] else [])
  ++ (if decide (u = b) then [a] else []).
Proof.
  rewrite !neighbors_mock. unfold addEdge; simpl.
  destruct (decide (u = b)) as [->|Hub].
  - rewrite lookup_insert_eq; simpl.
    destruct (decide (b = a)) as [->|Hba].
    + rewrite lookup_insert_eq; simpl. by rewrite <- (assoc_L (++)).
    + rewrite lookup_insert_ne by done. done.
  - rewrite lookup_insert_ne by done.
    destruct (decide (u = a)) as [->|Hua].
    + rewrite lookup_insert_eq; simpl. done.
    + rewrite lookup_insert_ne by done. by rewrite app_nil_r.
Qed.

(** X9.  [addEdge a b] appends [b] to the neighbours of [a] and then [a] to
    the neighbours of [b], in this order, and changes nothing else: the
    neighbours of every other node and all features stay as they were.  An
    edge added twice is listed twice, and a loop at [a] lists [a] twice
    among its own neighbours. *)
Theorem addEdge_neighbors (a b : Vertex) (m : mockNodeTraverser) :
  (∀ u, neighbors (mockTraverser (addEdge a b m)) u =
        neighbors (mockTraverser m) u
        ++ (if decide (u = a) then [b] else [])
        ++ (if decide (u = b) then [a] else [])) ∧
  (∀ u, FetchNodeFeatures (mockTraverser (addEdge a b m)) u
        = FetchNodeFeatures (mockTraverser m) u).
Proof.
  split; [|done]. intros u. apply neighbors_addEdge.
Qed.

(** X10.  [addNode v fv] makes [fv] the features of [v], replacing any it
    had; the features of every other node and all channels stay as they
    were.  A node that was never added cannot be fetched: the mock reports
    it by the error whose text is the word node, the vertex in hexadecimal
    and the words not found; and so it does not support onion messages. *)
Theorem addNode_features (v : Vertex) (fv : FeatureVector)
    (m : mockNodeTraverser) :
  FetchNodeFeatures (mockTraverser (addNode v fv m)) v = inr fv ∧
  supports (mockTraverser (addNode v fv m)) v
    = bool_decide (OnionMessagesOptional ∈ fv) ∧
  (∀ u, u ≠ v ->
        FetchNodeFeatures (mockTraverser (addNode v fv m)) u
        = FetchNodeFeatures (mockTraverser m) u) ∧
  (∀ u, nodeChannels (mockTraverser (addNode v fv m)) u
        = nodeChannels (mockTraverser m) u) ∧
  (∀ u, features m !! u = None ->
        FetchNodeFeatures (mockTraverser m) u
        = inl ("node " +:+ Vertex_String u +:+ " not found")%string ∧
        supports (mockTraverser m) u = false).
Proof.
  unfold supports; simpl. rewrite lookup_insert_eq.
  split; [done|]. split; [done|]. split; [|split; [done|]].
  - intros u Hu. by rewrite lookup_insert_ne.
  - intros u ->. done.
Qed.

(** X11.  The mock is an undirected graph that never fails.  An iteration
    over the channels of the mock never ends with an error of its own; the
    empty mock is undirected, and [addEdge] and [addNode] keep a mock
    undirected: whenever [v] is listed for [u], [u] is listed for [v]. *)
Theorem mock_graph_undirected :
  (∀ m, iterationsSucceed (mockTraverser m)) ∧
  undirected (mockTraverser newMockNodeTraverser) ∧
  (∀ a b m, undirected (mockTraverser m) ->
            undirected (mockTraverser (addEdge a b m))) ∧
  (∀ v fv m, undirected (mockTraverser m) ->
             undirected (mockTraverser (addNode v fv m))).
Proof.
  split; [done|]. split; [|split].
  - intros u v. rewrite !neighbors_mock. simpl. rewrite !lookup_empty.
    simpl. split; intros H; by apply elem_of_nil in H.
  - intros a b m Hm u v.
    rewrite !neighbors_addEdge.
    rewrite !elem_of_app, (Hm u v).
    repeat case_decide; subst;
      rewrite ?list_elem_of_singleton, ?elem_of_nil; naive_solver.
  - intros v fv m Hm u w. apply Hm.
Qed.


(* ===================================================================== *)
(** ** Further properties of the builder and of the two entry points *)
(* ===================================================================== *)

Section MoreSendFacts.
Context {PublicKey PrivateKey : Type}.
Context {BlindedPath PaymentPath OnionPacket : Type}.
Context {ActorReceptionist ActorRef : Type}.
Context {primitives : Primitives PublicKey PrivateKey BlindedPath PaymentPath
                        OnionPacket ActorReceptionist ActorRef}.

(** The hop loop reads [hops[i+1]] only where it exists. *)
Lemma buildHopInfos_in_range hops msg : ∀ rest i,
  drop i hops = rest ->
  buildHopInfos hops i rest ≠ inl (runtimePanic msg).
Proof.
  induction rest as [|hop0 rest IH]; intros i Hd; [done|].
  assert (drop (S i) hops = rest) as Hd'.
  { replace (S i) with (i + 1)%nat by lia.
    by rewrite <- drop_drop, Hd. }
  assert (length hops = (i + S (length rest))%nat) as Hlen.
  { assert (i < length hops)%nat as Hi.
    { destruct (decide (i < length hops)%nat); [done|].
      rewrite drop_ge in Hd by lia. done. }
    apply (f_equal length) in Hd. rewrite length_drop in Hd. simpl in Hd.
    lia. }
  cbn [buildHopInfos].
  destruct (hopInfoAt hops i hop0) as [err|info] eqn:H0.
  - intros [= ->]. unfold hopInfoAt in H0.
    destruct (ParsePubKey (vec_to_list hop0)); [done|].
    destruct (decide (Z.of_nat i = Z.of_nat (length hops) - 1)) as [|Hi].
    + by destruct (EncodeBlindedRouteData _).
    + destruct (hops !! S i) as [next|] eqn:Hn.
      * destruct (ParsePubKey (vec_to_list next)); [done|]. simpl in H0.
        by destruct (EncodeBlindedRouteData _).
      * apply lookup_ge_None in Hn. unfold Vertex in *. lia.
  - specialize (IH (S i) Hd').
    by destruct (buildHopInfos hops (S i) rest).
Qed.

(** X12.  The builder and the entry points never index out of range.  The
    hop loop reads the hop after the current one only when the current one
    is not the last, and the entry points read the first hop only after
    the length check: no call ends in a run-time panic, neither directly
    nor as the cause of the error returned. *)
Theorem send_never_panics (fuel : nat) (cfg : SendConfig ActorReceptionist)
    (destination : Vertex) (path : OnionMessagePath)
    (finalHopTLVs : list FinalHopTLV) (replyPath : option BlindedPath)
    (w : World PublicKey PrivateKey ActorRef) (msg : string) :
  (buildOnionMessageForPath path replyPath finalHopTLVs (entropy w)).1
    ≠ inl (runtimePanic msg) ∧
  (∀ err, (SendDirectToDestination cfg path finalHopTLVs replyPath w).1
          = Some err ->
          err ≠ runtimePanic msg ∧
          ∀ format hop, err ≠ Errorf format hop (Some (runtimePanic msg))) ∧
  (∀ err w',
     SendToDestination fuel cfg destination finalHopTLVs replyPath w
       = Some (Some err, w') ->
     err ≠ runtimePanic msg ∧
     ∀ format hop, err ≠ Errorf format hop (Some (runtimePanic msg))).
Proof.
  assert (∀ p e,
    (buildOnionMessageForPath p replyPath finalHopTLVs e).1
      ≠ inl (runtimePanic msg)) as Hbuild.
  { intros p e. unfold buildOnionMessageForPath, NewPrivateKey.
    pose proof (buildHopInfos_in_range (Hops p) msg (Hops p) 0 eq_refl) as H.
    destruct (buildHopInfos _ _ _) as [err|infos]; simpl; [congruence|].
    destruct (draws e (drawn e)); simpl; [done|].
    destruct (BuildBlindedPath _ _); simpl; [done|].
    destruct (OnionMessageBlindedPathToSphinxPath _ _ _); simpl; [done|].
    destruct (draws e (S (drawn e))); simpl; [done|].
    destruct (NewOnionPacket _ _); simpl; [done|].
    by destruct (EncodeOnionPacket _). }
  assert (∀ p err,
    (SendDirectToDestination cfg p finalHopTLVs replyPath w).1 = Some err ->
    err ≠ runtimePanic msg ∧
    ∀ format hop, err ≠ Errorf format hop (Some (runtimePanic msg)))
    as Hdirect.
  { intros p err. unfold SendDirectToDestination.
    destruct (decide (length (Hops p) = 0%nat)) as [|Hlen]; simpl.
    { intros [= <-]. done. }
    specialize (Hbuild p (entropy w)).
    destruct (buildOnionMessageForPath p _ _ _) as [[e|[blob key]] e'];
      simpl in *.
    { intros [= <-]. split; [done|]. intros ? ? [= _ _ ->]. done. }
    destruct (Hops p) as [|first rest]; [done|]. simpl.
    unfold sendToFirstHop. destruct (findPeerActor _ _); simpl; [done|].
    intros [= <-]. done. }
  split; [apply Hbuild|]. split; [apply Hdirect|].
  intros err w'. unfold SendToDestination.
  destruct (FindPath _ _ _ _ _) as [[e|p]|] eqn:Hf; [| |done].
  { intros [= <- <-].
    pose proof (FindPath_error_kinds fuel (Graph cfg) (OurPubKey cfg)
                  destination (MaxHops cfg) e Hf) as He.
    destruct He as [->|[->|(m & ->)]]; done. }
  specialize (Hdirect p). unfold SendDirectToDestination in Hdirect.
  destruct (decide (length (Hops p) = 0%nat)); [by intros [= <- <-]|].
  destruct (buildOnionMessageForPath p _ _ _) as [[e|[blob key]] e'];
    simpl in *.
  { intros [= <- <-]. by apply Hdirect. }
  destruct (Hops p) as [|first rest]; [done|]. simpl in *.
  intros [= Hs]. apply Hdirect. by rewrite Hs.
Qed.

(** X13.  What a failed build has consumed, and which step failed.  A
    build never alters the outcomes of the draws.  A failed build is in
    one of seven cases.  The hop loop failed: the error is the loop's and
    nothing has been drawn.  Otherwise the loop gave the hop infos, and:
    the first draw failed, the error is "generate session key" around the
    error of that draw; or [BuildBlindedPath], given the first scalar and
    the hop infos, failed, the error is "build blinded path" around its
    error; or [OnionMessageBlindedPathToSphinxPath], given the blinded
    path, the reply path and the TLVs, failed, the error is "convert to
    sphinx path" around its error: in these three cases exactly one draw
    has been made.  Or the second draw failed, the error is "generate
    onion key" around the error of that draw; or [NewOnionPacket], given
    the sphinx path and the second scalar, failed, the error is "create
    onion packet" around its error; or [EncodeOnionPacket], given the
    packet, failed, the error is "encode onion packet" around its error:
    in these three cases exactly two draws have been made. *)
Theorem buildOnionMessageForPath_failure_stages (path : OnionMessagePath)
    (replyPath : option BlindedPath) (finalHopTLVs : list FinalHopTLV)
    (e e' : Entropy PrivateKey) (err : error) :
  buildOnionMessageForPath path replyPath finalHopTLVs e = (inl err, e') ->
  draws e' = draws e ∧
  ((buildHopInfos (Hops path) 0 (Hops path) = inl err ∧ e' = e) ∨
   ∃ infos, buildHopInfos (Hops path) 0 (Hops path) = inr infos ∧
   ((∃ cause,
       draws e (drawn e) = inl cause ∧
       err = Errorf "generate session key: %w" None
               (Some (ExternalError cause)) ∧
       drawn e' = S (drawn e)) ∨
    ∃ sessionKey, draws e (drawn e) = inr sessionKey ∧
    ((∃ cause,
        BuildBlindedPath sessionKey infos = inl cause ∧
        err = Errorf "build blinded path: %w" None
                (Some (ExternalError cause)) ∧
        drawn e' = S (drawn e)) ∨
     ∃ blindedPath, BuildBlindedPath sessionKey infos = inr blindedPath ∧
     ((∃ cause,
         OnionMessageBlindedPathToSphinxPath (Path blindedPath) replyPath
           finalHopTLVs = inl cause ∧
         err = Errorf "convert to sphinx path: %w" None
                 (Some (ExternalError cause)) ∧
         drawn e' = S (drawn e)) ∨
      ∃ sphinxPath,
        OnionMessageBlindedPathToSphinxPath (Path blindedPath) replyPath
          finalHopTLVs = inr sphinxPath ∧
      ((∃ cause,
          draws e (S (drawn e)) = inl cause ∧
          err = Errorf "generate onion key: %w" None
                  (Some (ExternalError cause)) ∧
          drawn e' = S (S (drawn e))) ∨
       ∃ onionSessionKey, draws e (S (drawn e)) = inr onionSessionKey ∧
       ((∃ cause,
           NewOnionPacket sphinxPath onionSessionKey = inl cause ∧
           err = Errorf "create onion packet: %w" None
                   (Some (ExternalError cause)) ∧
           drawn e' = S (S (drawn e))) ∨
        ∃ onionPkt cause,
          NewOnionPacket sphinxPath onionSessionKey = inr onionPkt ∧
          EncodeOnionPacket onionPkt = inl cause ∧
          err = Errorf "encode onion packet: %w" None
                  (Some (ExternalError cause)) ∧
          drawn e' = S (S (drawn e)))))))).
Proof.
  unfold buildOnionMessageForPath, NewPrivateKey. simpl.
  destruct (buildHopInfos _ _ _) as [?|infos].
  { intros [= <- <-]. split; [done|]. by left. }
  destruct (draws e (drawn e)) as [c|sk1] eqn:H1.
  { intros [= <- <-]. split; [done|]. right. exists infos. split; [done|].
    left. by exists c. }
  destruct (BuildBlindedPath sk1 infos) as [c|bp] eqn:H2.
  { intros [= <- <-]. split; [done|]. right. exists infos. split; [done|].
    right. exists sk1. split; [done|]. left. by exists c. }
  destruct (OnionMessageBlindedPathToSphinxPath _ _ _) as [c|sp] eqn:H3.
  { intros [= <- <-]. split; [done|]. right. exists infos. split; [done|].
    right. exists sk1. split; [done|]. right. exists bp. split; [done|].
    left. by exists c. }
  destruct (draws e (S (drawn e))) as [c|sk2] eqn:H4.
  { intros [= <- <-]. split; [done|]. right. exists infos. split; [done|].
    right. exists sk1. split; [done|]. right. exists bp. split; [done|].
    right. exists sp. split; [done|]. left. by exists c. }
  destruct (NewOnionPacket sp sk2) as [c|pkt] eqn:H5.
  { intros [= <- <-]. split; [done|]. right. exists infos. split; [done|].
    right. exists sk1. split; [done|]. right. exists bp. split; [done|].
    right. exists sp. split; [done|]. right. exists sk2. split; [done|].
    left. by exists c. }
  destruct (EncodeOnionPacket pkt) as [c|buf] eqn:H6; [|done].
  intros [= <- <-]. split; [done|]. right. exists infos. split; [done|].
  right. exists sk1. split; [done|]. right. exists bp. split; [done|].
  right. exists sp. split; [done|]. right. exists sk2. split; [done|].
  right. by exists pkt, c.
Qed.

(** X14.  What a direct send does to the world.  The requests told before
    stay as they are, in order.  The call returns no error exactly when it
    has told one new request; that request goes to the actor registered for
    the first hop of the path (not for its destination) and carries the
    blinding key and the onion blob that the builder returned for the
    path.  When the call returns an error, nothing has been told. *)
Theorem SendDirectToDestination_effects (cfg : SendConfig ActorReceptionist)
    (path : OnionMessagePath) (finalHopTLVs : list FinalHopTLV)
    (replyPath : option BlindedPath)
    (w : World PublicKey PrivateKey ActorRef) :
  let r := SendDirectToDestination cfg path finalHopTLVs replyPath w in
  (r.1 = None ∧
   ∃ firstHop actorRef blob blindingKey,
     Hops path !! 0%nat = Some firstHop ∧
     findPeerActor (Receptionist cfg) firstHop = Some actorRef ∧
     buildOnionMessageForPath path replyPath finalHopTLVs (entropy w)
       = (inr (blob, blindingKey), entropy r.2) ∧
     told r.2 = told w ++
       [(actorRef,
         {| msg := {| PathKey := blindingKey; OnionBlob := blob |} |})]) ∨
  (r.1 ≠ None ∧ told r.2 = told w).
Proof.
  unfold SendDirectToDestination.
  destruct (decide (length (Hops path) = 0%nat)) as [|Hlen]; simpl.
  { by right. }
  destruct (buildOnionMessageForPath path _ _ _) as [[err|[blob key]] e']
    eqn:Hb; simpl.
  { by right. }
  destruct (Hops path) as [|first rest]; [done|]. simpl.
  unfold sendToFirstHop.
  destruct (findPeerActor (Receptionist cfg) first) as [ref|] eqn:Hf; simpl.
  - left. split; [done|]. by exists first, ref, blob, key.
  - by right.
Qed.

(** X15.  A send with path finding is a direct send over the path found.
    When the path search runs out of fuel, so does the send; when it
    returns an error, the send returns that very error and the world is
    untouched; when it returns a path with at least one hop, the send does
    exactly what [SendDirectToDestination] does on that path. *)
Theorem SendToDestination_composes (fuel : nat)
    (cfg : SendConfig ActorReceptionist) (destination : Vertex)
    (finalHopTLVs : list FinalHopTLV) (replyPath : option BlindedPath)
    (w : World PublicKey PrivateKey ActorRef) :
  match FindPath fuel (Graph cfg) (OurPubKey cfg) destination (MaxHops cfg)
  with
  | None =>
      SendToDestination fuel cfg destination finalHopTLVs replyPath w = None
  | Some (inl err) =>
      SendToDestination fuel cfg destination finalHopTLVs replyPath w
      = Some (Some err, w)
  | Some (inr path) =>
      Hops path ≠ [] ->
      SendToDestination fuel cfg destination finalHopTLVs replyPath w
      = Some (SendDirectToDestination cfg path finalHopTLVs replyPath w)
  end.
Proof.
  unfold SendToDestination, SendDirectToDestination.
  destruct (FindPath _ _ _ _ _) as [[err|path]|]; [done| |done].
  intros Hne.
  destruct (decide (length (Hops path) = 0%nat)) as [Hlen|Hlen].
  { by destruct (Hops path). }
  destruct (buildOnionMessageForPath path _ _ _) as [[err|[blob key]] e'];
    [done|].
  by destruct (Hops path !! 0%nat).
Qed.

(** X16.  A send with path finding only ever tells a peer across a channel.
    Whenever [SendToDestination] has told a request, it has told exactly
    one, to the actor registered for a node that is at the other end of a
    channel of our own node, that supports onion messages and that is not
    our own node, and the call has returned no error; in every other case
    it has told nothing. *)
Theorem SendToDestination_tells_neighbor (fuel : nat)
    (cfg : SendConfig ActorReceptionist) (destination : Vertex)
    (finalHopTLVs : list FinalHopTLV) (replyPath : option BlindedPath)
    (w w' : World PublicKey PrivateKey ActorRef) (res : option error) :
  SendToDestination fuel cfg destination finalHopTLVs replyPath w
    = Some (res, w') ->
  (res ≠ None ∧ told w' = told w) ∨
  (res = None ∧
   ∃ firstHop actorRef req,
     firstHop ∈ neighbors (Graph cfg) (OurPubKey cfg) ∧
     supports (Graph cfg) firstHop = true ∧
     firstHop ≠ OurPubKey cfg ∧
     findPeerActor (Receptionist cfg) firstHop = Some actorRef ∧
     told w' = told w ++ [(actorRef, req)]).
Proof.
  unfold SendToDestination.
  destruct (FindPath _ _ _ _ _) as [[err|path]|] eqn:Hf; [| |done].
  { intros [= <- <-]. by left. }
  destruct (decide (length (Hops path) = 0%nat)) as [Hlen|Hlen].
  { intros [= <- <-]. by left. }
  destruct (buildOnionMessageForPath path _ _ _) as [[err|[blob key]] e'].
  { intros [= <- <-]. by left. }
  destruct (Hops path !! 0%nat) as [first|] eqn:Hfirst.
  2: { intros [= <- <-]. by left. }
  unfold sendToFirstHop.
  destruct (findPeerActor (Receptionist cfg) first) as [ref|] eqn:Hactor;
    simpl.
  2: { intros [= <- <-]. by left. }
  intros [= <- <-]. right. split; [done|]. exists first, ref. eexists.
  assert (OurPubKey cfg ≠ destination) as Hsd.
  { intros Heq. unfold FindPath in Hf. rewrite <- Heq in Hf.
    destruct (FetchNodeFeatures _ _); [done|].
    destruct (negb _); [done|]. rewrite decide_True in Hf by done.
    injection Hf as <-. done. }
  destruct (FindPath_path _ _ _ _ _ _ Hsd Hf)
    as (st & _ & Hchain & [Hwalk _] & _).
  destruct (parentChain_NoDup _ _ _ _ Hchain) as [_ Hsrc].
  destruct (Hops path) as [|h rest]; [done|]. simpl in *.
  injection Hfirst as ->.
  apply andb_true_iff in Hwalk as [Hw _].
  apply andb_true_iff in Hw as [Hedge Hsup].
  apply bool_decide_eq_true in Hedge.
  split; [done|]. split; [done|]. split; [|done].
  intros ->. apply Hsrc. apply list_elem_of_here.
Qed.

End MoreSendFacts.

(** ** The command line *)
Section CommandsFacts.
Import Stdlib.Strings.Ascii Commands.
Context {Response Message : Type} {library : Library}.

Lemma Cut_spec (s : string) (sep : ascii) :
  match Cut s sep with
  | Some (before, after) =>
      s = (before +:+ String sep after)%string ∧
      sep ∉ list_ascii_of_string before
  | None => sep ∉ list_ascii_of_string s
  end.
Proof.
  induction s as [|c s IH]; simpl.
  - apply not_elem_of_nil.
  - destruct (decide (c = sep)) as [->|Hne].
    + split; [done|]. apply not_elem_of_nil.
    + destruct (Cut s sep) as [[before after]|].
      * destruct IH as [-> Hnot]. split; [done|]. simpl.
        rewrite not_elem_of_cons. by split.
      * rewrite not_elem_of_cons. by split.
Qed.

Lemma Cut_app (before after : string) (sep : ascii) :
  sep ∉ list_ascii_of_string before ->
  Cut (before +:+ String sep after) sep = Some (before, after).
Proof.
  induction before as [|c before IH]; simpl; intros Hnot.
  - by rewrite decide_True.
  - apply not_elem_of_cons in Hnot as [Hne Hnot].
    rewrite decide_False by done. by rewrite IH.
Qed.

Lemma tlvLoop_app (a b : list string) (tlvs : gmap N (list Byte.byte)) :
  tlvLoop (a ++ b) tlvs
  = match tlvLoop a tlvs with
    | inl err => inl err
    | inr tlvs' => tlvLoop b tlvs'
    end.
Proof.
  revert tlvs. induction a as [|entry a IH]; intros tlvs; simpl; [done|].
  destruct (tlvEntry entry tlvs); [done|]. apply IH.
Qed.


Lemma tlvEntry_inr (entry : string) (tlvs tlvs' : gmap N (list Byte.byte)) :
  tlvEntry entry tlvs = inr tlvs' ->
  ∃ part0 part1 tlvType val,
    entry = (part0 +:+ String "="%char part1)%string ∧
    ("="%char ∉ list_ascii_of_string part0) ∧
    ParseUint part0 = inr tlvType ∧ DecodeString part1 = inr val ∧
    tlvs' = <[tlvType := val]> tlvs.
Proof.
  unfold tlvEntry, SplitN. pose proof (Cut_spec entry "="%char) as Hcut.
  destruct (Cut entry "="%char) as [[part0 part1]|]; [|done].
  destruct Hcut as [-> Hnot].
  destruct (ParseUint part0) as [|tlvType] eqn:Ht; [done|].
  destruct (DecodeString part1) as [|val] eqn:Hv; [done|].
  intros [= <-]. by exists part0, part1, tlvType, val.
Qed.

Lemma tlvLoop_keeps (entries : list string)
    (tlvs tlvs' : gmap N (list Byte.byte)) (t : N) :
  tlvLoop entries tlvs = inr tlvs' ->
  is_Some (tlvs !! t) -> is_Some (tlvs' !! t).
Proof.
  revert tlvs. induction entries as [|entry entries IH]; intros tlvs; simpl.
  - by intros [= <-].
  - destruct (tlvEntry entry tlvs) as [|tlvs0] eqn:He; [done|].
    intros Hl Hs. apply (IH _ Hl).
    destruct (tlvEntry_inr _ _ _ He) as (_ & _ & t0 & v0 & _ & _ & _ & _ & ->).
    destruct (decide (t0 = t)) as [->|Hne].
    + rewrite lookup_insert_eq. by eexists.
    + by rewrite lookup_insert_ne.
Qed.

Lemma tlvLoop_nonempty (entries : list string)
    (tlvs' : gmap N (list Byte.byte)) :
  (0 < length entries)%nat -> tlvLoop entries ∅ = inr tlvs' -> tlvs' ≠ ∅.
Proof.
  destruct entries as [|entry entries]; simpl; [lia|]. intros _.
  destruct (tlvEntry entry ∅) as [|tlvs0] eqn:He; [done|]. intros Hl.
  destruct (tlvEntry_inr _ _ _ He) as (_ & _ & t0 & v0 & _ & _ & _ & _ & ->).
  intros ->.
  destruct (tlvLoop_keeps _ _ _ t0 Hl) as [v Hv].
  - rewrite lookup_insert_eq. by eexists.
  - by rewrite lookup_empty in Hv.
Qed.

Lemma tlvLoop_bad_entry (entries : list string) (entry : string)
    (tlvs : gmap N (list Byte.byte)) :
  entry ∈ entries -> "="%char ∉ list_ascii_of_string entry ->
  ∃ err, tlvLoop entries tlvs = inl err.
Proof.
  intros Hin Hnot. revert tlvs.
  induction entries as [|e entries IH]; intros tlvs.
  { by apply elem_of_nil in Hin. }
  simpl. destruct (tlvEntry e tlvs) as [err|tlvs0] eqn:He; [by eexists|].
  apply elem_of_cons in Hin as [<-|Hin]; [|by apply IH].
  destruct (tlvEntry_inr _ _ _ He) as (p0 & p1 & _ & _ & -> & _).
  exfalso. apply Hnot.
  clear. induction p0 as [|c p0 IH]; simpl.
  - apply list_elem_of_here.
  - by apply list_elem_of_further.
Qed.

Lemma sendOnionRequest_error (ctx : Context) (err : error) :
  sendOnionRequest ctx = inl err ->
  ∃ format quoted cause, err = Errorf format quoted cause.
Proof.
  unfold sendOnionRequest.
  destruct (decide (_ ∧ _)); [intros [= <-]; by eauto|].
  destruct (decide (StringFlag ctx "destination" ≠ "")).
  - destruct (DecodeString _); [intros [= <-]; by eauto|].
    destruct (decide _); [|done].
    destruct (tlvLoop _ _) as [e|] eqn:Hl; [|done]. intros [= <-].
    clear -Hl. revert Hl. generalize (∅ : gmap N (list Byte.byte)).
    induction (StringSliceFlag ctx "tlv") as [|entry entries IH];
      intros tlvs; simpl; [done|].
    destruct (tlvEntry entry tlvs) as [e0|tlvs0] eqn:He.
    + intros [= <-]. unfold tlvEntry in He.
      destruct (SplitN entry "="%char) as [|p0 [|p1 [|? ?]]];
        try (injection He as <-; by eauto).
      destruct (ParseUint p0); [injection He as <-; by eauto|].
      destruct (DecodeString p1); [injection He as <-; by eauto|done].
    + apply IH.
  - destruct (decide _); [|intros [= <-]; by eauto].
    repeat (destruct (DecodeString _); [intros [= <-]; by eauto|]). done.
Qed.

(** X17.  What [sendonion] does.  The command prints a response exactly when
    it returns no error, and then it has made one call and printed the
    response to it.  An error of the server is returned as it is, after the
    one call and with nothing printed.  Every other error is one the
    command makes itself, and then the server has not been called. *)
Theorem sendOnion_effects (ctx : Context) (client : Client Response Message) :
  match sendOnion ctx client with
  | (None, trace) =>
      ∃ req resp, sendOnionRequest ctx = inr req ∧
        SendOnionMessage client req = inr resp ∧
        trace = [Called req; Printed resp]
  | (Some (ExternalError msg), trace) =>
      ∃ req, sendOnionRequest ctx = inr req ∧
        SendOnionMessage client req = inl msg ∧ trace = [Called req]
  | (Some (Errorf format quoted cause), trace) =>
      sendOnionRequest ctx = inl (Errorf format quoted cause) ∧ trace = []
  end.
Proof.
  unfold sendOnion.
  destruct (sendOnionRequest ctx) as [err|req] eqn:Hr.
  - destruct (sendOnionRequest_error _ _ Hr) as (f & q & c & ->). done.
  - destruct (SendOnionMessage client req) as [msg|resp] eqn:Hs; by eauto.
Qed.

(** X18.  The two modes of [sendonion] never mix.  A request that reaches the
    server is either a pathfinding request: the destination flag is set and
    the peer flag is not, the destination is the decoded flag, peer, path
    key and onion are empty, and the TLV map is nil when no [--tlv] flag
    was given and otherwise a map that is not empty; or a legacy request:
    the peer flag is set and the destination flag is not, peer, path key
    and onion are the decoded flags, the destination is empty and the TLV
    map is nil. *)
Theorem sendOnion_request_modes (ctx : Context)
    (client : Client Response Message) (req : SendOnionMessageRequest) :
  Called req ∈ (sendOnion ctx client).2 ->
  (StringFlag ctx "destination" ≠ "" ∧ StringFlag ctx "peer" = "" ∧
   DecodeString (StringFlag ctx "destination") = inr (Destination req) ∧
   Peer req = [] ∧ PathKey req = [] ∧ Onion req = [] ∧
   match FinalHopTlvs req with
   | None => StringSliceFlag ctx "tlv" = []
   | Some tlvs =>
       tlvs ≠ ∅ ∧ tlvLoop (StringSliceFlag ctx "tlv") ∅ = inr tlvs
   end) ∨
  (StringFlag ctx "destination" = "" ∧ StringFlag ctx "peer" ≠ "" ∧
   DecodeString (StringFlag ctx "peer") = inr (Peer req) ∧
   DecodeString (StringFlag ctx "pathkey") = inr (PathKey req) ∧
   DecodeString (StringFlag ctx "onion") = inr (Onion req) ∧
   Destination req = [] ∧ FinalHopTlvs req = None).
Proof.
  intros Hin.
  assert (sendOnionRequest ctx = inr req) as Hr.
  { unfold sendOnion in Hin.
    destruct (sendOnionRequest ctx) as [|req']; simpl in Hin.
    { by apply elem_of_nil in Hin. }
    destruct (SendOnionMessage client req'); simpl in Hin.
    - apply list_elem_of_singleton in Hin. by injection Hin as ->.
    - apply elem_of_cons in Hin as [Hin|Hin]; [by injection Hin as ->|].
      by apply list_elem_of_singleton in Hin. }
  clear Hin. unfold sendOnionRequest in Hr.
  destruct (decide (StringFlag ctx "destination" ≠ ""
                    ∧ StringFlag ctx "peer" ≠ "")) as [|Hboth]; [done|].
  destruct (decide (StringFlag ctx "destination" ≠ "")) as [Hd|Hd].
  - left. split; [done|].
    split. { destruct (decide (StringFlag ctx "peer" = "")); [done|].
             exfalso. by apply Hboth. }
    destruct (DecodeString (StringFlag ctx "destination")) as [|dest];
      [done|].
    destruct (decide (0 < length (StringSliceFlag ctx "tlv"))%nat)
      as [Hlen|Hlen].
    + destruct (tlvLoop _ _) as [|tlvs] eqn:Hl; [done|].
      injection Hr as <-. simpl. repeat (split; [done|]).
      split; [|done]. by eapply tlvLoop_nonempty.
    + injection Hr as <-. simpl. repeat (split; [done|]).
      destruct (StringSliceFlag ctx "tlv"); [done|]. simpl in Hlen. lia.
  - right. apply dec_stable in Hd. split; [done|].
    destruct (decide (StringFlag ctx "peer" ≠ "")) as [Hp|]; [|done].
    split; [done|].
    destruct (DecodeString (StringFlag ctx "peer")); [done|].
    destruct (DecodeString (StringFlag ctx "pathkey")); [done|].
    destruct (DecodeString (StringFlag ctx "onion")); [done|].
    by injection Hr as <-.
Qed.

(** X19.  Flags of the other mode are not read.  Two command lines with the
    same destination and peer flags behave alike if, when the destination
    is set, they also have the same [--tlv] flags (whatever their path-key
    and onion flags), and if, when it is not set, they also have the same
    path-key and onion flags (whatever their [--tlv] flags: in legacy mode
    these are dropped without an error, even when they are malformed). *)
Theorem sendOnion_ignores_other_mode (ctx ctx' : Context)
    (client : Client Response Message) :
  StringFlag ctx' "destination" = StringFlag ctx "destination" ->
  StringFlag ctx' "peer" = StringFlag ctx "peer" ->
  (StringFlag ctx "destination" ≠ "" ->
   StringSliceFlag ctx' "tlv" = StringSliceFlag ctx "tlv") ->
  (StringFlag ctx "destination" = "" ->
   StringFlag ctx' "pathkey" = StringFlag ctx "pathkey" ∧
   StringFlag ctx' "onion" = StringFlag ctx "onion") ->
  sendOnion ctx' client = sendOnion ctx client.
Proof.
  intros Hd Hp Htlv Hlegacy.
  assert (sendOnionRequest ctx' = sendOnionRequest ctx) as Hr.
  { unfold sendOnionRequest. rewrite Hd, Hp.
    destruct (decide (StringFlag ctx "destination" ≠ ""
                      ∧ StringFlag ctx "peer" ≠ "")); [done|].
    destruct (decide (StringFlag ctx "destination" ≠ "")) as [Hne|Hne].
    - by rewrite (Htlv Hne).
    - apply dec_stable in Hne. destruct (Hlegacy Hne) as [-> ->]. done. }
  unfold sendOnion. by rewrite Hr.
Qed.

(** X20.  The last [--tlv] flag wins.  When the loop over the flags succeeds
    on a list that ends with an entry, that entry is a type, an equals sign
    and a value, split at its first equals sign; the type parses as a
    number and the value decodes as hex; the loop over the earlier entries
    succeeds as well; and the resulting map holds the decoded value at the
    parsed type, replacing what an earlier entry of the same type put
    there, and agrees with the map of the earlier entries at every other
    type. *)
Theorem tlvLoop_last_entry_wins (entries : list string) (entry : string)
    (tlvs tlvs' : gmap N (list Byte.byte)) :
  tlvLoop (entries ++ [entry]) tlvs = inr tlvs' ->
  ∃ part0 part1 tlvType val tlvs0,
    entry = (part0 +:+ String "="%char part1)%string ∧
    ("="%char ∉ list_ascii_of_string part0) ∧
    ParseUint part0 = inr tlvType ∧ DecodeString part1 = inr val ∧
    tlvLoop entries tlvs = inr tlvs0 ∧
    tlvs' !! tlvType = Some val ∧
    ∀ t, t ≠ tlvType -> tlvs' !! t = tlvs0 !! t.
Proof.
  rewrite tlvLoop_app.
  destruct (tlvLoop entries tlvs) as [|tlvs0]; [done|]. simpl.
  destruct (tlvEntry entry tlvs0) as [|tlvs1] eqn:He; [done|].
  intros [= <-].
  destruct (tlvEntry_inr _ _ _ He) as (p0 & p1 & t & v & ? & ? & ? & ? & ->).
  exists p0, p1, t, v, tlvs0. repeat (split; [done|]).
  split; [by rewrite lookup_insert_eq|].
  intros t' Hne. by rewrite lookup_insert_ne.
Qed.

(** X21.  One malformed [--tlv] flag stops a pathfinding send.  When the
    destination flag is set and some [--tlv] entry holds no equals sign,
    the command returns an error and the server is not called, wherever the
    entry stands among the flags and whatever the other flags are. *)
Theorem sendOnion_rejects_tlv_without_separator (ctx : Context)
    (client : Client Response Message) (entry : string) :
  StringFlag ctx "destination" ≠ "" ->
  entry ∈ StringSliceFlag ctx "tlv" ->
  "="%char ∉ list_ascii_of_string entry ->
  ∃ err, sendOnion ctx client = (Some err, []).
Proof.
  intros Hd Hin Hnot. unfold sendOnion, sendOnionRequest.
  destruct (decide (_ ∧ _)); [by eexists|].
  rewrite decide_True by done.
  destruct (DecodeString _); [by eexists|].
  destruct (tlvLoop_bad_entry _ _ ∅ Hin Hnot) as [err ->].
  destruct (decide _) as [|Hlen]; [by eexists|].
  destruct (StringSliceFlag ctx "tlv"); [by apply elem_of_nil in Hin|].
  simpl in Hlen. lia.
Qed.

Lemma recvLoop_spec (recv : nat -> string + Message) (msgs : list Message)
    (err : string) (fuel n : nat) (printed : list Message) :
  (∀ i msg, msgs !! i = Some msg -> recv (n + i)%nat = inr msg) ->
  recv (n + length msgs)%nat = inl err ->
  (length msgs < fuel)%nat ->
  recvLoop fuel recv n printed = Some (ExternalError err, printed ++ msgs).
Proof.
  revert fuel n printed.
  induction msgs as [|msg msgs IH]; intros fuel n printed Hm He Hf.
  - destruct fuel; [simpl in Hf; lia|]. simpl in *.
    rewrite Nat.add_0_r in He. rewrite He. by rewrite app_nil_r.
  - destruct fuel; [lia|]. simpl in *.
    pose proof (Hm 0%nat msg eq_refl) as H0. rewrite Nat.add_0_r in H0.
    rewrite H0. rewrite (IH fuel (S n) (printed ++ [msg])).
    + by rewrite <- app_assoc.
    + intros i m Hi. replace (S n + i)%nat with (n + S i)%nat by lia.
      by apply Hm.
    + by replace (S n + length msgs)%nat with (n + S (length msgs))%nat
        by lia.
    + lia.
Qed.

Lemma recvLoop_running (recv : nat -> string + Message) (fuel n : nat)
    (printed : list Message) :
  (∀ i, (i < fuel)%nat -> ∃ msg, recv (n + i)%nat = inr msg) ->
  recvLoop fuel recv n printed = None.
Proof.
  revert n printed. induction fuel as [|fuel IH]; intros n printed Hm;
    simpl; [done|].
  destruct (Hm 0%nat ltac:(lia)) as [msg H0]. rewrite Nat.add_0_r in H0.
  rewrite H0. apply IH. intros i Hi.
  replace (S n + i)%nat with (n + S i)%nat by lia. apply Hm. lia.
Qed.

(** X22.  [subscribeonion] prints until the stream fails.  When the stream
    opens, delivers the messages of a list one after the other and then
    fails, the command, given fuel for one receive more than the list is
    long, returns the error of the stream, as it is, after printing exactly
    the messages of the list, in order.  As long as every receive delivers
    a message, the command does not return. *)
Theorem subscribeOnion_until_error (client : Client Response Message)
    (recv : nat -> string + Message) (fuel : nat) :
  SubscribeOnionMessages client = inr recv ->
  (∀ msgs err,
     (∀ i msg, msgs !! i = Some msg -> recv i = inr msg) ->
     recv (length msgs) = inl err ->
     (length msgs < fuel)%nat ->
     subscribeOnion fuel client = Some (ExternalError err, msgs)) ∧
  ((∀ i, (i < fuel)%nat -> ∃ msg, recv i = inr msg) ->
   subscribeOnion fuel client = None).
Proof.
  intros Hs. unfold subscribeOnion. rewrite Hs. split.
  - intros msgs err Hm He Hf.
    by rewrite (recvLoop_spec recv msgs err fuel 0 []).
  - intros Hm. by apply recvLoop_running.
Qed.

End CommandsFacts.

(* ===================================================================== *)
(** ** The further properties at concrete inputs *)
(* ===================================================================== *)

Lemma FindPath_terminates_witness :
  ∃ r, FindPath 3 (mockTraverser graphCycle) node1 node5 3 = Some r.
Proof.
  apply (FindPath_terminates 3 (mockTraverser graphCycle) node1 node5 3).
  - reflexivity.
  - vm_compute. discriminate.
Defined.

Lemma FindPath_direct_neighbor_witness :
  FindPath 1 (mockTraverser graphShortcut) node1 node5 1
    = Some (inr {| Hops := [node5] |}).
Proof.
  apply (FindPath_direct_neighbor (mockTraverser graphShortcut) node1 node5
           1 1).
  - by intros [=].
  - vm_compute. reflexivity.
  - assert (neighbors (mockTraverser graphShortcut) node1 = [node2; node5])
      as -> by (vm_compute; reflexivity).
    apply list_elem_of_further, list_elem_of_here.
  - lia.
  - lia.
Defined.

Lemma FindPath_cap_mono_witness :
  FindPath 20 (mockTraverser graphChain) node1 node4 3
    = Some (inr {| Hops := [node2; node3; node4] |}) ∧
  FindPath 20 (mockTraverser graphChain) node1 node4 20
    = Some (inr {| Hops := [node2; node3; node4] |}).
Proof.
  assert (FindPath 20 (mockTraverser graphChain) node1 node4 3
          = Some (inr {| Hops := [node2; node3; node4] |})) as Hf
    by (vm_compute; reflexivity).
  split; [exact Hf|].
  apply (FindPath_cap_mono 20 (mockTraverser graphChain) node1 node4 3 20 _
           Hf).
  - discriminate.
  - lia.
Defined.

Lemma FindPath_ignores_source_features_witness :
  FetchNodeFeatures (forgetNode (mockTraverser graphChain) node1) node1
    = inl "node not found"%string ∧
  FindPath 20 (mockTraverser graphChain) node1 node4 20
  = FindPath 20 (forgetNode (mockTraverser graphChain) node1) node1 node4 20.
Proof.
  split; [reflexivity|].
  apply (FindPath_ignores_source_features 20 (mockTraverser graphChain)
           (forgetNode (mockTraverser graphChain) node1) node1 node4 20).
  - by intros [=].
  - intros v Hv. simpl. by rewrite decide_False.
  - intros v. reflexivity.
Defined.

Lemma expandLevel_next_queue_fresh_witness :
  match expandLevel (mockTraverser graphShortcut) node4 [node1]
          (initialState node1 node4) with
  | LevelNext st' =>
      nextQueue st' = [node2; node5] ∧ NoDup (nextQueue st') ∧
      ∀ v, v ∈ nextQueue st' ->
        isVisited (initialState node1 node4) v = false ∧
        isVisited st' v = true ∧ v ≠ node4 ∧
        ∃ u, u ∈ [node1] ∧ v ∈ neighbors (mockTraverser graphShortcut) u
  | _ => False
  end.
Proof.
  destruct (expandLevel (mockTraverser graphShortcut) node4 [node1]
              (initialState node1 node4)) as [st'|err|st'] eqn:Hl;
    [vm_compute in Hl; discriminate Hl..|].
  destruct (expandLevel_next_queue_fresh (mockTraverser graphShortcut) node4
              [node1] (initialState node1 node4) st' eq_refl Hl)
    as (Hnd & _ & Hnew).
  split; [|by split].
  vm_compute in Hl. injection Hl as <-. reflexivity.
Defined.

Lemma reconstructPath_links_witness :
  reconstructPath 5 {[ node3 := node2; node2 := node1 ]} node1 node3
    = Some {| Hops := [node2; node3] |} ∧
  (node1 ∉ [node2; node3]) ∧
  last [node1; node2; node3] = Some node3 ∧
  (2 ≤ 5)%nat.
Proof.
  assert (reconstructPath 5 {[ node3 := node2; node2 := node1 ]} node1 node3
          = Some {| Hops := [node2; node3] |}) as Hp
    by (vm_compute; reflexivity).
  destruct (reconstructPath_links 5 _ node1 node3 _ Hp)
    as (Hsrc & Hlast & _ & Hlen).
  split; [exact Hp|]. split; [exact Hsrc|]. split; [exact Hlast|exact Hlen].
Defined.

Lemma reconstructPath_missing_key_witness :
  reconstructPath 1000 ∅ node1 node2 = None.
Proof.
  apply (reconstructPath_missing_key ∅ node1 node2).
  - by intros [=].
  - reflexivity.
  - by intros [=].
  - reflexivity.
Defined.

Lemma buildOnionMessageForPath_failure_stages_witness :
  buildOnionMessageForPath (primitives := toyPrimitives) pathABC None []
    toyEntropyOnce
  = (inl (Errorf "generate onion key: %w" None
            (Some (ExternalError "entropy exhausted"))),
     {| draws := draws toyEntropyOnce; drawn := 2 |}) ∧
  draws {| draws := draws toyEntropyOnce; drawn := 2 |}
  = draws toyEntropyOnce ∧
  draws toyEntropyOnce 0%nat = inr 7%N ∧
  draws toyEntropyOnce 1%nat = inl "entropy exhausted"%string.
Proof.
  assert (buildOnionMessageForPath (primitives := toyPrimitives) pathABC None
            [] toyEntropyOnce
          = (inl (Errorf "generate onion key: %w" None
                    (Some (ExternalError "entropy exhausted"))),
             {| draws := draws toyEntropyOnce; drawn := 2 |})) as Hb
    by (vm_compute; reflexivity).
  split; [exact Hb|].
  destruct (buildOnionMessageForPath_failure_stages
              (primitives := toyPrimitives) pathABC None [] toyEntropyOnce _
              _ Hb) as [Hd _].
  split; [exact Hd|]. split; reflexivity.
Defined.

Lemma SendToDestination_tells_neighbor_witness :
  ∃ w' firstHop actorRef req,
    SendToDestination (primitives := toyPrimitives) 20 toyConfigChain node3
      [] None toyWorld = Some (None, w') ∧
    firstHop ∈ neighbors (mockTraverser graphChain) node1 ∧
    supports (mockTraverser graphChain) firstHop = true ∧
    findPeerActor (Primitives := toyPrimitives) (Receptionist toyConfigChain)
      firstHop = Some actorRef ∧
    told w' = told toyWorld ++ [(actorRef, req)].
Proof.
  destruct (SendToDestination (primitives := toyPrimitives) 20 toyConfigChain
              node3 [] None toyWorld) as [[res w']|] eqn:Hs;
    [|vm_compute in Hs; discriminate Hs].
  destruct (SendToDestination_tells_neighbor (primitives := toyPrimitives)
              20 toyConfigChain node3 [] None toyWorld w' res Hs)
    as [[Hres _]|(-> & firstHop & actorRef & req & Hn & Hsup & _ & Ha & Ht)].
  - exfalso. apply Hres. vm_compute in Hs. by injection Hs as <- _.
  - exists w', firstHop, actorRef, req. done.
Defined.

Section CommandsWitnesses.
Import Stdlib.Strings.Ascii Commands.

Lemma sendOnion_request_modes_witness :
  Called {| Peer := []; PathKey := []; Onion := [];
            Destination := [Byte.x00; Byte.x00];
            FinalHopTlvs := Some {[ 7%N := [Byte.x00; Byte.x00] ]} |}
    ∈ (sendOnion (library := toyLibrary) ctxDestination toyClient).2 ∧
  StringFlag ctxDestination "peer" = "" ∧
  tlvLoop (library := toyLibrary) (StringSliceFlag ctxDestination "tlv") ∅
    = inr {[ 7%N := [Byte.x00; Byte.x00] ]}.
Proof.
  assert (Called {| Peer := []; PathKey := []; Onion := [];
                    Destination := [Byte.x00; Byte.x00];
                    FinalHopTlvs := Some {[ 7%N := [Byte.x00; Byte.x00] ]} |}
            ∈ (sendOnion (library := toyLibrary) ctxDestination toyClient).2)
    as Hin.
  { assert ((sendOnion (library := toyLibrary) ctxDestination toyClient).2
            = [Called {| Peer := []; PathKey := []; Onion := [];
                         Destination := [Byte.x00; Byte.x00];
                         FinalHopTlvs :=
                           Some {[ 7%N := [Byte.x00; Byte.x00] ]} |};
               Printed 2%nat]) as -> by (vm_compute; reflexivity).
    apply list_elem_of_here. }
  split; [exact Hin|].
  destruct (sendOnion_request_modes (library := toyLibrary) ctxDestination
              toyClient _ Hin)
    as [(_ & Hp & _ & _ & _ & _ & Ht)|(Hd & _)].
  - simpl in Ht. destruct Ht as [_ Ht]. by split.
  - discriminate Hd.
Defined.

Lemma sendOnion_ignores_other_mode_witness :
  sendOnion (library := toyLibrary) ctxLegacyPlain toyClient
  = sendOnion (library := toyLibrary) ctxLegacy toyClient.
Proof.
  apply (sendOnion_ignores_other_mode (library := toyLibrary) ctxLegacy
           ctxLegacyPlain toyClient).
  - reflexivity.
  - reflexivity.
  - intros Hd. exfalso. apply Hd. reflexivity.
  - intros _. split; reflexivity.
Defined.

Lemma tlvLoop_last_entry_wins_witness :
  ∃ tlvs' tlvType val,
    tlvLoop (library := toyLibrary) (["7=ab"] ++ ["7=abcd"]) ∅ = inr tlvs' ∧
    ParseUint (Library := toyLibrary) "7" = inr 7%N ∧
    tlvs' !! tlvType = Some val.
Proof.
  destruct (tlvLoop (library := toyLibrary) (["7=ab"] ++ ["7=abcd"]) ∅)
    as [err|tlvs'] eqn:Hl; [vm_compute in Hl; discriminate Hl|].
  destruct (tlvLoop_last_entry_wins (library := toyLibrary) ["7=ab"]
              "7=abcd" ∅ tlvs' Hl)
    as (_ & _ & tlvType & val & _ & _ & _ & _ & _ & _ & Hv & _).
  exists tlvs', tlvType, val. split; [done|]. split; [reflexivity|exact Hv].
Defined.

Lemma sendOnion_rejects_tlv_without_separator_witness :
  ∃ err, sendOnion (library := toyLibrary) ctxBadTlv toyClient
         = (Some err, []).
Proof.
  apply (sendOnion_rejects_tlv_without_separator (library := toyLibrary)
           ctxBadTlv toyClient "junk").
  - by intros [=].
  - apply list_elem_of_further, list_elem_of_here.
  - intros Hin. simpl in Hin.
    repeat (apply elem_of_cons in Hin as [Hin|Hin]; [discriminate Hin|]).
    by apply elem_of_nil in Hin.
Defined.

Lemma subscribeOnion_until_error_witness :
  subscribeOnion 4 toyClient
  = Some (ExternalError "EOF", [0; 10; 20]%nat).
Proof.
  destruct (subscribeOnion_until_error toyClient _ 4 eq_refl) as [Hstop _].
  apply (Hstop [0; 10; 20]%nat "EOF"%string).
  - intros [|[|[|i]]] msg; simpl; intros [= <-]; reflexivity.
  - reflexivity.
  - simpl. lia.
Defined.

End CommandsWitnesses.
